(** * Graph Theory Analyzer: a shallow embedding of [main.py]

    The graph algorithms of [main.py] ([bfs_with_depth], [dfs_with_depth],
    [has_cycle], [greedy_coloring], [find_max_clique]) and the render-state
    part of [GraphApp] ([draw_graph], [run_bfs], [run_dfs],
    [animate_traversal] and its [update] callback) are translated to Rocq
    functions, and the properties stated for them are proved.

    Modelling conventions.
    - A networkx [Graph] is its adjacency dictionary in insertion order:
      an association list from a node to the list of its neighbours.
      [G.nodes] iterates the keys, [G.neighbors(n)] iterates the entry of
      [n] and raises [NetworkXError] when [n] is not a node.
    - Node identities, depths and colour indices are natural numbers.
    - Python sets are [gset nat], the colouring dictionary is a
      [gmap nat nat].
    - A draw request records the picture it hands to the library, the list
      of node colours with the title, in the field [canvas]; the library
      raises [ValueError] when the list has not one colour for each node of
      the graph.
    - A Python exception is the [Raise] outcome of [result]; [while] loops
      and recursion are driven by a fuel argument, [OutOfFuel] is the
      outcome of a run that was given too little of it.  The interpreter's
      recursion limit is not part of the model. *)

From stdpp Require Import gmap strings list sorting fin_maps.
From Stdlib Require Import DecimalString.

Set Warnings "-clear-no-such-hyp,-register-all".

(** ** Outcomes *)

Inductive exn := NetworkXError | ValueError | IndexError | ZeroDivisionError.

Inductive result (A : Type) :=
  | Ok (a : A)
  | Raise (e : exn)
  | OutOfFuel.
Arguments Ok {A} a.
Arguments Raise {A} e.
Arguments OutOfFuel {A}.

#[global] Instance result_ret : MRet result := λ A a, Ok a.
#[global] Instance result_bind : MBind result := λ A B k r,
  match r with
  | Ok a => k a
  | Raise e => Raise e
  | OutOfFuel => OutOfFuel
  end.

(** [for x in l: st = body(x, st)] *)
Fixpoint for_each {A S} (body : A → S → result S) (l : list A) (st : S)
    : result S :=
  match l with
  | [] => Ok st
  | a :: l' => st' ← body a st ; for_each body l' st'
  end.

(** [for x in l: ...] where the body may [return True] out of the enclosing
    function: the body yields [(true, st)] to return, [(false, st)] to go
    on; the loop yields [(false, st)] when the list is exhausted. *)
Fixpoint for_until {A S} (body : A → S → result (bool * S)) (l : list A)
    (st : S) : result (bool * S) :=
  match l with
  | [] => Ok (false, st)
  | a :: l' =>
      '(stop, st') ← body a st ;
      if stop : bool then Ok (true, st') else for_until body l' st'
  end.

(** ** The graph model *)

Definition Graph := list (nat * list nat).

Definition nodes (G : Graph) : list nat := G.*1.

Fixpoint neighbors (G : Graph) (n : nat) : result (list nat) :=
  match G with
  | [] => Raise NetworkXError
  | (m, ns) :: G' => if decide (m = n) then Ok ns else neighbors G' n
  end.

Definition adj (G : Graph) (u v : nat) : Prop :=
  ∃ ns, neighbors G u = Ok ns ∧ v ∈ ns.

#[global] Instance adj_dec G u v : Decision (adj G u v).
Proof.
  unfold adj. destruct (neighbors G u) as [ns| |].
  - destruct (decide (v ∈ ns)) as [Hv|Hv].
    + left. exists ns. split; [reflexivity|exact Hv].
    + right. intros (ns' & E & Hv'). injection E as <-. exact (Hv Hv').
  - right. intros (ns' & E & _). discriminate E.
  - right. intros (ns' & E & _). discriminate E.
Defined.

(** An undirected simple graph: keys are distinct, neighbour lists have no
    repetition (no parallel edges) and name nodes of the graph, adjacency is
    symmetric and irreflexive (no self-loops). *)
Record simple_graph (G : Graph) : Prop := {
  sg_nodes : NoDup (nodes G);
  sg_nodup : ∀ n ns, neighbors G n = Ok ns → NoDup ns;
  sg_closed : ∀ u v, adj G u v → v ∈ nodes G;
  sg_sym : ∀ u v, adj G u v → adj G v u;
  sg_irrefl : ∀ u, ¬ adj G u u
}.

(** The same test as a boolean function. *)
Definition adjb (G : Graph) (u v : nat) : bool :=
  match neighbors G u with
  | Ok ns => bool_decide (v ∈ ns)
  | _ => false
  end.

Definition simple_graphb (G : Graph) : bool :=
  bool_decide (NoDup (nodes G)) &&
  forallb (λ e : nat * list nat,
    bool_decide (NoDup e.2) &&
    forallb (λ v, bool_decide (v ∈ nodes G) && adjb G v e.1 &&
                  negb (bool_decide (v = e.1))) e.2) G.

(** Two adjacency dictionaries of the same graph: the same nodes and, for
    each node, the same neighbours, both up to the order of insertion. *)
Definition same_graph (G G' : Graph) : Prop :=
  nodes G ≡ₚ nodes G' ∧
  ∀ n ns, neighbors G n = Ok ns → ∃ ns', neighbors G' n = Ok ns' ∧ ns ≡ₚ ns'.

(** Small graphs used as examples: a triangle with a tail, a 4-cycle, a
    triangle, a path, and two triangles joined by the bridge 2 - 3. *)
Definition k3tail : Graph := [(0, [2; 1]); (1, [0; 2]); (2, [3; 1; 0]); (3, [2])].
Definition cycle4 : Graph := [(0, [1; 3]); (1, [0; 2]); (2, [1; 3]); (3, [2; 0])].
Definition triangle : Graph := [(0, [1; 2]); (1, [0; 2]); (2, [0; 1])].
Definition path3 : Graph := [(0, [1]); (1, [0; 2]); (2, [1])].
Definition two_triangles : Graph :=
  [(0, [1; 2]); (1, [0; 2]); (2, [0; 1; 3]);
   (3, [2; 4; 5]); (4, [3; 5]); (5, [3; 4])].

(** A graph with 34 nodes, the number of nodes of the graph that the
    application loads: the triangle with a tail on the nodes 0 to 3, and
    the nodes 4 to 33 without neighbours. *)
Definition k3tail34 : Graph := k3tail ++ ((λ n, (n, [])) <$> seq 4 30).

(** Walks, reachability and distance. *)
Inductive walk (G : Graph) (s : nat) : nat → nat → Prop :=
  | walk_refl : s ∈ nodes G → walk G s s 0
  | walk_step v w k : walk G s v k → adj G v w → walk G s w (S k).

Definition reachable (G : Graph) (s v : nat) : Prop := ∃ k, walk G s v k.

Definition distance (G : Graph) (s v d : nat) : Prop :=
  walk G s v d ∧ ∀ k, walk G s v k → d ≤ k.

(** [first_adjacent G L v a]: the node at index [a] of the sequence [L] is
    the first node of [L] adjacent to [v] (the node from which a
    breadth-first traversal with visiting order [L] discovers [v]). *)
Definition first_adjacent (G : Graph) (L : list nat) (v a : nat) : Prop :=
  ∃ p, L !! a = Some p ∧ adj G p v ∧
       ∀ j y, j < a → L !! j = Some y → ¬ adj G y v.

(** Python's [sorted] on a list of integers. *)
Definition sorted (l : list nat) : list nat := merge_sort (≤) l.

(** ** Traversals *)

(** [bfs_with_depth]: the state of the [while queue:] loop is
    [(visited, queue, order)]. *)
Definition bfs_state : Type := gset nat * list (nat * nat) * list (nat * nat).

(** the body of [for neighbor in sorted(G.neighbors(node))] *)
Definition bfs_visit (depth : nat) (neighbor : nat)
    (st : gset nat * list (nat * nat)) : gset nat * list (nat * nat) :=
  if decide (neighbor ∈ st.1) then st
  else ({[neighbor]} ∪ st.1, st.2 ++ [(neighbor, depth + 1)]).

Fixpoint bfs_loop (fuel : nat) (G : Graph) (st : bfs_state)
    : result (list (nat * nat)) :=
  match fuel with
  | 0 => OutOfFuel
  | S fuel' =>
      let '(visited, queue, order) := st in
      match queue with
      | [] => Ok order
      | (node, depth) :: queue' =>
          let order' := order ++ [(node, depth)] in
          ns ← neighbors G node ;
          let '(visited', queue'') :=
            foldl (λ acc nb, bfs_visit depth nb acc) (visited, queue')
                  (sorted ns) in
          bfs_loop fuel' G (visited', queue'', order')
      end
  end.

Definition bfs_with_depth (G : Graph) (start : nat) : result (list (nat * nat)) :=
  bfs_loop (S (length G)) G ({[start]}, [(start, 0)], []).

(** [dfs_with_depth]: the state shared by the calls of [dfs_rec] is
    [(visited, order)]. *)
Definition dfs_state : Type := gset nat * list (nat * nat).

Fixpoint dfs_rec (fuel : nat) (G : Graph) (node depth : nat) (st : dfs_state)
    : result dfs_state :=
  match fuel with
  | 0 => OutOfFuel
  | S fuel' =>
      let st1 : dfs_state := ({[node]} ∪ st.1, st.2 ++ [(node, depth)]) in
      ns ← neighbors G node ;
      for_each (λ neighbor st,
                  if decide (neighbor ∈ st.1) then Ok st
                  else dfs_rec fuel' G neighbor (depth + 1) st)
               (sorted ns) st1
  end.

Definition dfs_with_depth (G : Graph) (start : nat) : result (list (nat * nat)) :=
  st ← dfs_rec (S (length G)) G start 0 (∅, []) ; Ok st.2.

(** ** Cycle detection *)

(** [has_cycle]: the state shared by the calls of [dfs_cycle] is
    [(visited, rec_stack)]; [parent] is [None] at the root of a search. *)
Definition cycle_state : Type := gset nat * gset nat.

Fixpoint dfs_cycle (fuel : nat) (G : Graph) (v : nat) (parent : option nat)
    (st : cycle_state) : result (bool * cycle_state) :=
  match fuel with
  | 0 => OutOfFuel
  | S fuel' =>
      let st1 : cycle_state := ({[v]} ∪ st.1, {[v]} ∪ st.2) in
      ns ← neighbors G v ;
      '(found, st2) ←
        for_until (λ neighbor (st : cycle_state),
                     if decide (neighbor ∉ st.1)
                     then dfs_cycle fuel' G neighbor (Some v) st
                     else if decide (neighbor ∈ st.2 ∧ Some neighbor ≠ parent)
                     then Ok (true, st)
                     else Ok (false, st))
                  ns st1 ;
      if found : bool then Ok (true, st2)
      else Ok (false, (st2.1, st2.2 ∖ {[v]}))
  end.

Definition has_cycle (G : Graph) : result bool :=
  '(found, _) ←
    for_until (λ n (st : cycle_state),
                 if decide (n ∉ st.1)
                 then dfs_cycle (S (length G)) G n None st
                 else Ok (false, st))
              (nodes G) (∅, ∅) ;
  Ok found.

(** ** Greedy colouring *)

(** [color = 0; while color in neighbor_colors: color += 1] *)
Fixpoint first_free (fuel : nat) (color : nat)
    (neighbor_colors : gset (option nat)) : result nat :=
  match fuel with
  | 0 => OutOfFuel
  | S fuel' =>
      if decide (Some color ∈ neighbor_colors)
      then first_free fuel' (color + 1) neighbor_colors
      else Ok color
  end.

(** the body of [for node in sorted(G.nodes())]; [result.get(neigh)] is
    the lookup [coloring !! neigh], [None] for a node without a colour. *)
Definition greedy_step (G : Graph) (node : nat) (coloring : gmap nat nat)
    : result (gmap nat nat) :=
  ns ← neighbors G node ;
  let neighbor_colors : gset (option nat) :=
    list_to_set ((λ neigh, coloring !! neigh) <$> ns) in
  color ← first_free (S (size neighbor_colors)) 0 neighbor_colors ;
  Ok (<[node := color]> coloring).

Definition greedy_coloring (G : Graph) : result (gmap nat nat) :=
  for_each (greedy_step G) (sorted (nodes G)) ∅.

(** ** Maximum clique *)

(** [max(cliques, key=len)]: the first element of greatest length,
    [ValueError] on the empty list. *)
Definition max_by_len (cliques : list (list nat)) : result (list nat) :=
  match cliques with
  | [] => Raise ValueError
  | c :: cs =>
      Ok (foldl (λ best x, if decide (length best < length x) then x else best)
                c cs)
  end.

(** [nx.find_cliques] is the library's enumeration of maximal cliques; it is
    an argument of the model. *)
Definition find_max_clique (find_cliques : Graph → list (list nat))
    (G : Graph) : result (list nat) :=
  max_by_len (find_cliques G).

(** ** The application state and the render-state controller *)

(** [mcolors.TABLEAU_COLORS.values()] and [mcolors.CSS4_COLORS.values()]. *)
Record Palette := {
  TABLEAU_COLORS : list string;
  CSS4_COLORS : list string
}.

(** The fields of [GraphApp] that the controller reads and writes.
    [anim_alive] stands for [self.anim_thread and
    self.anim_thread.is_alive()]; [log] is the text of the log widget, one
    message per entry; [canvas] is the sequence of pictures handed to the
    drawing collaborator, each the list of node colours and the title
    (empty when no title is set). *)
Record GraphApp := {
  G : Graph;
  anim_alive : bool;
  anim : option (list (nat * nat) * string);
  current_coloring : option (gmap nat nat);
  clique_nodes : option (list nat);
  node_colors : list string;
  log : list string;
  canvas : list (list string * string)
}.

(** Assignments to the fields. *)
Definition set_anim_alive (b : bool) (app : GraphApp) : GraphApp :=
  Build_GraphApp (G app) b (anim app) (current_coloring app)
    (clique_nodes app) (node_colors app) (log app) (canvas app).
Definition set_anim (a : option (list (nat * nat) * string)) (app : GraphApp)
    : GraphApp :=
  Build_GraphApp (G app) (anim_alive app) a (current_coloring app)
    (clique_nodes app) (node_colors app) (log app) (canvas app).
Definition set_current_coloring (c : option (gmap nat nat)) (app : GraphApp)
    : GraphApp :=
  Build_GraphApp (G app) (anim_alive app) (anim app) c
    (clique_nodes app) (node_colors app) (log app) (canvas app).
Definition set_clique_nodes (c : option (list nat)) (app : GraphApp) : GraphApp :=
  Build_GraphApp (G app) (anim_alive app) (anim app) (current_coloring app)
    c (node_colors app) (log app) (canvas app).
Definition set_node_colors (c : list string) (app : GraphApp) : GraphApp :=
  Build_GraphApp (G app) (anim_alive app) (anim app) (current_coloring app)
    (clique_nodes app) c (log app) (canvas app).
Definition set_log (l : list string) (app : GraphApp) : GraphApp :=
  Build_GraphApp (G app) (anim_alive app) (anim app) (current_coloring app)
    (clique_nodes app) (node_colors app) l (canvas app).
Definition set_canvas (c : list (list string * string)) (app : GraphApp)
    : GraphApp :=
  Build_GraphApp (G app) (anim_alive app) (anim app) (current_coloring app)
    (clique_nodes app) (node_colors app) (log app) c.

Definition default_colors : list string := replicate 34 "lightblue".

Definition log_msg (app : GraphApp) (msg : string) : GraphApp :=
  set_log (log app ++ [msg]) app.

(** [str(n)] and [str(l)] for an integer and a list of integers. *)
Definition str_nat (n : nat) : string := NilEmpty.string_of_uint (Nat.to_uint n).

Fixpoint join (sep : string) (l : list string) : string :=
  match l with
  | [] => ""
  | [x] => x
  | x :: l' => x +:+ sep +:+ join sep l'
  end.

Definition str_list (l : list nat) : string :=
  "[" +:+ join ", " (str_nat <$> l) +:+ "]".

(** [l[i]] and [l[i] = x] on a Python list. *)
Definition getitem {A} (l : list A) (i : nat) : result A :=
  match l !! i with
  | Some x => Ok x
  | None => Raise IndexError
  end.

Definition setitem {A} (i : nat) (x : A) (l : list A) : result (list A) :=
  if decide (i < length l) then Ok (<[i := x]> l) else Raise IndexError.

Definition get_color_map (pal : Palette) (num_colors : nat)
    : result (list string) :=
  let base_colors := TABLEAU_COLORS pal in
  if decide (num_colors ≤ length base_colors) then Ok (take num_colors base_colors)
  else
    let extended := base_colors ++ CSS4_COLORS pal in
    mapM (λ i, if decide (length extended = 0) then Raise ZeroDivisionError
               else getitem extended (i mod length extended))
         (seq 0 num_colors).

(** [nx.draw_networkx_nodes(G, pos, node_color=node_colors, ...)], the
    drawing of the nodes by the library: nothing is drawn for a graph
    without nodes; otherwise the list holds one colour for each node, and
    the call raises [ValueError] when the number of colours is not the
    number of nodes. *)
Definition draw_networkx_nodes (G : Graph) (node_color : list string)
    : result unit :=
  if decide (G = []) then Ok ()
  else if decide (length node_color = length G) then Ok ()
  else Raise ValueError.

(** [highlight_nodes] is [None] or a dictionary from a colour name to a list
    of nodes; [d.get(k, [])] is [default [] (d !! k)]. *)
Definition draw_graph (pal : Palette) (highlight_nodes : option (gmap string (list nat)))
    (title : string) (app : GraphApp) : result GraphApp :=
  let colors := node_colors app in
  colors ←
    match current_coloring app with
    | Some coloring =>
        if decide (coloring = ∅) then Ok colors
        else
          let max_color := max_list (map_to_list coloring).*2 in
          color_map ← get_color_map pal (max_color + 1) ;
          for_each (λ '(node, color_idx) colors,
                      c ← getitem color_map color_idx ;
                      setitem node c colors)
                   (map_to_list coloring) colors
    | None => Ok colors
    end ;
  colors ←
    match clique_nodes app with
    | Some clique => for_each (λ n, setitem n "red") clique colors
    | None => Ok colors
    end ;
  colors ←
    match highlight_nodes with
    | Some hl =>
        if decide (hl = ∅) then Ok colors
        else
          colors ← for_each (λ n, setitem n "gold")
                            (default [] (hl !! "gold")) colors ;
          for_each (λ n, setitem n "lightgreen")
                   (default [] (hl !! "lightgreen")) colors
    | None => Ok colors
    end ;
  _ ← draw_networkx_nodes (G app) colors ;
  Ok (set_canvas (canvas app ++ [(colors, title)]) app).

(** The callback [update(frame)] of [animate_traversal.worker]; [step] is
    the dictionary of the worker, shared by all frames. *)
Definition update (pal : Palette) (order : list (nat * nat)) (mode : string)
    (frame : nat) (st : GraphApp * gmap string (list nat))
    : result (GraphApp * gmap string (list nat)) :=
  let '(app, step) := st in
  '(step, title) ←
    (if decide (0 < frame) then
       '(node, depth) ← getitem order (frame - 1) ;
       let step := alter (λ l, l ++ [node]) "gold" step in
       step ←
         (if decide (1 < frame) then
            '(prev_node, _) ← getitem order (frame - 2) ;
            Ok (alter (λ l, l ++ [prev_node]) "lightgreen" step)
          else Ok step) ;
       Ok (step, mode +:+ " – Step " +:+ str_nat frame +:+ ": Node " +:+
                 str_nat node +:+ " (Depth " +:+ str_nat depth +:+ ")")
     else Ok (step, mode)) ;
  app ← draw_graph pal (Some step) title app ;
  if decide (frame = length order) then
    let step := alter (λ l, l ++ order.*1) "lightgreen" step in
    app ← draw_graph pal (Some step) (mode +:+ " Completed") app ;
    Ok (app, step)
  else Ok (app, step).

Definition step0 : gmap string (list nat) :=
  {[ "gold" := []; "lightgreen" := [] ]}.

(** The frames [0 .. len(order)] delivered in order, once each, by the
    timer of the animation created with [frames=len(order) + 1,
    repeat=False]; [st] is the state of the application with the dictionary
    [step] of the worker. *)
Definition play (pal : Palette) (order : list (nat * nat)) (mode : string)
    (st : GraphApp * gmap string (list nat))
    : result (GraphApp * gmap string (list nat)) :=
  for_each (update pal order mode) (seq 0 (length order + 1)) st.

(** [worker]: creates the animation and starts it.  [self.anim._start()]
    draws the first frame at once, by a call of [update(0)], and starts the
    timer that delivers the frames afterwards.  When [worker] returns its
    thread is no longer alive. *)
Definition worker (pal : Palette) (order : list (nat * nat)) (mode : string)
    (app : GraphApp) : result (GraphApp * gmap string (list nat)) :=
  let app := set_anim (Some (order, mode)) app in
  '(app, step) ← update pal order mode 0 (app, step0) ;
  Ok (set_anim_alive false app, step).

Definition animate_traversal (order : list (nat * nat)) (mode : string)
    (app : GraphApp) : GraphApp :=
  if anim_alive app then
    log_msg app "Animation is already running. Wait until it finishes."
  else
    set_anim_alive true
      (set_clique_nodes None (set_node_colors default_colors app)).

Definition run_bfs (app : GraphApp) : result GraphApp :=
  let app := set_clique_nodes None (set_current_coloring None app) in
  order ← bfs_with_depth (G app) 0 ;
  let app := log_msg app "=== BFS ===" in
  let nodes_only := order.*1 in
  let app := log_msg app ("BFS order: " +:+ str_list nodes_only +:+ " (" +:+
                          str_nat (length nodes_only) +:+ " nodes)") in
  Ok (animate_traversal order "BFS" app).

Definition run_dfs (app : GraphApp) : result GraphApp :=
  let app := set_clique_nodes None (set_current_coloring None app) in
  order ← dfs_with_depth (G app) 0 ;
  let app := log_msg app "=== DFS ===" in
  let nodes_only := order.*1 in
  let app := log_msg app ("DFS order: " +:+ str_list nodes_only +:+ " (" +:+
                          str_nat (length nodes_only) +:+ " nodes)") in
  Ok (animate_traversal order "DFS" app).

Definition max_values (m : gmap nat nat) : result nat :=
  if decide (m = ∅) then Raise ValueError
  else Ok (max_list (map_to_list m).*2).

Definition run_coloring (pal : Palette) (app : GraphApp) : result GraphApp :=
  if anim_alive app then
    Ok (log_msg app "Wait for any running animation to finish before coloring.")
  else
    coloring ← greedy_coloring (G app) ;
    let app := set_clique_nodes None
                 (set_current_coloring (Some coloring) app) in
    max_color ← max_values coloring ;
    let app := log_msg app "=== Greedy Coloring ===" in
    let app := log_msg app ("Colors used: " +:+ str_nat (max_color + 1)) in
    let app :=
      foldl (λ app node,
               log_msg app ("Node " +:+ str_nat node +:+ ": Color " +:+
                            str_nat (default 0 (coloring !! node))))
            app (sorted (map_to_list coloring).*1) in
    let app := set_node_colors default_colors app in
    draw_graph pal None "Greedy Coloring Result" app.

Definition check_clique (pal : Palette) (find_cliques : Graph → list (list nat))
    (app : GraphApp) : result GraphApp :=
  let app := set_current_coloring None app in
  max_clique ← find_max_clique find_cliques (G app) ;
  let app := set_clique_nodes (Some max_clique) app in
  let app := log_msg app "=== Clique Check ===" in
  let app := log_msg app ("Maximum clique size: " +:+ str_nat (length max_clique)) in
  let app := log_msg app ("Clique nodes: " +:+ str_list max_clique) in
  draw_graph pal None "Maximum Clique Highlighted" app.

(** ** Vocabulary of the statements *)

(** A discovery tree; [preorder depth t] lists its nodes in pre-order, each
    with its depth in the tree, the root being at [depth]. *)
Inductive tree := Node (v : nat) (children : list tree).

Definition root (t : tree) : nat := match t with Node v _ => v end.

Fixpoint preorder (depth : nat) (t : tree) : list (nat * nat) :=
  match t with
  | Node v ts => (v, depth) :: mjoin (preorder (S depth) <$> ts)
  end.

(** A tree of [G] whose children are in ascending order of identity: every
    child is a neighbour of its parent. *)
Inductive dfs_tree (G : Graph) : tree → Prop :=
  | dfs_tree_node v ts :
      Forall (λ c, adj G v (root c) ∧ dfs_tree G c) ts →
      StronglySorted (<) (root <$> ts) →
      dfs_tree G (Node v ts).

(** Degrees, and the colours that occur in a colouring. *)
Definition degree (G : Graph) (v : nat) : nat :=
  match neighbors G v with
  | Ok ns => length ns
  | _ => 0
  end.

Definition max_degree (G : Graph) : nat := max_list (length <$> G.*2).

Definition colors_used (coloring : gmap nat nat) : gset nat :=
  list_to_set (map_to_list coloring).*2.

(** Paths and simple cycles: a cycle is given by the list of its nodes, all
    different and at least three, consecutive ones adjacent and the last
    adjacent to the first. *)
Fixpoint is_path (G : Graph) (p : list nat) : Prop :=
  match p with
  | u :: p' =>
      match p' with
      | v :: _ => adj G u v ∧ is_path G p'
      | [] => True
      end
  | [] => True
  end.

Definition simple_cycle (G : Graph) (c : list nat) : Prop :=
  3 ≤ length c ∧ NoDup c ∧ is_path G c ∧
  ∃ u v, head c = Some u ∧ last c = Some v ∧ adj G v u.

Definition has_simple_cycle (G : Graph) : Prop := ∃ c, simple_cycle G c.

(** A tree: a non-empty connected graph with one edge less than nodes (the
    lengths of the neighbour lists add up to twice the number of edges). *)
Definition connected (G : Graph) : Prop :=
  ∀ u v, u ∈ nodes G → v ∈ nodes G → reachable G u v.

Definition is_tree (G : Graph) : Prop :=
  connected G ∧
  sum_list_with (λ e : nat * list nat, length e.2) G + 2 = 2 * length G.

(** [fwd G K] lists, for each node of [K], the number of its neighbours
    that come after it in [K]. *)
Fixpoint fwd (G : Graph) (K : list nat) : list nat :=
  match K with
  | [] => []
  | v :: K' => length (filter (adj G v) K') :: fwd G K'
  end.

(** Cliques.  A clique is given by the list of its nodes, without
    repetition; it is maximal when no node outside of it is adjacent to all
    of its nodes. *)
Definition is_clique (G : Graph) (S : list nat) : Prop :=
  NoDup S ∧ (∀ u, u ∈ S → u ∈ nodes G) ∧
  ∀ u v, u ∈ S → v ∈ S → u ≠ v → adj G u v.

Definition is_maximal_clique (G : Graph) (S : list nat) : Prop :=
  is_clique G S ∧
  ∀ w, w ∈ nodes G → (w ∉ S) → ¬ ∀ u, u ∈ S → adj G w u.

(** What [nx.find_cliques] is documented to do: it yields the maximal
    cliques of the graph, each as a non-empty list of nodes, and all of
    them. *)
Definition find_cliques_contract (find_cliques : Graph → list (list nat))
    (G : Graph) : Prop :=
  (∀ S, S ∈ find_cliques G → S ≠ [] ∧ is_maximal_clique G S) ∧
  (∀ S, S ≠ [] → is_maximal_clique G S →
     ∃ S', S' ∈ find_cliques G ∧ S' ≡ₚ S).

(** A reference enumeration, by exhaustive search over the sublists of the
    node list. *)
Fixpoint sublists (l : list nat) : list (list nat) :=
  match l with
  | [] => [[]]
  | a :: l' => ((a ::.) <$> sublists l') ++ sublists l'
  end.

Definition maximal_cliqueb (G : Graph) (S : list nat) : bool :=
  bool_decide (S ≠ []) &&
  bool_decide (NoDup S) &&
  forallb (λ u, bool_decide (u ∈ nodes G) &&
                forallb (λ v, bool_decide (u = v) || adjb G u v) S) S &&
  forallb (λ w, bool_decide (w ∈ S) || negb (forallb (λ u, adjb G w u) S))
          (nodes G).

Definition find_cliques_ref (G : Graph) : list (list nat) :=
  filter (λ S, maximal_cliqueb G S = true) (sublists (nodes G)).

(** A second enumeration, for larger graphs: the maximal cliques that
    contain a node are searched among the sublists of the list of the node
    and its neighbours. *)
Definition closed_neighborhood (G : Graph) (v : nat) : list nat :=
  filter (λ u, u = v ∨ adj G v u) (nodes G).

Definition find_cliques_local (G : Graph) : list (list nat) :=
  remove_dups
    (mjoin ((λ v, filter (λ S, maximal_cliqueb G S = true)
                         (sublists (closed_neighborhood G v))) <$> nodes G)).

(** Growing a clique: the nodes of [l] are added one by one, each when it
    is adjacent to all nodes collected so far. *)
Definition extend_clique (G : Graph) (C l : list nat) : list nat :=
  foldl (λ C w, if decide ((w ∉ C) ∧ Forall (adj G w) C) then w :: C else C) C l.

(** The layers of a picture, lowest first: the base palette, the colouring,
    the clique highlight, the transient highlights of an animation step.
    Each layer either gives the colour of node [n] or leaves the colour
    [below] of the layers under it. *)
Definition color_map_of (pal : Palette) (app : GraphApp) : list string :=
  match current_coloring app with
  | Some coloring =>
      match get_color_map pal (max_list (map_to_list coloring).*2 + 1) with
      | Ok color_map => color_map
      | _ => []
      end
  | None => []
  end.

Definition base_layer (app : GraphApp) (n : nat) : option string :=
  node_colors app !! n.

Definition coloring_layer (pal : Palette) (app : GraphApp) (n : nat)
    (below : option string) : option string :=
  match current_coloring app with
  | Some coloring =>
      match coloring !! n with
      | Some color_idx => color_map_of pal app !! color_idx
      | None => below
      end
  | None => below
  end.

Definition clique_layer (app : GraphApp) (n : nat) (below : option string)
    : option string :=
  match clique_nodes app with
  | Some clique => if decide (n ∈ clique) then Some "red" else below
  | None => below
  end.

Definition step_layer (highlight_nodes : option (gmap string (list nat)))
    (n : nat) (below : option string) : option string :=
  match highlight_nodes with
  | Some hl =>
      if decide (n ∈ default [] (hl !! "lightgreen")) then Some "lightgreen"
      else if decide (n ∈ default [] (hl !! "gold")) then Some "gold"
      else below
  | None => below
  end.

Definition composed (pal : Palette) (app : GraphApp)
    (highlight_nodes : option (gmap string (list nat))) (n : nat)
    : option string :=
  step_layer highlight_nodes n
    (clique_layer app n (coloring_layer pal app n (base_layer app n))).

(** Node [n] is in the list of the transient highlights under the colour
    name [k]. *)
Definition in_highlight (highlight_nodes : option (gmap string (list nat)))
    (k : string) (n : nat) : Prop :=
  ∃ hl, highlight_nodes = Some hl ∧ n ∈ default [] (hl !! k).

(** The draw request cannot fail: the graph has as many nodes as
    [node_colors] has entries, every node that the request names has an
    entry in [node_colors], and a palette is at hand for the colouring. *)
Definition drawable (pal : Palette)
    (highlight_nodes : option (gmap string (list nat))) (app : GraphApp)
    : Prop :=
  let L := length (node_colors app) in
  length (G app) = L ∧
  (∀ coloring n, current_coloring app = Some coloring →
     is_Some (coloring !! n) →
     n < L ∧ TABLEAU_COLORS pal ++ CSS4_COLORS pal ≠ []) ∧
  (∀ clique n, clique_nodes app = Some clique → n ∈ clique → n < L) ∧
  (∀ hl k l n, highlight_nodes = Some hl → hl !! k = Some l → n ∈ l → n < L).

(** The draw requests of an animation.  [highlight gold lightgreen] is the
    dictionary of transient highlights; at frame [i] the first [i] nodes of
    the traversal have been appended to the list of gold nodes and the first
    [i - 1] to the list of light green nodes; the last request has all nodes
    appended to the light green ones. *)
Definition highlight (gold lightgreen : list nat) : gmap string (list nat) :=
  {[ "gold" := gold; "lightgreen" := lightgreen ]}.

Definition step_at (order : list (nat * nat)) (i : nat) : gmap string (list nat) :=
  highlight (take i order.*1) (take (i - 1) order.*1).

Definition step_done (order : list (nat * nat)) : gmap string (list nat) :=
  highlight order.*1 (take (length order - 1) order.*1 ++ order.*1).

Definition frame_title (mode : string) (order : list (nat * nat)) (i : nat)
    : string :=
  match i with
  | 0 => mode
  | S j =>
      match order !! j with
      | Some (node, depth) =>
          mode +:+ " – Step " +:+ str_nat i +:+ ": Node " +:+ str_nat node +:+
          " (Depth " +:+ str_nat depth +:+ ")"
      | None => mode
      end
  end.

Definition requests (mode : string) (order : list (nat * nat))
    : list (gmap string (list nat) * string) :=
  ((λ i, (step_at order i, frame_title mode order i)) <$>
     seq 0 (length order + 1)) ++
  [(step_done order, mode +:+ " Completed")].

Definition draws (pal : Palette)
    (reqs : list (gmap string (list nat) * string)) (app : GraphApp)
    : result GraphApp :=
  for_each (λ '(hl, title), draw_graph pal (Some hl) title) reqs app.

Definition pal3 : Palette :=
  {| TABLEAU_COLORS := ["#1f77b4"; "#ff7f0e"; "#2ca02c"]; CSS4_COLORS := [] |}.

(** An application state, on the graph of 34 nodes, where an animation is
    running and a clique is highlighted, as after [run_bfs] followed by
    [check_clique]. *)
Definition busy_app : GraphApp :=
  {| G := k3tail34; anim_alive := true; anim := None;
     current_coloring := None; clique_nodes := Some [0; 1; 2];
     node_colors := default_colors; log := []; canvas := [] |}.

Definition idle_app : GraphApp :=
  {| G := k3tail34; anim_alive := false; anim := None;
     current_coloring := None; clique_nodes := None;
     node_colors := default_colors; log := []; canvas := [] |}.

(** The first-fit property of the colour [c] of node [v] in the colouring
    [m]: [c] is the least colour not among the colours of the neighbours of
    [v] of smaller identity, the ones coloured before [v]. *)
Definition first_fit (G : Graph) (m : gmap nat nat) (v c : nat) : Prop :=
  (∀ u, adj G v u → u < v → m !! u ≠ Some c) ∧
  (∀ c', c' < c → ∃ u, adj G v u ∧ u < v ∧ m !! u = Some c').

(** ** Invariants of the loops *)

(** The loop of [bfs_with_depth], at the test of [while queue:], for the
    start node [s]: [V] is the set [visited], [Q] the queue, [O] the
    sequence [order]. *)
Record bfs_inv (G : Graph) (s : nat) (V : gset nat) (Q O : list (nat * nat))
    : Prop := {
  bi_nodup : NoDup (O ++ Q).*1;
  bi_visited : ∀ v, v ∈ V ↔ v ∈ (O ++ Q).*1;
  bi_walk : ∀ v d, (v, d) ∈ O ++ Q → walk G s v d;
  bi_sorted : StronglySorted (≤) (O ++ Q).*2;
  bi_front : ∀ u d q, Q = (u, d) :: q → ∀ x, x ∈ Q.*2 → x ≤ d + 1;
  bi_closed : ∀ u d w, (u, d) ∈ O → adj G u w →
                ∃ d', (w, d') ∈ O ++ Q ∧ d' ≤ d + 1;
  bi_head : head (O ++ Q) = Some (s, 0)
}.

(** The order of the entries of [O ++ Q]: every node after the first was
    discovered from a node that has left the queue, and the nodes are in the
    order of the nodes they were discovered from, those discovered from the
    same node in ascending order. *)
Definition bfs_ord (G : Graph) (Q O : list (nat * nat)) : Prop :=
  let L := (O ++ Q).*1 in
  (∀ i v, 0 < i → L !! i = Some v →
     ∃ a, first_adjacent G L v a ∧ a < length O ∧ a < i) ∧
  (∀ i j v w a b, 0 < i → i < j → L !! i = Some v → L !! j = Some w →
     first_adjacent G L v a → first_adjacent G L w b →
     a < b ∨ (a = b ∧ v < w)).

(** The nodes of the subtrees that [dfs_rec] has built below a node of
    depth [depth]. *)
Definition forest_nodes (depth : nat) (ts : list tree) : list nat :=
  (mjoin (preorder (S depth) <$> ts)).*1.

(** [aoe G R L]: in the order [L], every node outside of [R] has at most
    one neighbour that comes before it. *)
Definition aoe (G : Graph) (R : gset nat) (L : list nat) : Prop :=
  ∀ l1 u l2, L = l1 ++ u :: l2 → u ∉ R →
    ∀ x y, x ∈ l1 → y ∈ l1 → adj G u x → adj G u y → x = y.

(** [closedV G V R]: every visited node that is not on the recursion stack
    has all its neighbours visited. *)
Definition closedV (G : Graph) (V R : gset nat) : Prop :=
  ∀ u x, u ∈ V → u ∉ R → adj G u x → x ∈ V.

(** ** The other callbacks of the controller *)

(** [str(b)] for a Boolean. *)
Definition str_bool (b : bool) : string := if b then "True" else "False".

Definition check_cycle (app : GraphApp) : result GraphApp :=
  let app := set_clique_nodes None app in
  result ← has_cycle (G app) ;
  let app := log_msg app "=== Cycle Check ===" in
  Ok (log_msg app ("Graph has cycle: " +:+ str_bool result)).

(** [self.log.delete('1.0', tk.END)] empties the log. *)
Definition clear_log (pal : Palette) (app : GraphApp) : result GraphApp :=
  let app := set_log [] app in
  let app := set_current_coloring None app in
  let app := set_node_colors default_colors app in
  let app := set_clique_nodes None app in
  draw_graph pal None "" app.

Definition newline : string := String (Ascii.ascii_of_nat 10) EmptyString.

(** [GraphApp.__init__], for the fields of the model; the graph loaded by
    [nx.karate_club_graph()] is an argument. *)
Definition __init__ (pal : Palette) (karate_club_graph : Graph)
    : result GraphApp :=
  let app :=
    {| G := karate_club_graph; anim_alive := false; anim := None;
       current_coloring := None; clique_nodes := None;
       node_colors := default_colors; log := []; canvas := [] |} in
  let app := log_msg app ("Nodes: 34, Edges: 78" +:+ newline) in
  draw_graph pal None "" app.

(** The buttons of the window and the callbacks bound to them ([Exit]
    closes the window and is left out). *)
Inductive button :=
  RunBFS | RunDFS | RunGreedyColoring | CheckCycle | CheckClique | ClearLog.

Definition command (pal : Palette) (find_cliques : Graph → list (list nat))
    (b : button) (app : GraphApp) : result GraphApp :=
  match b with
  | RunBFS => run_bfs app
  | RunDFS => run_dfs app
  | RunGreedyColoring => run_coloring pal app
  | CheckCycle => check_cycle app
  | CheckClique => check_clique pal find_cliques app
  | ClearLog => clear_log pal app
  end.

(** What the event loop does to the state of the application: a button is
    pressed, the worker thread of an animation runs and returns, or the
    timer of an animation delivers a frame. *)
Inductive gui_step (pal : Palette) (find_cliques : Graph → list (list nat))
    : GraphApp → GraphApp → Prop :=
  | step_press b app app' :
      command pal find_cliques b app = Ok app' →
      gui_step pal find_cliques app app'
  | step_worker order mode app app' step :
      anim_alive app = true →
      worker pal order mode app = Ok (app', step) →
      gui_step pal find_cliques app app'
  | step_frame order mode frame step app app' step' :
      update pal order mode frame (app, step) = Ok (app', step') →
      gui_step pal find_cliques app app'.

(** ** Vocabulary of the statements about the controller *)

(** The nodes that a draw request paints over the colouring: the clique
    and the transient highlights. *)
Definition painted (highlight_nodes : option (gmap string (list nat)))
    (app : GraphApp) : list nat :=
  default [] (clique_nodes app) ++
  match highlight_nodes with
  | Some hl => default [] (hl !! "gold") ++ default [] (hl !! "lightgreen")
  | None => []
  end.

(** What holds of the state of the application between two events: the
    graph is the one loaded at start-up, the base colours are the default
    ones, a colouring and a clique highlight are not set together, and
    they name nodes of the graph only. *)
Definition app_inv (G0 : Graph) (app : GraphApp) : Prop :=
  G app = G0 ∧
  node_colors app = default_colors ∧
  (current_coloring app = None ∨ clique_nodes app = None) ∧
  (∀ coloring n, current_coloring app = Some coloring →
     is_Some (coloring !! n) → n ∈ nodes G0) ∧
  (∀ clique n, clique_nodes app = Some clique → n ∈ clique → n ∈ nodes G0).

(** The line of the log that [run_coloring] writes for a node. *)
Definition node_line (coloring : gmap nat nat) (node : nat) : string :=
  "Node " +:+ str_nat node +:+ ": Color " +:+
  str_nat (default 0 (coloring !! node)).

(** An application state on the graph without nodes. *)
Definition empty_app : GraphApp :=
  {| G := []; anim_alive := false; anim := None;
     current_coloring := None; clique_nodes := None;
     node_colors := default_colors; log := []; canvas := [] |}.

(** The path of three nodes, inserted in another order. *)
Definition path3_rev : Graph := [(2, [1]); (1, [2; 0]); (0, [1])].

(** * Proofs *)

(** ** The outcome monad and the loops *)

Lemma bind_Ok {A B} (r : result A) (k : A → result B) (b : B) :
  r ≫= k = Ok b ↔ ∃ a, r = Ok a ∧ k a = Ok b.
Proof.
  destruct r as [a|e|]; simpl; split.
  - eauto.
  - by intros (a' & [= <-] & ?).
  - done.
  - by intros (? & ? & _).
  - done.
  - by intros (? & ? & _).
Qed.

Lemma bind_Ok_l {A B} (a : A) (k : A → result B) : Ok a ≫= k = k a.
Proof. done. Qed.

Lemma bind_Ok_r {A} (r : result A) : r ≫= Ok = r.
Proof. by destruct r. Qed.

Lemma bind_assoc {A B C} (r : result A) (f : A → result B) (g : B → result C) :
  (r ≫= f) ≫= g = r ≫= (λ a, f a ≫= g).
Proof. by destruct r. Qed.

Lemma for_each_singleton {A S} (body : A → S → result S) a st :
  for_each body [a] st = body a st.
Proof. simpl. apply bind_Ok_r. Qed.

Lemma for_each_cons {A S} (body : A → S → result S) a l st :
  for_each body (a :: l) st = body a st ≫= for_each body l.
Proof. done. Qed.

Lemma for_each_app {A S} (body : A → S → result S) l1 l2 st :
  for_each body (l1 ++ l2) st = for_each body l1 st ≫= for_each body l2.
Proof.
  revert st. induction l1 as [|a l1 IH]; intros st; simpl; [done|].
  destruct (body a st); simpl; auto.
Qed.

(** A loop invariant rule for [for_each]: [P] is indexed by the elements
    already processed. *)
Lemma for_each_inv {A S} (P : list A → S → Prop) (body : A → S → result S)
    (l : list A) (st : S) :
  P [] st →
  (∀ done a rest st, l = done ++ a :: rest → P done st →
     ∃ st', body a st = Ok st' ∧ P (done ++ [a]) st') →
  ∃ st', for_each body l st = Ok st' ∧ P l st'.
Proof.
  intros H0 Hstep.
  cut (∀ rest done st, l = done ++ rest → P done st →
         ∃ st', for_each body rest st = Ok st' ∧ P l st').
  { intros Hcut. apply (Hcut l [] st); auto. }
  clear H0 st. intros rest. induction rest as [|a rest IH]; intros done st El HP.
  - simpl. exists st. split; [done|]. rewrite El, app_nil_r. done.
  - simpl. destruct (Hstep done a rest st El HP) as (st' & Hb & HP').
    rewrite Hb. simpl. apply (IH (done ++ [a])); [|done].
    rewrite <- app_assoc. done.
Qed.

(** The rule for a loop that may return early: [P] holds while the loop
    goes on, [Q] when the body returns out of the function. *)
Lemma for_until_inv {A S} (P : list A → S → Prop) (Q : Prop)
    (body : A → S → result (bool * S)) (l : list A) (st : S) :
  P [] st →
  (∀ done a rest st, l = done ++ a :: rest → P done st →
     ∃ b st', body a st = Ok (b, st') ∧
              if b : bool then Q else P (done ++ [a]) st') →
  ∃ b st', for_until body l st = Ok (b, st') ∧ if b : bool then Q else P l st'.
Proof.
  intros H0 Hstep.
  cut (∀ rest done st, l = done ++ rest → P done st →
         ∃ b st', for_until body rest st = Ok (b, st') ∧
                  if b : bool then Q else P l st').
  { intros Hcut. apply (Hcut l [] st); auto. }
  clear H0 st. intros rest. induction rest as [|a rest IH]; intros done st El HP.
  - simpl. exists false, st. split; [done|]. rewrite El, app_nil_r. done.
  - simpl. destruct (Hstep done a rest st El HP) as (b & st' & Hb & HP').
    rewrite Hb. simpl. destruct b.
    + exists true, st'. done.
    + apply (IH (done ++ [a])); [|done]. rewrite <- app_assoc. done.
Qed.

(** ** Lists of pairs with distinct first components *)

Lemma NoDup_fst_unique {A B} (l : list (A * B)) x y1 y2 :
  NoDup l.*1 → (x, y1) ∈ l → (x, y2) ∈ l → y1 = y2.
Proof.
  induction l as [|[a b] l IH]; simpl; intros Hnd H1 H2.
  - by apply elem_of_nil in H1.
  - apply NoDup_cons in Hnd as [Ha Hnd].
    apply elem_of_cons in H1 as [[= -> ->]|H1], H2 as [[= ->]|H2]; auto.
    + destruct Ha. apply list_elem_of_fmap. by exists (a, y2).
    + subst. destruct Ha. apply list_elem_of_fmap. by exists (a, y1).
Qed.

(** ** Sorting *)

Lemma sorted_perm l : sorted l ≡ₚ l.
Proof. apply merge_sort_Permutation. Qed.

Lemma sorted_Sorted l : Sorted (≤) (sorted l).
Proof. apply (Sorted_merge_sort (≤)). Qed.

Lemma sorted_elem_of l x : x ∈ sorted l ↔ x ∈ l.
Proof. by rewrite sorted_perm. Qed.

Lemma sorted_NoDup l : NoDup l → NoDup (sorted l).
Proof. by rewrite sorted_perm. Qed.

(** The sorted list depends on the elements only, not on their order. *)
Lemma sorted_ext l l' : l ≡ₚ l' → sorted l = sorted l'.
Proof.
  intros Hp. apply (Sorted_unique (≤)); try apply sorted_Sorted.
  by rewrite !sorted_perm.
Qed.

(** ** The adjacency dictionary *)

Lemma neighbors_Ok G n ns : neighbors G n = Ok ns → (n, ns) ∈ G.
Proof.
  induction G as [|[m ms] G IH]; simpl; [done|].
  case_decide; intros Hn.
  - inversion Hn; subst. left.
  - right. auto.
Qed.

Lemma neighbors_node G n ns : neighbors G n = Ok ns → n ∈ nodes G.
Proof.
  intros H%neighbors_Ok. unfold nodes. apply list_elem_of_fmap.
  by exists (n, ns).
Qed.

Lemma neighbors_is_Ok G n : n ∈ nodes G → ∃ ns, neighbors G n = Ok ns.
Proof.
  unfold nodes. induction G as [|[m ms] G IH]; simpl.
  - intros H. by apply elem_of_nil in H.
  - intros H. case_decide; [eauto|].
    apply elem_of_cons in H as [->|H]; [done|auto].
Qed.

Lemma neighbors_not_node G n : n ∉ nodes G → neighbors G n = Raise NetworkXError.
Proof.
  unfold nodes. induction G as [|[m ms] G IH]; simpl; [done|].
  intros H. apply not_elem_of_cons in H as [? ?]. case_decide; [congruence|auto].
Qed.

Lemma neighbors_cases G n :
  (∃ ns, neighbors G n = Ok ns ∧ n ∈ nodes G) ∨
  (neighbors G n = Raise NetworkXError ∧ n ∉ nodes G).
Proof.
  destruct (decide (n ∈ nodes G)) as [Hin|Hnin].
  - left. destruct (neighbors_is_Ok _ _ Hin); eauto.
  - right. split; [by apply neighbors_not_node|done].
Qed.

Lemma adj_node_l G u v : adj G u v → u ∈ nodes G.
Proof. intros (ns & H & _). by eapply neighbors_node. Qed.

Lemma adjb_spec G u v : adjb G u v = true ↔ adj G u v.
Proof.
  unfold adjb, adj. destruct (neighbors G u) as [ns| |]; split.
  - intros H%bool_decide_eq_true. eauto.
  - intros (ns' & [= <-] & H). by apply bool_decide_eq_true.
  - done.
  - by intros (? & ? & _).
  - done.
  - by intros (? & ? & _).
Qed.

Lemma simple_graphb_spec G : simple_graphb G = true → simple_graph G.
Proof.
  unfold simple_graphb. intros [Hnd Hall]%andb_true_iff.
  apply bool_decide_eq_true in Hnd.
  rewrite forallb_forall in Hall.
  assert (Hent : ∀ n ns, neighbors G n = Ok ns →
            NoDup ns ∧ ∀ v, v ∈ ns → v ∈ nodes G ∧ adj G v n ∧ v ≠ n).
  { intros n ns Hn%neighbors_Ok%list_elem_of_In.
    apply Hall in Hn. simpl in Hn.
    apply andb_true_iff in Hn as [H1 H2]. apply bool_decide_eq_true in H1.
    split; [done|]. intros v Hv%list_elem_of_In.
    rewrite forallb_forall in H2. apply H2 in Hv.
    apply andb_true_iff in Hv as [Hv H5].
    apply andb_true_iff in Hv as [H3 H4].
    apply bool_decide_eq_true in H3. apply adjb_spec in H4.
    apply negb_true_iff, bool_decide_eq_false in H5. done. }
  split.
  - done.
  - intros n ns H. by apply Hent in H as [? _].
  - intros u v (ns & H & Hv). apply Hent in H as [_ H]. by apply H in Hv as (? & _).
  - intros u v (ns & H & Hv). apply Hent in H as [_ H]. by apply H in Hv as (? & ? & _).
  - intros u (ns & H & Hv). apply Hent in H as [_ H]. by apply H in Hv as (? & ? & ?).
Qed.

Lemma same_graph_length G G' : same_graph G G' → length G = length G'.
Proof.
  intros [Hp _]. apply Permutation_length in Hp. unfold nodes in Hp.
  by rewrite !length_fmap in Hp.
Qed.

Lemma same_graph_neighbors G G' n (k : list nat → result (list (nat * nat))) :
  same_graph G G' →
  (neighbors G n ≫= λ ns, k (sorted ns)) = (neighbors G' n ≫= λ ns, k (sorted ns)).
Proof.
  intros [Hp Hn]. destruct (neighbors_cases G n) as [(ns & H & Hin)|[H Hnin]].
  - destruct (Hn _ _ H) as (ns' & H' & Hperm). rewrite H, H'. simpl.
    f_equal. by apply sorted_ext.
  - rewrite H, neighbors_not_node; [done|]. by rewrite <- Hp.
Qed.

(** ** Walks *)

Lemma walk_node_r G s v k : simple_graph G → walk G s v k → v ∈ nodes G.
Proof. intros HG. destruct 1; [done|]. by eapply sg_closed. Qed.

(** ** Breadth-first traversal *)

Lemma filter_ext_elem {A} (P Q : A → Prop) `{!∀ x, Decision (P x)}
    `{!∀ x, Decision (Q x)} (l : list A) :
  (∀ x, x ∈ l → P x ↔ Q x) → filter P l = filter Q l.
Proof.
  induction l as [|a l IH]; intros Hext; [done|].
  rewrite !filter_cons.
  rewrite IH by (intros x Hx; apply Hext; by right).
  destruct (decide (P a)) as [Hp|Hp], (decide (Q a)) as [Hq|Hq]; try done.
  - apply Hext in Hp; [done|left].
  - apply Hext in Hq; [done|left].
Qed.

(** The [for neighbor in sorted(...)] loop of one iteration: the
    neighbours not yet visited are marked and enqueued, in order. *)
Lemma bfs_fold d ns (V : gset nat) (Q : list (nat * nat)) :
  NoDup ns →
  foldl (λ acc nb, bfs_visit d nb acc) (V, Q) ns =
  (list_to_set ns ∪ V,
   Q ++ ((λ w, (w, d + 1)) <$> filter (λ w, w ∉ V) ns)).
Proof.
  intros Hnd. revert V Q. induction Hnd as [|a ns Ha Hnd IH]; intros V Q.
  - simpl. f_equal; [set_solver|by rewrite app_nil_r].
  - simpl. unfold bfs_visit at 2. simpl. case_decide as Hin.
    + rewrite IH. rewrite filter_cons_False by (intros ?; done).
      f_equal. set_solver.
    + rewrite IH. rewrite filter_cons_True by done.
      rewrite fmap_cons, <- app_assoc. simpl.
      f_equal; [set_solver|]. do 3 f_equal.
      apply filter_ext_elem. intros x Hx. set_solver.
Qed.

Lemma first_adjacent_app G L new v a :
  first_adjacent G L v a → first_adjacent G (L ++ new) v a.
Proof.
  intros (p & Hp & Hadj & Hfirst). exists p.
  assert (a < length L) by (by eapply lookup_lt_Some).
  split_and!; [by rewrite lookup_app_l|done|].
  intros j y Hj Hy. rewrite lookup_app_l in Hy by lia. eauto.
Qed.

Lemma first_adjacent_unique G L v a b :
  first_adjacent G L v a → first_adjacent G L v b → a = b.
Proof.
  intros (p & Hp & Hadj & Hfirst) (q & Hq & Hadj' & Hfirst').
  destruct (lt_eq_lt_dec a b) as [[Hlt|Heq]|Hgt]; [|done|].
  - destruct (Hfirst' a p Hlt Hp Hadj).
  - destruct (Hfirst b q Hgt Hq Hadj').
Qed.

(** A sorted list without repetition is strictly ascending, and so are its
    filtered parts. *)
Lemma sorted_strict l : NoDup l → StronglySorted (<) (sorted l).
Proof.
  intros Hnd%sorted_NoDup.
  pose proof (sorted_Sorted l) as Hs. apply Sorted_StronglySorted in Hs; [|apply _].
  induction Hs as [|x k Hk IH Hall]; [constructor|].
  apply NoDup_cons in Hnd as [Hx Hnd]. constructor; [auto|].
  rewrite Forall_forall in Hall |- *. intros y Hy.
  specialize (Hall y Hy). assert (x ≠ y) by (by intros ->). lia.
Qed.

Lemma StronglySorted_filter (P : nat → Prop) `{!∀ x, Decision (P x)} l :
  StronglySorted (<) l → StronglySorted (<) (filter P l).
Proof.
  induction 1 as [|x k Hk IH Hall]; [constructor|].
  rewrite filter_cons. destruct (decide (P x)); [|done].
  constructor; [done|]. rewrite Forall_forall in Hall |- *.
  intros y [_ Hy]%list_elem_of_filter. auto.
Qed.

Lemma StronglySorted_lookup_lt (l : list nat) i j v w :
  StronglySorted (<) l → i < j → l !! i = Some v → l !! j = Some w → v < w.
Proof.
  intros Hs. revert i j. induction Hs as [|x k Hk IH Hall]; intros i j Hij Hv Hw.
  - done.
  - destruct j as [|j]; [lia|]. simpl in Hw. destruct i as [|i].
    + injection Hv as <-. rewrite Forall_forall in Hall.
      apply Hall. by eapply list_elem_of_lookup_2.
    + simpl in Hv. apply (IH i j); [lia|done..].
Qed.

Section bfs.
Context (G : Graph) (s : nat) (HG : simple_graph G).

Lemma bfs_inv_init : s ∈ nodes G → bfs_inv G s {[s]} [(s, 0)] [].
Proof.
  intros Hs. split; simpl.
  - apply NoDup_singleton.
  - intros v. set_solver.
  - intros v d [= -> ->]%list_elem_of_singleton. by constructor.
  - repeat constructor.
  - intros u d q [= <- <- <-] x ->%list_elem_of_singleton. lia.
  - intros u d w H. by apply elem_of_nil in H.
  - done.
Qed.

Lemma bfs_inv_step V u d Q O ns :
  bfs_inv G s V ((u, d) :: Q) O →
  neighbors G u = Ok ns →
  bfs_inv G s (list_to_set (sorted ns) ∪ V)
          (Q ++ ((λ w, (w, d + 1)) <$> filter (λ w, w ∉ V) (sorted ns)))
          (O ++ [(u, d)]).
Proof.
  intros [Hnd Hvis Hwalk Hsort Hfront Hclosed Hhead] Hns.
  set (new := filter (λ w, w ∉ V) (sorted ns)).
  assert (Happ : ∀ X : list (nat * nat),
            (O ++ [(u, d)]) ++ Q ++ X = (O ++ (u, d) :: Q) ++ X).
  { intros X. by rewrite <- !app_assoc. }
  assert (Hnew1 : ((λ w, (w, d + 1)) <$> new).*1 = new).
  { rewrite <- list_fmap_compose. apply list_fmap_id. }
  assert (Hnew2 : ∀ x, x ∈ ((λ w : nat, (w, d + 1)) <$> new).*2 → x = d + 1).
  { intros x. rewrite <- list_fmap_compose.
    intros (w & -> & _)%list_elem_of_fmap. done. }
  assert (Hud : (u, d) ∈ O ++ (u, d) :: Q).
  { apply elem_of_app. right. left. }
  assert (HO : ∀ x, x ∈ O.*2 → x ≤ d).
  { intros x Hx. rewrite fmap_app in Hsort.
    eapply StronglySorted_app_1_elem_of; [done..|]. simpl. left. }
  assert (HQ : ∀ x, x ∈ ((u, d) :: Q).*2 → x ≤ d + 1).
  { by eapply Hfront. }
  assert (HQd : ∀ x, x ∈ Q.*2 → d ≤ x).
  { intros x Hx. rewrite fmap_app in Hsort.
    apply StronglySorted_app_1_r in Hsort. simpl in Hsort.
    apply StronglySorted_cons in Hsort as [Hall _].
    rewrite Forall_forall in Hall. auto. }
  split.
  - rewrite Happ, fmap_app, Hnew1. apply NoDup_app. split; [done|].
    split.
    + intros x Hx%Hvis. unfold new. rewrite list_elem_of_filter. tauto.
    + unfold new. apply NoDup_filter, sorted_NoDup. by eapply sg_nodup.
  - intros v. rewrite Happ, fmap_app, Hnew1, elem_of_app.
    rewrite elem_of_union, elem_of_list_to_set, Hvis.
    unfold new. rewrite list_elem_of_filter, Hvis.
    destruct (decide (v ∈ (O ++ (u, d) :: Q).*1)); tauto.
  - intros v d'. rewrite Happ, elem_of_app. intros [H|H]; [auto|].
    apply list_elem_of_fmap in H as (w & [= -> ->] & Hw).
    unfold new in Hw. apply list_elem_of_filter in Hw as [_ Hw].
    apply (proj1 (sorted_elem_of _ _)) in Hw. rewrite Nat.add_1_r.
    apply walk_step with u; [auto|]. by exists ns.
  - rewrite Happ, fmap_app. apply StronglySorted_app_2; [|done|].
    + intros x1 x2 Hx1 ->%Hnew2. rewrite fmap_app in Hx1.
      apply elem_of_app in Hx1 as [Hx1|Hx1]; [apply HO in Hx1; lia|auto].
    + generalize Hnew2. generalize (((λ w : nat, (w, d + 1)) <$> new).*2).
      intros l. induction l as [|a l IH]; intros Hl; constructor.
      * apply IH. intros x Hx. apply Hl. by right.
      * apply Forall_forall. intros x Hx.
        rewrite (Hl a) by left. rewrite (Hl x) by (by right). done.
  - intros u' d' q Eq x Hx.
    assert (d ≤ d').
    { assert (Hd' : d' ∈ (Q ++ ((λ w : nat, (w, d + 1)) <$> new)).*2).
      { rewrite Eq. simpl. left. }
      rewrite fmap_app in Hd'. apply elem_of_app in Hd' as [Hd'|Hd'].
      - auto.
      - apply Hnew2 in Hd'. lia. }
    rewrite fmap_app in Hx. apply elem_of_app in Hx as [Hx|Hx].
    + assert (x ≤ d + 1) by (apply HQ; simpl; by right). lia.
    + apply Hnew2 in Hx. lia.
  - intros u' d' w Hu' Hadj. rewrite Happ.
    apply elem_of_app in Hu' as [Hu'|Hu'].
    + destruct (Hclosed _ _ _ Hu' Hadj) as (d'' & Hin & Hle).
      exists d''. split; [|done]. apply elem_of_app. by left.
    + apply list_elem_of_singleton in Hu' as [= -> ->].
      destruct Hadj as (ns' & Hns' & Hw). rewrite Hns in Hns'.
      injection Hns' as <-.
      destruct (decide (w ∈ V)) as [HwV|HwV].
      * apply Hvis in HwV. apply list_elem_of_fmap in HwV as ([w' d''] & -> & Hin).
        simpl. exists d''. split; [apply elem_of_app; by left|].
        apply elem_of_app in Hin as [Hin|Hin].
        -- assert (d'' ≤ d); [|lia]. apply HO.
           apply list_elem_of_fmap. by exists (w', d'').
        -- apply HQ. apply list_elem_of_fmap. by exists (w', d'').
      * exists (d + 1). split; [|done]. apply elem_of_app. right.
        apply list_elem_of_fmap. exists w. split; [done|].
        unfold new. apply list_elem_of_filter. split; [done|].
        by apply sorted_elem_of.
  - rewrite Happ. rewrite head_app. by rewrite Hhead.
Qed.

Lemma bfs_inv_length V Q O : bfs_inv G s V Q O → length O + length Q ≤ length G.
Proof.
  intros H. rewrite <- length_app, <- (length_fmap fst (O ++ Q)).
  replace (length G) with (length (nodes G)) by apply length_fmap.
  apply submseteq_length, NoDup_submseteq; [apply H|].
  intros v ([v' d] & -> & Hin)%list_elem_of_fmap. simpl.
  eapply walk_node_r; [done|]. eapply bi_walk; done.
Qed.

(** The order of discovery. *)
Lemma bfs_ord_init : bfs_ord G [(s, 0)] [].
Proof.
  split; simpl.
  - intros [|i] v Hi Hv; [lia|done].
  - intros i [|[|j]] v w a b Hi Hij Hv Hw; [lia|lia|done].
Qed.

Lemma bfs_ord_step V u d Q O ns :
  bfs_inv G s V ((u, d) :: Q) O → bfs_ord G ((u, d) :: Q) O →
  neighbors G u = Ok ns →
  bfs_ord G (Q ++ ((λ w, (w, d + 1)) <$> filter (λ w, w ∉ V) (sorted ns)))
            (O ++ [(u, d)]).
Proof.
  intros Hinv [Hpar Hord] Hns. unfold bfs_ord.
  set (new := filter (λ w, w ∉ V) (sorted ns)).
  set (L := (O ++ (u, d) :: Q).*1) in *.
  assert (EL : ((O ++ [(u, d)]) ++ Q ++ ((λ w, (w, d + 1)) <$> new)).*1
               = L ++ new).
  { unfold L. rewrite !fmap_app. simpl. rewrite <- !app_assoc. simpl.
    do 3 f_equal. rewrite <- list_fmap_compose. apply list_fmap_id. }
  rewrite EL. clear EL. cbv zeta.
  assert (HlenO : length (O ++ [(u, d)]) = S (length O)).
  { rewrite length_app. simpl. lia. }
  rewrite HlenO.
  assert (Hu : L !! length O = Some u).
  { unfold L. rewrite fmap_app, lookup_app_r by (by rewrite length_fmap).
    rewrite length_fmap, Nat.sub_diag. done. }
  assert (HlenL : length O < length L) by (by eapply lookup_lt_Some).
  assert (Hnew : ∀ w, w ∈ new → first_adjacent G (L ++ new) w (length O)).
  { intros w [HwV Hw]%list_elem_of_filter.
    apply (proj1 (sorted_elem_of _ _)) in Hw. exists u.
    split_and!.
    - by rewrite lookup_app_l.
    - by exists ns.
    - intros j y Hj Hy Hadj. apply HwV.
      rewrite lookup_app_l in Hy by lia.
      unfold L in Hy. rewrite fmap_app, lookup_app_l in Hy
        by (by rewrite length_fmap).
      apply list_lookup_fmap_Some in Hy as ([y' dy] & -> & Hy).
      apply list_elem_of_lookup_2 in Hy. simpl in Hadj.
      destruct (bi_closed _ _ _ _ _ Hinv _ _ _ Hy Hadj) as (d' & Hin & _).
      apply (bi_visited _ _ _ _ _ Hinv), list_elem_of_fmap.
      by exists (w, d'). }
  assert (Hnewlt : ∀ i j v w, i < j → new !! i = Some v → new !! j = Some w →
                     v < w).
  { assert (Hss : StronglySorted (<) new).
    { apply StronglySorted_filter, sorted_strict. by eapply sg_nodup. }
    intros i j v w. by apply StronglySorted_lookup_lt. }
  assert (Hold : ∀ i v, 0 < i → i < length L → (L ++ new) !! i = Some v →
            ∃ a, first_adjacent G (L ++ new) v a ∧ a < length O ∧ a < i).
  { intros i v Hi Hlt Hv. rewrite lookup_app_l in Hv by done.
    destruct (Hpar i v Hi Hv) as (a & Ha & HaO & Hai).
    exists a. split_and!; [|done..]. by apply first_adjacent_app. }
  split.
  - intros i v Hi Hv. destruct (decide (i < length L)) as [Hlt|Hge].
    + destruct (Hold i v Hi Hlt Hv) as (a & Ha & HaO & Hai).
      exists a. split_and!; [done|lia|done].
    + rewrite lookup_app_r in Hv by lia.
      exists (length O). split_and!; [|lia..].
      apply Hnew. by eapply list_elem_of_lookup_2.
  - intros i j v w a b Hi Hij Hv Hw Ha Hb.
    destruct (decide (j < length L)) as [Hjlt|Hjge].
    + destruct (Hold i v Hi ltac:(lia) Hv) as (a' & Ha' & _).
      destruct (Hold j w ltac:(lia) ltac:(lia) Hw) as (b' & Hb' & _).
      rewrite (first_adjacent_unique _ _ _ _ _ Ha Ha').
      rewrite (first_adjacent_unique _ _ _ _ _ Hb Hb').
      rewrite lookup_app_l in Hv, Hw by lia.
      apply (Hord i j v w); try done.
      * destruct (Hpar i v Hi Hv) as (a0 & Ha0 & _).
        by rewrite (first_adjacent_unique _ _ _ _ _ Ha'
                      (first_adjacent_app _ _ new _ _ Ha0)).
      * destruct (Hpar j w ltac:(lia) Hw) as (b0 & Hb0 & _).
        by rewrite (first_adjacent_unique _ _ _ _ _ Hb'
                      (first_adjacent_app _ _ new _ _ Hb0)).
    + rewrite lookup_app_r in Hw by lia.
      assert (b = length O) as ->.
      { apply (first_adjacent_unique _ _ _ _ _ Hb), Hnew.
        by eapply list_elem_of_lookup_2. }
      destruct (decide (i < length L)) as [Hilt|Hige].
      * destruct (Hold i v Hi Hilt Hv) as (a' & Ha' & HaO & _).
        rewrite (first_adjacent_unique _ _ _ _ _ Ha Ha'). by left.
      * rewrite lookup_app_r in Hv by lia.
        assert (a = length O) as ->.
        { apply (first_adjacent_unique _ _ _ _ _ Ha), Hnew.
          by eapply list_elem_of_lookup_2. }
        right. split; [done|].
        apply (Hnewlt (i - length L) (j - length L)); [lia|done..].
Qed.

(** The loop returns, with the invariants at an empty queue. *)
Lemma bfs_loop_spec fuel V Q O :
  bfs_inv G s V Q O → bfs_ord G Q O → length G < fuel + length O →
  ∃ V' R, bfs_loop fuel G (V, Q, O) = Ok R ∧
          bfs_inv G s V' [] R ∧ bfs_ord G [] R.
Proof.
  revert V Q O. induction fuel as [|fuel IH]; intros V Q O Hinv Hord Hfuel.
  - apply bfs_inv_length in Hinv. lia.
  - simpl. destruct Q as [|[u d] Q]; [by eauto|].
    assert (Hu : walk G s u d).
    { eapply bi_walk; [done|]. apply elem_of_app. right. left. }
    apply walk_node_r in Hu; [|done].
    destruct (neighbors_is_Ok _ _ Hu) as [ns Hns]. rewrite Hns. simpl.
    rewrite bfs_fold by (eapply sorted_NoDup, sg_nodup; done).
    apply IH.
    + by apply bfs_inv_step.
    + by eapply bfs_ord_step.
    + rewrite length_app. simpl. lia.
Qed.

(** What the invariant says of the final sequence. *)
Lemma bfs_final_below V R v k :
  bfs_inv G s V [] R → walk G s v k → ∃ d, (v, d) ∈ R ∧ d ≤ k.
Proof.
  intros Hinv. induction 1 as [Hs|v w k Hw (d & Hin & Hle) Hadj].
  - exists 0. split; [|done]. apply head_Some_elem_of.
    pose proof (bi_head _ _ _ _ _ Hinv) as Hh. by rewrite app_nil_r in Hh.
  - destruct (bi_closed _ _ _ _ _ Hinv _ _ _ Hin Hadj) as (d' & Hin' & Hle').
    rewrite app_nil_r in Hin'. exists d'. split; [done|lia].
Qed.

Lemma bfs_final_distance V R v d :
  bfs_inv G s V [] R → (v, d) ∈ R → distance G s v d.
Proof.
  intros Hinv Hin. split.
  - eapply bi_walk; [done|]. by rewrite app_nil_r.
  - intros k Hk. destruct (bfs_final_below _ _ _ _ Hinv Hk) as (d' & Hin' & Hle).
    pose proof (bi_nodup _ _ _ _ _ Hinv) as Hnd. rewrite app_nil_r in Hnd.
    assert (d' = d); [|lia].
    by eapply NoDup_fst_unique.
Qed.

Lemma bfs_final_reachable V R v :
  bfs_inv G s V [] R → v ∈ R.*1 ↔ reachable G s v.
Proof.
  intros Hinv. split.
  - intros ([v' d] & -> & Hin)%list_elem_of_fmap. exists d. simpl.
    eapply bi_walk; [done|]. by rewrite app_nil_r.
  - intros [k Hk].
    destruct (bfs_final_below _ _ _ _ Hinv Hk) as (d & Hin & _).
    apply list_elem_of_fmap. by exists (v, d).
Qed.

(** The traversal returns, with the invariants at an empty queue. *)
Lemma bfs_with_depth_inv :
  s ∈ nodes G →
  ∃ V R, bfs_with_depth G s = Ok R ∧ bfs_inv G s V [] R ∧ bfs_ord G [] R.
Proof.
  intros Hs. unfold bfs_with_depth. apply bfs_loop_spec.
  - by apply bfs_inv_init.
  - apply bfs_ord_init.
  - simpl. lia.
Qed.
End bfs.

Lemma bfs_loop_same_graph fuel G G' st :
  same_graph G G' → bfs_loop fuel G st = bfs_loop fuel G' st.
Proof.
  intros Hsame. revert st. induction fuel as [|fuel IH]; intros [[V Q] O]; [done|].
  simpl. destruct Q as [|[u d] Q]; [done|].
  pose proof (same_graph_neighbors G G' u
    (λ l, let '(visited', queue'') :=
            foldl (λ acc nb, bfs_visit d nb acc) (V, Q) l in
          bfs_loop fuel G (visited', queue'', O ++ [(u, d)])) Hsame) as E.
  simpl in E. rewrite E. destruct (neighbors G' u) as [ns| |]; simpl; [|done..].
  destruct (foldl _ _ _). apply IH.
Qed.

(** C1. For an undirected simple graph [G] and a node [s] of [G],
    [bfs_with_depth G s] returns a sequence [R] of (node, depth) pairs
    that starts with [(s, 0)], lists every node reachable from [s] exactly
    once and no other node, records for each node its shortest-path distance
    from [s], and has non-decreasing depths.  The neighbours are expanded in
    ascending order: every node after the start comes after the node it was
    discovered from (the first node of [R] adjacent to it), the nodes are in
    the order of the nodes they were discovered from, and the nodes
    discovered from the same node are in ascending order of identity; so the
    sequence is the same for every insertion order of the adjacency
    dictionary. *)
Theorem bfs_with_depth_correct (G : Graph) (s : nat) :
  simple_graph G → s ∈ nodes G →
  ∃ R, bfs_with_depth G s = Ok R ∧
       head R = Some (s, 0) ∧
       NoDup R.*1 ∧
       (∀ v, v ∈ R.*1 ↔ reachable G s v) ∧
       (∀ v d, (v, d) ∈ R → distance G s v d) ∧
       Sorted (≤) R.*2 ∧
       (∀ i v, 0 < i → R.*1 !! i = Some v →
          ∃ a, first_adjacent G R.*1 v a ∧ a < i) ∧
       (∀ i j v w a b, 0 < i → i < j →
          R.*1 !! i = Some v → R.*1 !! j = Some w →
          first_adjacent G R.*1 v a → first_adjacent G R.*1 w b →
          a < b ∨ (a = b ∧ v < w)) ∧
       (∀ G', same_graph G G' → bfs_with_depth G' s = Ok R).
Proof.
  intros HG Hs.
  destruct (bfs_with_depth_inv G s HG Hs) as (V & R & Hrun & Hinv & Hpar & Hord).
  exists R. split; [done|].
  pose proof (bi_head _ _ _ _ _ Hinv) as Hh.
  pose proof (bi_nodup _ _ _ _ _ Hinv) as Hnd.
  pose proof (bi_sorted _ _ _ _ _ Hinv) as Hso.
  rewrite app_nil_r in Hh, Hnd, Hso, Hpar, Hord.
  split_and!; [done|done| | | | |done|].
  - intros v. by eapply bfs_final_reachable.
  - intros v d. by eapply bfs_final_distance.
  - by apply StronglySorted_Sorted.
  - intros i v Hi Hv. destruct (Hpar i v Hi Hv) as (a & Ha & _ & Hai). eauto.
  - intros G' Hsame. unfold bfs_with_depth in *.
    rewrite <- (same_graph_length _ _ Hsame).
    by rewrite <- (bfs_loop_same_graph _ G G').
Qed.

Lemma bfs_with_depth_correct_witness :
  ∃ R, bfs_with_depth k3tail 0 = Ok R ∧
       head R = Some (0, 0) ∧
       NoDup R.*1 ∧
       (∀ v, v ∈ R.*1 ↔ reachable k3tail 0 v) ∧
       (∀ v d, (v, d) ∈ R → distance k3tail 0 v d) ∧
       Sorted (≤) R.*2 ∧
       (∀ i v, 0 < i → R.*1 !! i = Some v →
          ∃ a, first_adjacent k3tail R.*1 v a ∧ a < i) ∧
       (∀ i j v w a b, 0 < i → i < j →
          R.*1 !! i = Some v → R.*1 !! j = Some w →
          first_adjacent k3tail R.*1 v a → first_adjacent k3tail R.*1 w b →
          a < b ∨ (a = b ∧ v < w)) ∧
       (∀ G', same_graph k3tail G' → bfs_with_depth G' 0 = Ok R).
Proof.
  apply (bfs_with_depth_correct k3tail 0).
  - apply simple_graphb_spec. vm_compute. reflexivity.
  - unfold nodes. simpl. left.
Defined.

(** The traversal of the triangle with a tail, from node 0. *)
Example bfs_with_depth_k3tail :
  bfs_with_depth k3tail 0 = Ok [(0, 0); (1, 1); (2, 1); (3, 2)].
Proof. vm_compute. reflexivity. Qed.

(** ** Depth-first traversal *)

Lemma walk_prepend G u v w k : adj G u v → walk G v w k → walk G u w (S k).
Proof.
  intros Huv. induction 1 as [Hv|x y k Hw IH Hxy].
  - apply walk_step with u; [|done]. constructor. by eapply adj_node_l.
  - by apply walk_step with x.
Qed.

Lemma reachable_prepend G u v w : adj G u v → reachable G v w → reachable G u w.
Proof. intros Huv [k Hk]. exists (S k). by eapply walk_prepend. Qed.

(** Marking one more node of [l] leaves fewer unmarked ones. *)
Lemma unvisited_lt (V V' : gset nat) (l : list nat) v :
  V ⊆ V' → v ∈ V' → v ∉ V → v ∈ l →
  length (filter (λ x, x ∉ V') l) < length (filter (λ x, x ∉ V) l).
Proof.
  intros Hsub HvV' HvV. induction l as [|a l IH]; intros Hin.
  - by apply elem_of_nil in Hin.
  - assert (Hle : length (filter (λ x, x ∉ V') l) ≤ length (filter (λ x, x ∉ V) l)).
    { clear IH Hin. induction l as [|b l IH]; [done|].
      rewrite !filter_cons.
      destruct (decide (b ∉ V')), (decide (b ∉ V)); simpl; try lia.
      set_solver. }
    rewrite !filter_cons.
    apply elem_of_cons in Hin as [<-|Hin].
    + destruct (decide (v ∉ V')); [done|].
      destruct (decide (v ∉ V)); [simpl; lia|done].
    + specialize (IH Hin).
      destruct (decide (a ∉ V')), (decide (a ∉ V)); simpl; try lia.
      set_solver.
Qed.

Lemma sorted_prefix_lt done a rest ns :
  NoDup ns → sorted ns = done ++ a :: rest → ∀ x, x ∈ done → x < a.
Proof.
  intros Hnd E x Hx.
  pose proof (sorted_Sorted ns) as Hs. apply Sorted_StronglySorted in Hs; [|apply _].
  pose proof (sorted_NoDup _ Hnd) as Hnd'.
  rewrite E in Hs, Hnd'.
  assert (x ≤ a).
  { eapply StronglySorted_app_1_elem_of; [done..|left]. }
  apply NoDup_app in Hnd' as (_ & Hdis & _).
  assert (x ≠ a); [|lia].
  intros ->. apply (Hdis a); [done|left].
Qed.

Lemma StronglySorted_snoc_lt (l : list nat) a :
  StronglySorted (<) l → (∀ x, x ∈ l → x < a) → StronglySorted (<) (l ++ [a]).
Proof.
  intros Hl Ha. apply StronglySorted_app_2; [|done|repeat constructor].
  intros x1 x2 Hx1 ->%list_elem_of_singleton. auto.
Qed.

Section dfs.
Context (G : Graph) (HG : simple_graph G).

Lemma forest_nodes_snoc depth ts t :
  forest_nodes depth (ts ++ [t]) =
  forest_nodes depth ts ++ (preorder (S depth) t).*1.
Proof.
  unfold forest_nodes. rewrite fmap_app, join_app, fmap_app. simpl.
  by rewrite app_nil_r.
Qed.

Lemma dfs_rec_spec fuel : ∀ node depth (V : gset nat) (O : list (nat * nat)),
  (∀ v, v ∈ V ↔ v ∈ O.*1) → NoDup O.*1 → node ∉ V → node ∈ nodes G →
  length (filter (λ x, x ∉ V) (nodes G)) < fuel →
  ∃ V' t,
    dfs_rec fuel G node depth (V, O) = Ok (V', O ++ preorder depth t) ∧
    root t = node ∧ dfs_tree G t ∧
    (∀ v, v ∈ V' ↔ v ∈ V ∨ v ∈ (preorder depth t).*1) ∧
    NoDup (O ++ preorder depth t).*1 ∧
    (∀ w, w ∈ (preorder depth t).*1 → reachable G node w) ∧
    (∀ w x, w ∈ (preorder depth t).*1 → adj G w x → x ∈ V').
Proof.
  induction fuel as [|fuel IH]; intros node depth V O HV HO Hnode Hin Hfuel;
    [lia|].
  simpl. destruct (neighbors_is_Ok _ _ Hin) as [ns Hns]. rewrite Hns. simpl.
  pose proof (sg_nodup _ HG _ _ Hns) as Hnd.
  destruct (for_each_inv
    (λ done (st : dfs_state), ∃ ts,
       st.2 = O ++ (node, depth) :: mjoin (preorder (S depth) <$> ts) ∧
       (∀ v, v ∈ st.1 ↔ v ∈ V ∨ v = node ∨ v ∈ forest_nodes depth ts) ∧
       NoDup st.2.*1 ∧
       Forall (λ c, adj G node (root c) ∧ dfs_tree G c) ts ∧
       StronglySorted (<) (root <$> ts) ∧
       (∀ r, r ∈ root <$> ts → r ∈ done) ∧
       (∀ w, w ∈ done → w ∈ st.1) ∧
       (∀ w, w ∈ forest_nodes depth ts → reachable G node w) ∧
       (∀ w x, w ∈ forest_nodes depth ts → adj G w x → x ∈ st.1))
    (λ neighbor (st : dfs_state),
       if decide (neighbor ∈ st.1) then Ok st
       else dfs_rec fuel G neighbor (depth + 1) st)
    (sorted ns) ({[node]} ∪ V, O ++ [(node, depth)]))
    as ([V' O'] & Hrun & ts & HO' & HV' & HndO' & Hts & Hsorted & _ & Hdone & Hreach & Hclosed).
  - exists []. simpl. split_and!; try done.
    + intros v. unfold forest_nodes. simpl. set_solver.
    + rewrite fmap_app. simpl. apply NoDup_app. split; [done|]. split.
      * intros x Hx%HV ->%list_elem_of_singleton. done.
      * apply NoDup_singleton.
    + constructor.
    + intros w Hw. by apply elem_of_nil in Hw.
    + intros w Hw. by apply elem_of_nil in Hw.
    + intros w x Hw. by apply elem_of_nil in Hw.
  - intros done a rest [Vc Oc] E
      (ts & HOc & HVc & HndOc & Hts & Hsorted & Hroots & Hdone & Hreach & Hclosed).
    simpl in *. destruct (decide (a ∈ Vc)) as [Ha|Ha].
    + exists (Vc, Oc). split; [done|]. exists ts. simpl.
      split_and!; try done.
      * intros r Hr. apply elem_of_app. left. auto.
      * intros w [Hw| ->%list_elem_of_singleton]%elem_of_app; auto.
    + assert (Hadj : adj G node a).
      { exists ns. split; [done|]. apply sorted_elem_of. rewrite E.
        apply elem_of_app. right. left. }
      destruct (IH a (depth + 1) Vc Oc) as (V1 & t & Hrun & Hroot & Htree & HV1 & Hnd1 & Hreach1 & Hclosed1).
      * intros v. rewrite HVc, HOc. rewrite fmap_app, elem_of_app, HV.
        simpl. rewrite elem_of_cons. unfold forest_nodes. tauto.
      * done.
      * done.
      * by eapply sg_closed.
      * assert (length (filter (λ x, x ∉ Vc) (nodes G)) <
                length (filter (λ x, x ∉ V) (nodes G))); [|lia].
        apply unvisited_lt with node; try done.
        -- intros v Hv. apply HVc. by left.
        -- apply HVc. right. by left.
      * replace (depth + 1) with (S depth) in * by lia.
        exists (V1, Oc ++ preorder (S depth) t). split; [done|].
        exists (ts ++ [t]). simpl.
        assert (Hfresh : ∀ w, w ∈ (preorder (S depth) t).*1 → w ∉ Vc).
        { intros w Hw HwVc. rewrite fmap_app in Hnd1.
          apply NoDup_app in Hnd1 as (_ & Hdis & _).
          apply (Hdis w); [|done]. rewrite HOc.
          apply HVc in HwVc. rewrite fmap_app, elem_of_app. simpl.
          rewrite elem_of_cons. rewrite <- HV. unfold forest_nodes in HwVc.
          tauto. }
        split_and!.
        -- rewrite HOc. rewrite fmap_app, join_app. simpl.
           rewrite app_nil_r. by rewrite <- app_assoc.
        -- intros v. rewrite HV1, HVc, forest_nodes_snoc, elem_of_app. tauto.
        -- done.
        -- apply Forall_app. split; [done|]. constructor; [|constructor].
           by rewrite Hroot.
        -- rewrite fmap_app. simpl. apply StronglySorted_snoc_lt; [done|].
           rewrite Hroot. intros x Hx%Hroots.
           eapply sorted_prefix_lt; [exact Hnd|exact E|done].
        -- intros r. rewrite fmap_app, !elem_of_app. simpl.
           rewrite !list_elem_of_singleton. intros [Hr| ->]; auto.
        -- intros w [Hw| ->%list_elem_of_singleton]%elem_of_app.
           ++ apply HV1. left. auto.
           ++ apply HV1. right. destruct t as [v cs]. simpl in *. subst v. left.
        -- intros w. rewrite forest_nodes_snoc, elem_of_app. intros [Hw|Hw]; [auto|].
           apply reachable_prepend with a; auto.
        -- intros w x. rewrite forest_nodes_snoc, elem_of_app.
           intros [Hw|Hw] Hwx.
           ++ apply HV1. left. eauto.
           ++ eauto.
  - exists V', (Node node ts). simpl in HO', HV', HndO', Hdone, Hclosed.
    simpl. fold (forest_nodes depth ts).
    split_and!.
    + rewrite HO' in Hrun. exact Hrun.
    + done.
    + by constructor.
    + intros v. rewrite HV'. rewrite elem_of_cons. tauto.
    + by rewrite <- HO'.
    + intros w [-> |Hw]%elem_of_cons; [|auto]. exists 0. by constructor.
    + intros w x [-> |Hw]%elem_of_cons Hwx; [|eauto].
      destruct Hwx as (ns' & Hns' & Hx). rewrite Hns in Hns'.
      injection Hns' as <-. apply Hdone. by apply sorted_elem_of.
Qed.
End dfs.

Lemma dfs_rec_same_graph fuel G G' node depth st :
  same_graph G G' → dfs_rec fuel G node depth st = dfs_rec fuel G' node depth st.
Proof.
  intros Hsame. revert node depth st.
  induction fuel as [|fuel IH]; intros node depth st; [done|].
  simpl.
  assert (E : ∀ l st1,
    for_each (λ neighbor (st0 : dfs_state),
                if decide (neighbor ∈ st0.1) then Ok st0
                else dfs_rec fuel G neighbor (depth + 1) st0) l st1 =
    for_each (λ neighbor (st0 : dfs_state),
                if decide (neighbor ∈ st0.1) then Ok st0
                else dfs_rec fuel G' neighbor (depth + 1) st0) l st1).
  { induction l as [|a l IHl]; intros st1; [done|]. simpl.
    rewrite IH. destruct (decide _); simpl; [apply IHl|].
    destruct (dfs_rec _ _ _ _ _); simpl; auto. }
  destruct Hsame as [Hp Hn].
  destruct (neighbors_cases G node) as [(ns & H & Hin)|[H Hnin]].
  - destruct (Hn _ _ H) as (ns' & H' & Hperm). rewrite H, H'. simpl.
    rewrite (sorted_ext _ _ Hperm). apply E.
  - rewrite H, neighbors_not_node; [done|]. by rewrite <- Hp.
Qed.

(** C7. For an undirected simple graph [G] and a node [s] of [G],
    [dfs_with_depth G s] returns the pre-order listing [R] of a discovery
    tree of [G] rooted at [s], every child a neighbour of its parent and the
    children in ascending order of identity, each node with its depth in
    that tree (the depth of the recursion when it was discovered); [R] lists
    every node reachable from [s] exactly once and no other node, its set of
    nodes is the set of nodes of [bfs_with_depth G s], and [R] is the same
    for every insertion order of the adjacency dictionary. *)
Theorem dfs_with_depth_correct (G : Graph) (s : nat) :
  simple_graph G → s ∈ nodes G →
  ∃ R t Rb,
    dfs_with_depth G s = Ok R ∧
    R = preorder 0 t ∧ root t = s ∧ dfs_tree G t ∧
    NoDup R.*1 ∧
    (∀ v, v ∈ R.*1 ↔ reachable G s v) ∧
    bfs_with_depth G s = Ok Rb ∧
    list_to_set R.*1 =@{gset nat} list_to_set Rb.*1 ∧
    (∀ G', same_graph G G' → dfs_with_depth G' s = Ok R).
Proof.
  intros HG Hs.
  destruct (dfs_rec_spec G HG (S (length G)) s 0 ∅ [])
    as (V' & t & Hrun & Hroot & Htree & HV' & Hnd & Hreach & Hclosed);
    try done.
  { intros v. simpl. set_solver. }
  { constructor. }
  { apply Nat.lt_succ_r. etrans; [apply length_filter|].
    unfold nodes. by rewrite length_fmap. }
  simpl in HV', Hnd.
  destruct (bfs_with_depth_inv G s HG Hs) as (Vb & Rb & Hbfs & Hbinv & _).
  pose proof (λ v, bfs_final_reachable G s Vb Rb v Hbinv) as Hbreach.
  assert (Hiff : ∀ v, v ∈ (preorder 0 t).*1 ↔ reachable G s v).
  { intros v. split; [auto|]. intros [k Hk].
    induction Hk as [_|v w k Hw IH Hvw].
    - destruct t as [r cs]. simpl in *. subst r. left.
    - specialize (Hclosed _ _ IH Hvw). apply HV' in Hclosed. set_solver. }
  exists (preorder 0 t), t, Rb. unfold dfs_with_depth.
  split_and!; try done.
  - by rewrite Hrun.
  - apply set_eq. intros v. rewrite !elem_of_list_to_set, Hiff, Hbreach. done.
  - intros G' Hsame. rewrite <- (same_graph_length _ _ Hsame).
    rewrite <- (dfs_rec_same_graph _ G G') by done. by rewrite Hrun.
Qed.

Lemma dfs_with_depth_correct_witness :
  ∃ R t Rb,
    dfs_with_depth k3tail 0 = Ok R ∧
    R = preorder 0 t ∧ root t = 0 ∧ dfs_tree k3tail t ∧
    NoDup R.*1 ∧
    (∀ v, v ∈ R.*1 ↔ reachable k3tail 0 v) ∧
    bfs_with_depth k3tail 0 = Ok Rb ∧
    list_to_set R.*1 =@{gset nat} list_to_set Rb.*1 ∧
    (∀ G', same_graph k3tail G' → dfs_with_depth G' 0 = Ok R).
Proof.
  apply (dfs_with_depth_correct k3tail 0).
  - apply simple_graphb_spec. vm_compute. reflexivity.
  - unfold nodes. simpl. left.
Defined.

(** ** Greedy colouring *)

Lemma size_list_to_set_le `{Countable A} (l : list A) :
  size (list_to_set l : gset A) ≤ length l.
Proof.
  induction l as [|a l IH].
  - rewrite list_to_set_nil, size_empty. done.
  - rewrite list_to_set_cons, size_union_alt, size_singleton. simpl.
    assert (size (list_to_set l ∖ {[a]} : gset A) ≤ size (list_to_set l : gset A)).
    { apply subseteq_size. set_solver. }
    lia.
Qed.

(** A set that holds [Some 0 .. Some (n-1)] has at least [n] elements. *)
Lemma size_below (cols : gset (option nat)) (n : nat) :
  (∀ c, c < n → Some c ∈ cols) → n ≤ size cols.
Proof.
  intros Hb.
  assert (Hsub : (list_to_set (Some <$> seq 0 n) : gset (option nat)) ⊆ cols).
  { intros x [c [-> Hc%elem_of_seq]]%elem_of_list_to_set%list_elem_of_fmap.
    apply Hb. lia. }
  apply subseteq_size in Hsub. rewrite size_list_to_set in Hsub.
  - by rewrite length_fmap, length_seq in Hsub.
  - apply NoDup_fmap; [apply _|apply NoDup_seq].
Qed.

(** A finite set of naturals that is closed downwards is an initial
    segment. *)
Lemma down_closed_range (X : gset nat) :
  (∀ c c', c ∈ X → c' < c → c' ∈ X) → X = list_to_set (seq 0 (size X)).
Proof.
  intros Hdown.
  destruct (decide (elements X = [])) as [Hemp|Hne].
  - apply elements_empty_inv in Hemp. apply leibniz_equiv in Hemp.
    subst X. by rewrite size_empty.
  - pose proof (max_list_elem_of _ Hne) as Hmax.
    set (mx := max_list (elements X)) in *.
    assert (HX : X = list_to_set (seq 0 (S mx))).
    { apply set_eq. intros c. rewrite elem_of_list_to_set, elem_of_seq. split.
      - intros Hc%elem_of_elements%max_list_elem_of_le. fold mx in Hc. lia.
      - intros [_ Hc]. apply elem_of_elements in Hmax.
        destruct (decide (c = mx)) as [->|]; [done|].
        apply (Hdown mx); [done|lia]. }
    assert (Hsize : size X = S mx).
    { rewrite HX at 1. rewrite size_list_to_set by apply NoDup_seq.
      apply length_seq. }
    by rewrite Hsize.
Qed.

(** The [while] loop returns the least colour that is not in the set. *)
Lemma first_free_spec (fuel color : nat) (cols : gset (option nat)) :
  (∀ c, c < color → Some c ∈ cols) → size cols < fuel + color →
  ∃ c, first_free fuel color cols = Ok c ∧
       (Some c ∉ cols) ∧ (∀ c', c' < c → Some c' ∈ cols) ∧ c ≤ size cols.
Proof.
  revert color. induction fuel as [|fuel IH]; intros color Hb Hfuel.
  - apply size_below in Hb. lia.
  - simpl. case_decide as Hc.
    + apply IH.
      * intros c Hlt. destruct (decide (c = color)) as [->|]; [done|].
        apply Hb. lia.
      * lia.
    + exists color. split_and!; [done..|]. by apply size_below.
Qed.

Section greedy.
Context (G : Graph) (HG : simple_graph G).

Lemma greedy_loop_spec :
  ∃ m, greedy_coloring G = Ok m ∧
       (∀ v, is_Some (m !! v) ↔ v ∈ nodes G) ∧
       (∀ v c, m !! v = Some c → first_fit G m v c ∧ c ≤ degree G v).
Proof.
  unfold greedy_coloring.
  pose proof (sg_nodes _ HG) as Hnd.
  destruct (for_each_inv
    (λ done (m : gmap nat nat),
       (∀ v, is_Some (m !! v) ↔ v ∈ done) ∧
       (∀ v c, m !! v = Some c → first_fit G m v c ∧ c ≤ degree G v))
    (greedy_step G) (sorted (nodes G)) ∅) as (m & Hrun & Hdom & Hfit).
  - split.
    + intros v. rewrite lookup_empty. split; [by intros [? ?]|].
      intros Hv. by apply elem_of_nil in Hv.
    + intros v c. by rewrite lookup_empty.
  - intros done a rest m E [Hdom Hfit].
    assert (Ha : a ∈ nodes G).
    { apply sorted_elem_of. rewrite E. apply elem_of_app. right. left. }
    assert (Hlt : ∀ x, x ∈ done → x < a).
    { by eapply sorted_prefix_lt. }
    destruct (neighbors_is_Ok _ _ Ha) as [ns Hns].
    unfold greedy_step. rewrite Hns, bind_Ok_l.
    set (cols := list_to_set ((λ neigh, m !! neigh) <$> ns) : gset (option nat)).
    destruct (first_free_spec (S (size cols)) 0 cols)
      as (c & Hc & Hnot & Hbelow & Hsize); [intros; lia|lia|].
    rewrite Hc, bind_Ok_l. eexists. split; [done|].
    assert (HS : ∀ o, o ∈ cols ↔ ∃ u, u ∈ ns ∧ m !! u = o).
    { intros o. unfold cols. rewrite elem_of_list_to_set, list_elem_of_fmap.
      naive_solver. }
    assert (Hanew : m !! a = None).
    { destruct (m !! a) eqn:E'; [|done].
      assert (a ∈ done) as Hin%Hlt by (apply Hdom; eauto). lia. }
    split.
    + intros v. rewrite elem_of_app, list_elem_of_singleton, <- Hdom.
      destruct (decide (v = a)) as [->|Hne].
      * rewrite lookup_insert_eq. split; eauto.
      * rewrite lookup_insert_ne by done. tauto.
    + intros v c0. destruct (decide (v = a)) as [->|Hne].
      * rewrite lookup_insert_eq. intros [= <-]. split; [split|].
        -- intros u Hadj Hu. rewrite lookup_insert_ne by lia.
           intros Hm. apply Hnot. apply HS. exists u. split; [|done].
           destruct Hadj as (ns' & Hns' & Hin). rewrite Hns in Hns'.
           by injection Hns' as <-.
        -- intros c' Hc'. apply Hbelow, HS in Hc' as (u & Hu & Hm).
           assert (u < a).
           { apply Hlt, Hdom. eauto. }
           exists u. split_and!; [by exists ns|done|].
           by rewrite lookup_insert_ne by lia.
        -- unfold degree. rewrite Hns. etrans; [done|].
           unfold cols. etrans; [apply size_list_to_set_le|].
           by rewrite length_fmap.
      * rewrite lookup_insert_ne by done. intros Hm.
        assert (v < a) by (apply Hlt, Hdom; eauto).
        destruct (Hfit _ _ Hm) as [[Hf1 Hf2] Hdeg]. split; [split|done].
        -- intros u Hadj Hu. rewrite lookup_insert_ne by lia. auto.
        -- intros c' Hc'. destruct (Hf2 _ Hc') as (u & Hadj & Hu & Hm').
           exists u. split_and!; [done..|].
           by rewrite lookup_insert_ne by lia.
  - exists m. split; [done|]. split; [|done].
    intros v. rewrite Hdom. apply sorted_elem_of.
Qed.

(** A first-fit colouring of all nodes is proper. *)
Lemma first_fit_proper (m : gmap nat nat) u v :
  (∀ v, is_Some (m !! v) ↔ v ∈ nodes G) →
  (∀ v c, m !! v = Some c → first_fit G m v c) →
  adj G u v → m !! u ≠ m !! v.
Proof.
  intros Hdom Hfit Huv.
  assert (Hvu : adj G v u) by by apply sg_sym.
  assert (Hne : u ≠ v).
  { intros ->. by eapply sg_irrefl. }
  destruct (proj2 (Hdom u)) as [cu Hcu]; [by eapply adj_node_l|].
  destruct (proj2 (Hdom v)) as [cv Hcv]; [by eapply adj_node_l|].
  rewrite Hcu, Hcv. intros [= ->].
  destruct (decide (u < v)).
  - destruct (Hfit _ _ Hcv) as [Hf _]. by apply (Hf u).
  - destruct (Hfit _ _ Hcu) as [Hf _]. apply (Hf v); [done|lia|done].
Qed.

Lemma elem_of_colors_used (m : gmap nat nat) c :
  c ∈ colors_used m ↔ ∃ v, m !! v = Some c.
Proof.
  unfold colors_used. rewrite elem_of_list_to_set, list_elem_of_fmap. split.
  - intros ([v c'] & -> & Hin%elem_of_map_to_list). eauto.
  - intros [v Hv]. exists (v, c). split; [done|]. by apply elem_of_map_to_list.
Qed.

(** The colours of a first-fit colouring are closed downwards, hence an
    initial segment of the naturals. *)
Lemma first_fit_range (m : gmap nat nat) :
  (∀ v c, m !! v = Some c → first_fit G m v c) →
  colors_used m = list_to_set (seq 0 (size (colors_used m))).
Proof.
  intros Hfit.
  assert (Hdown : ∀ c c', c ∈ colors_used m → c' < c → c' ∈ colors_used m).
  { intros c c' [v Hv]%elem_of_colors_used Hlt.
    destruct (Hfit _ _ Hv) as [_ Hf]. destruct (Hf _ Hlt) as (u & _ & _ & Hu).
    apply elem_of_colors_used. eauto. }
  by apply down_closed_range.
Qed.
End greedy.

Lemma degree_le_max G v : degree G v ≤ max_degree G.
Proof.
  unfold degree, max_degree. destruct (neighbors G v) as [ns| |] eqn:E; [|lia..].
  apply max_list_elem_of_le. apply neighbors_Ok in E.
  apply list_elem_of_fmap. exists ns. split; [done|].
  apply list_elem_of_fmap. by exists (v, ns).
Qed.

(** C2. For an undirected simple graph [G], [greedy_coloring G] returns a
    colouring [m] of exactly the nodes of [G] in which every node has the
    least colour not among the colours of its neighbours of smaller identity
    (the neighbours processed before it; the others contribute nothing);
    adjacent nodes have different colours, and the colours used are exactly
    [0 .. k-1] for [k] the number of colours. *)
Theorem greedy_coloring_correct (G : Graph) :
  simple_graph G →
  ∃ m, greedy_coloring G = Ok m ∧
       (∀ v, is_Some (m !! v) ↔ v ∈ nodes G) ∧
       (∀ v c, m !! v = Some c → first_fit G m v c) ∧
       (∀ u v, adj G u v → m !! u ≠ m !! v) ∧
       colors_used m = list_to_set (seq 0 (size (colors_used m))).
Proof.
  intros HG. destruct (greedy_loop_spec G HG) as (m & Hrun & Hdom & Hfit).
  assert (Hfit' : ∀ v c, m !! v = Some c → first_fit G m v c).
  { intros v c Hm. by apply Hfit in Hm as [? _]. }
  exists m. split_and!; try done.
  - intros u v. by apply first_fit_proper.
  - by apply first_fit_range with G.
Qed.

Lemma greedy_coloring_correct_witness :
  ∃ m, greedy_coloring cycle4 = Ok m ∧
       (∀ v, is_Some (m !! v) ↔ v ∈ nodes cycle4) ∧
       (∀ v c, m !! v = Some c → first_fit cycle4 m v c) ∧
       (∀ u v, adj cycle4 u v → m !! u ≠ m !! v) ∧
       colors_used m = list_to_set (seq 0 (size (colors_used m))).
Proof.
  apply (greedy_coloring_correct cycle4).
  apply simple_graphb_spec. vm_compute. reflexivity.
Defined.

(** The 4-cycle is coloured 0, 1, 0, 1 in identity order. *)
Example greedy_coloring_cycle4 :
  greedy_coloring cycle4 = Ok (list_to_map [(0, 0); (1, 1); (2, 0); (3, 1)]).
Proof. vm_compute. reflexivity. Qed.

(** C10. For an undirected simple graph [G], [greedy_coloring G] gives a
    colour to every node of [G] and to nothing else, the colour of a node
    is at most the degree of the node, and the number of colours used is at
    most the maximum degree plus one. *)
Theorem greedy_coloring_degree_bound (G : Graph) :
  simple_graph G →
  ∃ m, greedy_coloring G = Ok m ∧
       (∀ v, is_Some (m !! v) ↔ v ∈ nodes G) ∧
       (∀ v, v ∈ nodes G → ∃ c, m !! v = Some c ∧ c ≤ degree G v) ∧
       (∀ v c, m !! v = Some c → c ≤ degree G v) ∧
       size (colors_used m) ≤ max_degree G + 1.
Proof.
  intros HG. destruct (greedy_loop_spec G HG) as (m & Hrun & Hdom & Hfit).
  assert (Hdeg : ∀ v c, m !! v = Some c → c ≤ degree G v).
  { intros v c Hm. by apply Hfit in Hm as [_ ?]. }
  exists m. split_and!; try done.
  { intros v [c Hc]%Hdom. exists c. split; [done|]. by apply Hdeg. }
  assert (Hrange : colors_used m = list_to_set (seq 0 (size (colors_used m)))).
  { apply first_fit_range with G. intros v c Hm. by apply Hfit in Hm as [? _]. }
  destruct (size (colors_used m)) as [|k] eqn:Ek; [lia|].
  assert (Hk : k ∈ colors_used m).
  { rewrite Hrange. apply elem_of_list_to_set, elem_of_seq. lia. }
  apply elem_of_colors_used in Hk as [v Hv]. apply Hdeg in Hv.
  pose proof (degree_le_max G v). lia.
Qed.

Lemma greedy_coloring_degree_bound_witness :
  ∃ m, greedy_coloring k3tail = Ok m ∧
       (∀ v, is_Some (m !! v) ↔ v ∈ nodes k3tail) ∧
       (∀ v, v ∈ nodes k3tail → ∃ c, m !! v = Some c ∧ c ≤ degree k3tail v) ∧
       (∀ v c, m !! v = Some c → c ≤ degree k3tail v) ∧
       size (colors_used m) ≤ max_degree k3tail + 1.
Proof.
  apply (greedy_coloring_degree_bound k3tail).
  apply simple_graphb_spec. vm_compute. reflexivity.
Defined.

(** ** Cycle detection *)

(** *** Paths and cycles *)

Lemma is_path_cons G u p :
  is_path G (u :: p) ↔ is_path G p ∧ ∀ v, head p = Some v → adj G u v.
Proof.
  destruct p as [|v p]; simpl.
  - split; [|done]. intros _. split; [done|]. by intros v [=].
  - split.
    + intros [Huv Hp]. split; [done|]. by intros ? [= <-].
    + intros [Hp Huv]. split; [|done]. by apply Huv.
Qed.

Lemma is_path_app G l1 l2 :
  is_path G (l1 ++ l2) ↔
  is_path G l1 ∧ is_path G l2 ∧
  ∀ a b, last l1 = Some a → head l2 = Some b → adj G a b.
Proof.
  induction l1 as [|u l1 IH].
  - simpl. split; [|tauto]. intros Hp. split_and!; [done..|]. by intros a b [=].
  - rewrite <- app_comm_cons, !is_path_cons, IH.
    destruct l1 as [|u' l1].
    + simpl. split.
      * intros [(_ & Hp & _) Hh]. split_and!; [done| |done|].
        -- by intros v [=].
        -- intros a b [= <-] Hb. auto.
      * intros [_ [Hp Hl]]. split_and!; [done..| |].
        -- by intros a b [=].
        -- intros v Hv. by apply Hl.
    + rewrite last_cons_cons. simpl. tauto.
Qed.

Lemma is_path_nodes G l z x : is_path G (l ++ [z]) → x ∈ l → x ∈ nodes G.
Proof.
  induction l as [|u l IH]; intros Hp Hx.
  - by apply elem_of_nil in Hx.
  - rewrite <- app_comm_cons in Hp. apply is_path_cons in Hp as [Hp Hh].
    apply elem_of_cons in Hx as [->|Hx]; [|auto].
    destruct (l ++ [z]) as [|v q] eqn:E.
    + by destruct l.
    + eapply adj_node_l. by apply Hh.
Qed.

Lemma simple_cycle_nodes G c x : simple_cycle G c → x ∈ c → x ∈ nodes G.
Proof.
  intros (Hlen & Hnd & Hp & u & v & Hu & Hv & Hvu) Hx.
  apply last_Some in Hv as [l ->].
  apply elem_of_app in Hx as [Hx|Hx].
  - by eapply is_path_nodes.
  - apply list_elem_of_singleton in Hx as ->. by eapply adj_node_l.
Qed.

Lemma simple_cycle_rotate G l1 l2 :
  simple_cycle G (l1 ++ l2) → simple_cycle G (l2 ++ l1).
Proof.
  destruct l1 as [|a1 l1']; [by rewrite app_nil_r|].
  destruct l2 as [|a2 l2']; [by rewrite app_nil_r|].
  set (l1 := a1 :: l1'). set (l2 := a2 :: l2').
  intros (Hlen & Hnd & Hp & u & v & Hu & Hv & Hvu).
  apply is_path_app in Hp as (Hp1 & Hp2 & Hlink).
  assert (Hl2 : last (l1 ++ l2) = last l2).
  { rewrite last_app. destruct (last l2) eqn:E; [done|]. by apply last_None in E. }
  rewrite Hl2 in Hv. simpl in Hu. injection Hu as <-.
  split_and!.
  - rewrite length_app in *. lia.
  - apply NoDup_app in Hnd as (? & Hdis & ?). apply NoDup_app.
    split_and!; [done| |done]. intros x Hx2 Hx1. by apply (Hdis x).
  - apply is_path_app. split_and!; [done..|].
    intros a b Ha [= <-]. rewrite Hv in Ha. by injection Ha as <-.
  - destruct (last l1) as [z|] eqn:Hz; [|by apply last_None in Hz].
    exists a2, z. split_and!; [done| |by apply Hlink].
    by rewrite last_app, Hz.
Qed.

Lemma head_last_ne {A} (l : list A) a b :
  NoDup l → 2 ≤ length l → head l = Some a → last l = Some b → a ≠ b.
Proof.
  intros Hnd Hlen Ha Hb ->.
  destruct l as [|x l]; [done|]. injection Ha as ->.
  apply NoDup_cons in Hnd as [Hx _]. apply Hx.
  destruct l as [|y l]; [simpl in Hlen; lia|].
  rewrite last_cons_cons in Hb. by apply last_Some_elem_of.
Qed.

(** The last element of [L] that lies on [c]. *)
Lemma last_common (L c : list nat) x :
  x ∈ c → x ∈ L →
  ∃ l1 m l2, L = l1 ++ m :: l2 ∧ m ∈ c ∧ ∀ y, y ∈ l2 → y ∉ c.
Proof.
  revert x. induction L as [|a L IH]; intros x Hc HL.
  - by apply elem_of_nil in HL.
  - destruct (decide (Exists (λ y, y ∈ c) L)) as [He|He].
    + apply Exists_exists in He as (y & HyL & Hyc).
      destruct (IH y Hyc HyL) as (l1 & m & l2 & -> & Hm & Hl2).
      by exists (a :: l1), m, l2.
    + rewrite Exists_exists in He.
      apply elem_of_cons in HL as [<-|HL]; [|exfalso; eauto].
      exists [], x, L. split_and!; [done..|]. intros y Hy Hyc. eauto.
Qed.

(** A graph whose nodes can be listed so that each has at most one earlier
    neighbour has no cycle: the node of a cycle that comes last in the
    order would have two. *)
Lemma aoe_acyclic G L :
  simple_graph G → NoDup L → aoe G ∅ L → (∀ v, v ∈ nodes G → v ∈ L) →
  ¬ has_simple_cycle G.
Proof.
  intros HG HndL Haoe Hall [c Hc].
  assert (Hcn : ∀ x, x ∈ c → x ∈ L).
  { intros x Hx. eapply Hall, simple_cycle_nodes; done. }
  destruct c as [|c0 c'] eqn:Ec; [destruct Hc as [Hlen _]; simpl in Hlen; lia|].
  rewrite <- Ec in *.
  destruct (last_common L c c0) as (l1 & m & l2 & EL & Hm & Hl2).
  { rewrite Ec. left. }
  { apply Hcn. rewrite Ec. left. }
  apply list_elem_of_split in Hm as (c1 & c2 & Ec').
  rewrite Ec' in Hc. apply simple_cycle_rotate in Hc.
  rewrite <- app_comm_cons in Hc.
  destruct Hc as (Hlen & Hnd & Hp & u & v & Hu & Hv & Hvu).
  simpl in Hu. injection Hu as <-.
  set (r := c2 ++ c1) in *.
  assert (Hr : 2 ≤ length r) by (simpl in Hlen; lia).
  apply NoDup_cons in Hnd as [Hmr Hndr].
  destruct r as [|a r'] eqn:Er; [simpl in Hr; lia|].
  rewrite <- Er in *.
  assert (Hlast : last r = Some v).
  { rewrite Er in Hv |- *. by rewrite last_cons_cons in Hv. }
  assert (Hma : adj G m a).
  { apply is_path_cons in Hp as [_ Hp]. apply Hp. by rewrite Er. }
  assert (Hmv : adj G m v) by by apply sg_sym.
  assert (Hne : a ≠ v).
  { eapply head_last_ne; [exact Hndr|done|by rewrite Er|done]. }
  assert (Hin : ∀ x, x ∈ r → x ∈ l1).
  { intros x Hx.
    assert (Hxc : x ∈ c).
    { rewrite Ec'. unfold r in Hx. set_solver. }
    pose proof (Hcn _ Hxc) as HxL. rewrite EL in HxL.
    apply elem_of_app in HxL as [?|HxL]; [done|].
    apply elem_of_cons in HxL as [->|HxL]; [done|].
    by apply Hl2 in HxL. }
  apply Hne. apply (Haoe l1 m l2 EL); [set_solver| | |done..].
  - apply Hin. rewrite Er. left.
  - apply Hin. by apply last_Some_elem_of.
Qed.

(** *** The search *)

Lemma NoDup_split_eq {A} (l1 l2 k1 k2 : list A) x :
  NoDup (l1 ++ x :: l2) → l1 ++ x :: l2 = k1 ++ x :: k2 → l1 = k1 ∧ l2 = k2.
Proof.
  revert k1. induction l1 as [|a l1 IH]; intros k1 Hnd E.
  - destruct k1 as [|b k1]; simpl in *.
    + by injection E as ->.
    + injection E as <- ->. apply NoDup_cons in Hnd as [Hx _].
      destruct Hx. set_solver.
  - destruct k1 as [|b k1]; simpl in *.
    + injection E as -> <-. apply NoDup_cons in Hnd as [Hx _].
      destruct Hx. set_solver.
    + injection E as <- E. apply NoDup_cons in Hnd as [_ Hnd].
      destruct (IH _ Hnd E) as [-> ->]. done.
Qed.

Section cycle.
Context (G : Graph) (HG : simple_graph G).

Lemma dfs_cycle_spec fuel :
  ∀ v parent (V R : gset nat) (order stk : list nat),
  (∀ x, x ∈ V ↔ x ∈ order) → NoDup order →
  (∀ x, x ∈ R ↔ x ∈ stk) → NoDup stk → R ⊆ V →
  is_path G (v :: stk) → parent = head stk →
  v ∉ V → v ∈ nodes G →
  closedV G V R → aoe G R order →
  length (filter (λ x, x ∉ V) (nodes G)) < fuel →
  ∃ b V' R', dfs_cycle fuel G v parent (V, R) = Ok (b, (V', R')) ∧
    if b : bool then has_simple_cycle G
    else R' = R ∧
         ∃ new, (∀ x, x ∈ V' ↔ x ∈ order ++ v :: new) ∧
                NoDup (order ++ v :: new) ∧
                closedV G V' R ∧ aoe G R (order ++ v :: new).
Proof.
  induction fuel as [|fuel IH];
    intros v parent V R order stk HV Hord HR Hstk HRV Hpath Hparent HvV Hv
           Hclosed Haoe Hfuel; [lia|].
  simpl. destruct (neighbors_is_Ok _ _ Hv) as [ns Hns]. rewrite Hns, bind_Ok_l.
  assert (HvR : v ∉ R) by set_solver.
  assert (Hvstk : v ∉ stk) by (by rewrite <- HR).
  match goal with
  | |- context [for_until ?f ns ?s] =>
      destruct (for_until_inv
        (λ done (st : cycle_state),
           (∀ x, x ∈ st.2 ↔ x = v ∨ x ∈ R) ∧
           ∃ new, (∀ x, x ∈ st.1 ↔ x ∈ order ++ v :: new) ∧
                  NoDup (order ++ v :: new) ∧
                  closedV G st.1 st.2 ∧
                  aoe G st.2 (order ++ v :: new) ∧
                  (∀ w, w ∈ done → w ∈ st.1) ∧
                  (∀ w, w ∈ done → w ∈ R → Some w = parent))
        (has_simple_cycle G) f ns s) as (b & [Vc Rc] & Hrun & Hpost)
  end.
  - (* the invariant holds at the start of the loop *)
    simpl. split; [set_solver|]. exists []. split_and!.
    + intros x. rewrite elem_of_app, elem_of_cons, <- HV. set_solver.
    + apply NoDup_app. split_and!; [done| |apply NoDup_singleton].
      intros x Hx%HV ->%list_elem_of_singleton. done.
    + intros u x Hu HuR Hux. apply elem_of_union. right.
      apply (Hclosed u); [set_solver..|done].
    + intros l1 u l2 E HuR x y Hx Hy Hux Huy.
      assert (Hne : u ≠ v) by set_solver.
      assert (Hu : u ∈ order).
      { assert (Hu' : u ∈ order ++ [v]) by (rewrite E; set_solver).
        set_solver. }
      apply list_elem_of_split in Hu as (o1 & o2 & Eo).
      assert (Hnd' : NoDup (order ++ [v])).
      { apply NoDup_app. split_and!; [done| |apply NoDup_singleton].
        intros z Hz%HV ->%list_elem_of_singleton. done. }
      assert (o1 = l1) as <-.
      { rewrite Eo in E, Hnd'. rewrite <- app_assoc in E, Hnd'.
        simpl in E, Hnd'. by destruct (NoDup_split_eq _ _ _ _ _ Hnd' E). }
      apply (Haoe o1 u o2 Eo); [set_solver|done..].
    + intros w Hw. by apply elem_of_nil in Hw.
    + intros w Hw. by apply elem_of_nil in Hw.
  - (* one neighbour *)
    intros done a rest [Vc Rc] E
      (HRc & new & HVc & Hnd & Hcl & Hao & Hdone & Hpar).
    simpl in HRc, HVc, Hcl, Hao, Hdone. simpl.
    assert (Hva : adj G v a).
    { exists ns. split; [done|]. rewrite E. set_solver. }
    assert (Hav : adj G a v) by by apply sg_sym.
    assert (Hane : a ≠ v).
    { intros ->. by eapply sg_irrefl. }
    destruct (decide (a ∉ Vc)) as [Ha|Ha].
    + (* not visited: the recursive call *)
      destruct (IH a (Some v) Vc Rc (order ++ v :: new) (v :: stk))
        as (b & V1 & R1 & Hrun & Hpost).
      { done. }
      { done. }
      { intros x. rewrite HRc, elem_of_cons, HR. done. }
      { apply NoDup_cons. done. }
      { intros x Hx%HRc. apply HVc. set_solver. }
      { apply is_path_cons. split; [done|]. by intros ? [= <-]. }
      { done. }
      { done. }
      { by eapply sg_closed. }
      { done. }
      { done. }
      { assert (length (filter (λ x, x ∉ Vc) (nodes G)) <
                length (filter (λ x, x ∉ V) (nodes G))); [|lia].
        apply unvisited_lt with v; try done.
        - intros x Hx. apply HVc. set_solver.
        - apply HVc. set_solver. }
      exists b, (V1, R1). split; [done|]. destruct b; [done|].
        destruct Hpost as (-> & new' & HV1 & Hnd1 & Hcl1 & Hao1).
        simpl. split; [done|].
        assert (Eapp : (order ++ v :: new) ++ a :: new' =
                       order ++ v :: (new ++ a :: new')).
        { by rewrite <- app_assoc. }
        rewrite Eapp in HV1, Hnd1, Hao1.
        exists (new ++ a :: new'). split_and!; try done.
        -- intros w [Hw| ->%list_elem_of_singleton]%elem_of_app.
           ++ apply HV1. apply Hdone, HVc in Hw. set_solver.
           ++ apply HV1. set_solver.
        -- intros w [Hw| ->%list_elem_of_singleton]%elem_of_app; [auto|].
           intros HaR. destruct Ha. apply HVc. set_solver.
    + apply dec_stable in Ha.
      destruct (decide (a ∈ Rc ∧ Some a ≠ parent)) as [[HaR Hap]|Hno].
      * (* a node of the stack that is not the parent: a cycle *)
        exists true, (Vc, Rc). split; [done|].
        apply HRc in HaR as [?|HaR]; [done|].
        apply HR, list_elem_of_split in HaR as (s1 & s2 & Es).
        destruct s1 as [|p s1].
        { rewrite Es in Hparent. simpl in Hparent. by subst parent. }
        exists (v :: (p :: s1) ++ [a]).
        rewrite Es in Hpath, Hstk, Hvstk.
        replace (v :: (p :: s1) ++ a :: s2)
          with ((v :: (p :: s1) ++ [a]) ++ s2) in Hpath
          by (simpl; by rewrite <- app_assoc).
        apply is_path_app in Hpath as [Hpath _].
        split_and!.
        -- simpl. rewrite length_app. simpl. lia.
        -- apply NoDup_cons. split.
           ++ intros Hin. apply Hvstk. set_solver.
           ++ replace ((p :: s1) ++ a :: s2)
                with (((p :: s1) ++ [a]) ++ s2) in Hstk
                by (by rewrite <- app_assoc).
              by apply NoDup_app in Hstk as [? _].
        -- done.
        -- exists v, a. split_and!; [done| |done].
           rewrite app_comm_cons. apply last_snoc.
      * exists false, (Vc, Rc). split; [done|]. simpl.
        split; [done|]. exists new. split_and!; try done.
        -- intros w [Hw| ->%list_elem_of_singleton]%elem_of_app; auto.
        -- intros w [Hw| ->%list_elem_of_singleton]%elem_of_app; [auto|].
           intros HaR. destruct (decide (Some a = parent)) as [|Hne]; [done|].
           destruct Hno. split; [|done]. apply HRc. by right.
  - (* after the loop *)
    rewrite Hrun, bind_Ok_l. destruct b.
    + exists true, Vc, Rc. done.
    + destruct Hpost as (HRc & new & HVc & Hnd & Hcl & Hao & Hdone & Hpar).
      simpl in HRc, HVc, Hcl, Hao, Hdone. simpl.
      exists false, Vc, (Rc ∖ {[v]}). split; [done|].
      split; [set_solver|]. exists new. split_and!; try done.
      * intros u x Hu HuR Hux. destruct (decide (u = v)) as [->|Hne].
        -- apply Hdone. destruct Hux as (ns' & Hns' & Hx).
           rewrite Hns in Hns'. by injection Hns' as <-.
        -- apply (Hcl u); [done| |done]. rewrite HRc. tauto.
      * intros l1 u l2 E HuR x y Hx Hy Hux Huy.
        destruct (decide (u = v)) as [->|Hne].
        -- apply NoDup_split_eq in E as [<- <-]; [|done].
           assert (Hback : ∀ z, z ∈ order → adj G v z → Some z = parent).
           { intros z Hz Hvz.
             assert (HzR : z ∈ R).
             { destruct (decide (z ∈ R)) as [|HzR]; [done|].
               destruct HvV. apply (Hclosed z); [by apply HV|done|].
               by apply sg_sym. }
             apply Hpar; [|done]. destruct Hvz as (ns' & Hns' & Hz').
             rewrite Hns in Hns'. by injection Hns' as <-. }
           apply Hback in Hx; [|done]. apply Hback in Hy; [|done].
           congruence.
        -- apply (Hao l1 u l2 E); [|done..]. rewrite HRc. tauto.
Qed.
End cycle.

(** When no cycle is found, the nodes have been visited in an order in which
    every node has at most one earlier neighbour. *)
Lemma has_cycle_order G :
  simple_graph G →
  ∃ b, has_cycle G = Ok b ∧
       if b : bool then has_simple_cycle G
       else ∃ order, NoDup order ∧ aoe G ∅ order ∧
                     ∀ v, v ∈ nodes G → v ∈ order.
Proof.
  intros HG. unfold has_cycle.
  match goal with
  | |- context [for_until ?f ?l ?s] =>
      destruct (for_until_inv
        (λ done (st : cycle_state),
           st.2 = ∅ ∧
           ∃ order, (∀ x, x ∈ st.1 ↔ x ∈ order) ∧ NoDup order ∧
                    closedV G st.1 ∅ ∧ aoe G ∅ order ∧
                    (∀ w, w ∈ done → w ∈ st.1))
        (has_simple_cycle G) f l s) as (b & [Vc Rc] & Hrun & Hpost)
  end.
  - simpl. split; [done|]. exists []. split_and!.
    + set_solver.
    + constructor.
    + intros u x Hu. set_solver.
    + intros l1 u l2 E. by destruct l1.
    + intros w Hw. by apply elem_of_nil in Hw.
  - intros done a rest [Vc Rc] E (HRc & order & HVc & Hnd & Hcl & Hao & Hdone).
    simpl in HRc, HVc, Hcl, Hao, Hdone. subst Rc. simpl.
    destruct (decide (a ∉ Vc)) as [Ha|Ha].
    + destruct (dfs_cycle_spec G HG (S (length G)) a None Vc ∅ order [])
        as (b & V1 & R1 & Hrun & Hpost).
      { done. }
      { done. }
      { set_solver. }
      { constructor. }
      { set_solver. }
      { done. }
      { done. }
      { done. }
      { rewrite E. set_solver. }
      { done. }
      { done. }
      { apply Nat.lt_succ_r. etrans; [apply length_filter|].
        unfold nodes. by rewrite length_fmap. }
      exists b, (V1, R1). split; [done|]. destruct b; [done|].
      destruct Hpost as (-> & new & HV1 & Hnd1 & Hcl1 & Hao1).
      simpl. split; [done|]. exists (order ++ a :: new).
      split_and!; try done.
      intros w [Hw| ->%list_elem_of_singleton]%elem_of_app.
      * apply HV1. apply Hdone, HVc in Hw. set_solver.
      * apply HV1. set_solver.
    + apply dec_stable in Ha. exists false, (Vc, ∅). split; [done|].
      simpl. split; [done|]. exists order. split_and!; try done.
      intros w [Hw| ->%list_elem_of_singleton]%elem_of_app; auto.
  - rewrite Hrun, bind_Ok_l. exists b. split; [done|]. destruct b.
    + done.
    + destruct Hpost as (_ & order & HVc & Hnd & Hcl & Hao & Hdone).
      simpl in *. exists order. split_and!; [done..|].
      intros v Hv. apply HVc. auto.
Qed.

Lemma has_cycle_spec G :
  simple_graph G → ∃ b, has_cycle G = Ok b ∧ (b = true ↔ has_simple_cycle G).
Proof.
  intros HG. destruct (has_cycle_order G HG) as (b & Hrun & Hpost).
  exists b. split; [done|]. destruct b; [done|].
  destruct Hpost as (order & Hnd & Hao & Hall).
  split; [done|]. intros Hc. exfalso. by apply (aoe_acyclic G order).
Qed.

(** *** Independence of the insertion order *)

Lemma same_graph_adj G G' u v : same_graph G G' → adj G u v ↔ adj G' u v.
Proof.
  intros [Hp Hn]. split.
  - intros (ns & Hns & Hv). destruct (Hn _ _ Hns) as (ns' & Hns' & Hperm).
    exists ns'. split; [done|]. by rewrite <- Hperm.
  - intros (ns' & Hns' & Hv).
    assert (Hu : u ∈ nodes G). { rewrite Hp. by eapply neighbors_node. }
    destruct (neighbors_is_Ok _ _ Hu) as [ns Hns].
    destruct (Hn _ _ Hns) as (ns'' & Hns'' & Hperm).
    rewrite Hns' in Hns''. injection Hns'' as <-.
    exists ns. split; [done|]. by rewrite Hperm.
Qed.

Lemma same_graph_simple G G' : same_graph G G' → simple_graph G → simple_graph G'.
Proof.
  intros Hsame HG. pose proof Hsame as [Hp Hn]. split.
  - rewrite <- Hp. apply HG.
  - intros n ns' Hns'.
    assert (Hu : n ∈ nodes G). { rewrite Hp. by eapply neighbors_node. }
    destruct (neighbors_is_Ok _ _ Hu) as [ns Hns].
    destruct (Hn _ _ Hns) as (ns'' & Hns'' & Hperm).
    rewrite Hns' in Hns''. injection Hns'' as <-.
    rewrite <- Hperm. by eapply sg_nodup.
  - intros u v Huv%(same_graph_adj G G'); [|done]. rewrite <- Hp.
    by eapply sg_closed.
  - intros u v Huv%(same_graph_adj G G'); [|done].
    apply (same_graph_adj G G'); [done|]. by apply sg_sym.
  - intros u Huu%(same_graph_adj G G'); [|done]. by eapply sg_irrefl.
Qed.

Lemma same_graph_is_path G G' p : same_graph G G' → is_path G p ↔ is_path G' p.
Proof.
  intros Hsame. induction p as [|u p IH]; [done|].
  rewrite !is_path_cons, IH. split; intros [? Hh]; (split; [done|]);
    intros v Hv; apply Hh in Hv; by apply (same_graph_adj G G').
Qed.

Lemma same_graph_cycle G G' :
  same_graph G G' → has_simple_cycle G ↔ has_simple_cycle G'.
Proof.
  intros Hsame. split; intros (c & Hlen & Hnd & Hp & u & v & Hu & Hv & Hvu);
    exists c; (split_and!; [done|done| |]).
  - by apply (same_graph_is_path G G').
  - exists u, v. split_and!; [done..|]. by apply (same_graph_adj G G').
  - by apply (same_graph_is_path G G').
  - exists u, v. split_and!; [done..|]. by apply (same_graph_adj G G').
Qed.

(** *** Trees have no cycle *)

Lemma sum_list_with_add {A} (f g : A → nat) l :
  sum_list_with (λ x, f x + g x) l = sum_list_with f l + sum_list_with g l.
Proof. induction l as [|a l IH]; simpl; lia. Qed.

Lemma sum_list_with_ext {A} (f g : A → nat) l :
  (∀ x, x ∈ l → f x = g x) → sum_list_with f l = sum_list_with g l.
Proof.
  induction l as [|a l IH]; intros Hfg; simpl; [done|].
  rewrite Hfg by left. rewrite IH; [done|]. intros x Hx. apply Hfg. by right.
Qed.

Lemma sum_list_with_indicator {A} (P : A → Prop) `{!∀ x, Decision (P x)} l :
  sum_list_with (λ x, if decide (P x) then 1 else 0) l = length (filter P l).
Proof.
  induction l as [|a l IH]; simpl; [done|]. rewrite filter_cons.
  destruct (decide (P a)); simpl; lia.
Qed.

Section counting.
Context (G : Graph) (HG : simple_graph G).

(** The ordered pairs of adjacent nodes within [K] are counted twice by
    [fwd]: once from each end. *)
Lemma pairs_fwd K :
  sum_list_with (λ v, length (filter (adj G v) K)) K = 2 * sum_list (fwd G K).
Proof.
  induction K as [|a K IH]; [done|].
  simpl. rewrite filter_cons_False by (by apply sg_irrefl).
  rewrite (sum_list_with_ext _
    (λ v, (if decide (adj G a v) then 1 else 0) + length (filter (adj G v) K))).
  - rewrite sum_list_with_add, sum_list_with_indicator, IH. lia.
  - intros v _. rewrite filter_cons.
    destruct (decide (adj G v a)) as [Hva|Hva], (decide (adj G a v)) as [Hav|Hav];
      simpl; try done.
    + destruct Hav. by apply sg_sym.
    + destruct Hva. by apply sg_sym.
Qed.

Lemma degree_filter K v :
  NoDup K → (∀ x, x ∈ K ↔ x ∈ nodes G) → v ∈ nodes G →
  length (filter (adj G v) K) = degree G v.
Proof.
  intros HK Hall Hv. unfold degree.
  destruct (neighbors_is_Ok _ _ Hv) as [ns Hns]. rewrite Hns.
  apply Permutation_length, NoDup_Permutation.
  - by apply NoDup_filter.
  - by eapply sg_nodup.
  - intros x. rewrite list_elem_of_filter. split.
    + intros [(ns' & Hns' & Hx) _]. rewrite Hns in Hns'. by injection Hns' as <-.
    + intros Hx. assert (adj G v x) by (by exists ns). split; [done|].
      apply Hall. by eapply sg_closed.
Qed.

Lemma degree_sum_entries (G0 : Graph) :
  NoDup (nodes G0) →
  sum_list_with (degree G0) (nodes G0) =
  sum_list_with (λ e : nat * list nat, length e.2) G0.
Proof.
  induction G0 as [|[v ns] G0 IH]; intros Hnd; [done|].
  unfold nodes in *. rewrite fmap_cons in *. simpl.
  apply NoDup_cons in Hnd as [Hv Hnd].
  unfold degree at 1. simpl. rewrite decide_True by done. f_equal.
  rewrite <- IH by done. apply sum_list_with_ext. intros x Hx.
  unfold degree. simpl. rewrite decide_False; [done|]. by intros ->.
Qed.

Lemma degree_sum K :
  NoDup K → (∀ x, x ∈ K ↔ x ∈ nodes G) →
  sum_list_with (λ v, length (filter (adj G v) K)) K =
  sum_list_with (λ e : nat * list nat, length e.2) G.
Proof.
  intros HK Hall.
  rewrite (sum_list_with_ext _ (degree G)).
  - rewrite <- degree_sum_entries by apply HG.
    apply sum_list_with_Permutation_proper.
    apply NoDup_Permutation; [done|apply HG|done].
  - intros v Hv. apply degree_filter; [done..|]. by apply Hall.
Qed.

(** If every node of [K] but the last has a neighbour after it, there
    are at least [length K - 1] such pairs; if there are no more, every
    node has at most one. *)
Lemma fwd_lower K :
  (∀ k1 v k2, K = k1 ++ v :: k2 → k2 ≠ [] → 1 ≤ length (filter (adj G v) k2)) →
  length K ≤ sum_list (fwd G K) + 1.
Proof.
  induction K as [|a K IH]; intros Hone; simpl; [lia|].
  destruct K as [|b K]; [simpl; lia|].
  assert (1 ≤ length (filter (adj G a) (b :: K))).
  { by apply (Hone [] a (b :: K)). }
  assert (length (b :: K) ≤ sum_list (fwd G (b :: K)) + 1).
  { apply IH. intros k1 v k2 E. apply (Hone (a :: k1)). by rewrite E. }
  simpl in *. lia.
Qed.

Lemma fwd_tight K :
  (∀ k1 v k2, K = k1 ++ v :: k2 → k2 ≠ [] → 1 ≤ length (filter (adj G v) k2)) →
  sum_list (fwd G K) + 1 ≤ length K →
  ∀ k1 v k2, K = k1 ++ v :: k2 → length (filter (adj G v) k2) ≤ 1.
Proof.
  induction K as [|a K IH]; intros Hone Hsum k1 v k2 E.
  - by destruct k1.
  - assert (Hone' : ∀ k1 v k2, K = k1 ++ v :: k2 → k2 ≠ [] →
                      1 ≤ length (filter (adj G v) k2)).
    { intros k1' v' k2' E'. apply (Hone (a :: k1')). by rewrite E'. }
    pose proof (fwd_lower K Hone') as Hlow. simpl in Hsum.
    destruct k1 as [|a' k1]; simpl in E; injection E as -> ->.
    + lia.
    + apply (IH Hone') with k1; [|done].
      assert (1 ≤ length (filter (adj G a') (k1 ++ v :: k2))).
      { apply (Hone [] a'); [done|]. by destruct k1. }
      lia.
Qed.
End counting.

Lemma length_le_1_eq {A} (l : list A) x y :
  length l ≤ 1 → x ∈ l → y ∈ l → x = y.
Proof.
  destruct l as [|a [|b l]]; simpl; intros Hl Hx Hy; [| |lia].
  - by apply elem_of_nil in Hx.
  - apply list_elem_of_singleton in Hx, Hy. congruence.
Qed.

(** In the breadth-first order of a connected graph every node but the
    first has a neighbour before it. *)
Lemma bfs_order_earlier G s R l1 v l2 :
  simple_graph G →
  head R = Some (s, 0) → NoDup R.*1 →
  (∀ v, v ∈ R.*1 ↔ reachable G s v) →
  (∀ v d, (v, d) ∈ R → distance G s v d) →
  Sorted (≤) R.*2 →
  R.*1 = l1 ++ v :: l2 → l1 ≠ [] → ∃ u, u ∈ l1 ∧ adj G v u.
Proof.
  intros HG Hhead Hnd Hreach Hdist Hsort E Hl1.
  apply fmap_app_inv in E as (r1 & r2' & -> & E & ->).
  symmetry in E. apply fmap_cons_inv in E as ([v' d] & r2 & -> & -> & ->).
  simpl in *.
  assert (Hvd : distance G s v' d) by (apply Hdist; set_solver).
  assert (Hs : (s, 0) ∈ r1).
  { destruct r1 as [|x r1]; [done|]. simpl in Hhead. injection Hhead as ->. left. }
  assert (Hne : v' ≠ s).
  { intros ->. rewrite fmap_app in Hnd. apply NoDup_app in Hnd as (_ & Hdis & _).
    apply (Hdis s); [|left]. apply list_elem_of_fmap. by exists (s, 0). }
  destruct Hvd as [Hwalk Hmin]. inversion Hwalk as [|u w k Hwu Huv]; subst; [done|].
  assert (Hu : u ∈ (r1 ++ (v', S k) :: r2).*1) by (apply Hreach; by exists k).
  apply list_elem_of_fmap in Hu as ([u' du] & -> & Hin). simpl in *.
  pose proof (Hdist _ _ Hin) as [_ Hdu]. specialize (Hdu _ Hwu).
  exists u'. split; [|by apply sg_sym].
  apply elem_of_app in Hin as [Hin|Hin].
  - apply list_elem_of_fmap. by exists (u', du).
  - exfalso. apply Sorted_StronglySorted in Hsort; [|apply _].
    rewrite fmap_app in Hsort. apply StronglySorted_app_1_r in Hsort.
    simpl in Hsort. apply StronglySorted_cons in Hsort as [Hall _].
    apply elem_of_cons in Hin as [[= -> ->]|Hin]; [lia|].
    rewrite Forall_forall in Hall.
    assert (S k ≤ du); [|lia]. apply Hall. apply list_elem_of_fmap.
    by exists (u', du).
Qed.

Lemma tree_acyclic G : simple_graph G → is_tree G → ¬ has_simple_cycle G.
Proof.
  intros HG [Hconn Hcount].
  destruct G as [|[s ns0] G0] eqn:EG; [simpl in Hcount; lia|].
  rewrite <- EG in *.
  assert (Hs : s ∈ nodes G) by (rewrite EG; left).
  destruct (bfs_with_depth_inv G s HG Hs) as (Vb & R & _ & Hinv & _).
  pose proof (bi_head _ _ _ _ _ Hinv) as Hhead.
  pose proof (bi_nodup _ _ _ _ _ Hinv) as Hnd.
  pose proof (StronglySorted_Sorted (bi_sorted _ _ _ _ _ Hinv)) as Hsort.
  rewrite app_nil_r in Hhead, Hnd, Hsort.
  pose proof (λ v, bfs_final_reachable G s Vb R v Hinv) as Hreach.
  pose proof (λ v d, bfs_final_distance G s Vb R v d Hinv) as Hdist.
  set (L := R.*1) in *.
  assert (Hall : ∀ v, v ∈ L ↔ v ∈ nodes G).
  { intros v. rewrite Hreach. split.
    - intros [k Hk]. by eapply walk_node_r.
    - intros Hv. by apply Hconn. }
  set (K := reverse L).
  assert (HK : NoDup K) by (unfold K; by rewrite reverse_Permutation).
  assert (HallK : ∀ v, v ∈ K ↔ v ∈ nodes G).
  { intros v. unfold K. by rewrite elem_of_reverse. }
  assert (Hlen : length K = length G).
  { replace (length G) with (length (nodes G)) by apply length_fmap.
    apply Permutation_length, NoDup_Permutation; [done|apply HG|done]. }
  assert (Hone : ∀ k1 v k2, K = k1 ++ v :: k2 → k2 ≠ [] →
                   1 ≤ length (filter (adj G v) k2)).
  { intros k1 v k2 E Hk2.
    assert (EL : L = reverse k2 ++ v :: reverse k1).
    { rewrite <- (reverse_involutive L). fold K. rewrite E.
      rewrite reverse_app, reverse_cons, <- app_assoc. done. }
    destruct (bfs_order_earlier G s R (reverse k2) v (reverse k1))
      as (u & Hu & Hvu); try done.
    { intros Hnil. apply Hk2. rewrite <- (reverse_involutive k2), Hnil. done. }
    apply (proj1 (elem_of_reverse _ _)) in Hu.
    assert (Hin : u ∈ filter (adj G v) k2) by (by apply list_elem_of_filter).
    destruct (filter (adj G v) k2); [by apply elem_of_nil in Hin|simpl; lia]. }
  assert (Hsum : sum_list (fwd G K) + 1 ≤ length K).
  { pose proof (pairs_fwd G HG K) as Hp.
    rewrite (degree_sum G HG K HK HallK) in Hp. lia. }
  apply (aoe_acyclic G L); [done|done| |by intros v Hv; apply Hall].
  intros l1 u l2 E _ x y Hx Hy Hux Huy.
  assert (EK : K = reverse l2 ++ u :: reverse l1).
  { unfold K. rewrite E, reverse_app, reverse_cons, <- app_assoc. done. }
  pose proof (fwd_tight G K Hone Hsum _ _ _ EK) as Hle.
  apply (length_le_1_eq _ x y Hle); apply list_elem_of_filter;
    (split; [done|by apply elem_of_reverse_2]).
Qed.

(** C5. For an undirected simple graph [G], [has_cycle G] returns a boolean
    that is true exactly when [G] has a simple cycle; it is false for every
    tree, and it is the same for every insertion order of the nodes and of
    their neighbours. *)
Theorem has_cycle_correct (G : Graph) :
  simple_graph G →
  ∃ b, has_cycle G = Ok b ∧
       (b = true ↔ has_simple_cycle G) ∧
       (is_tree G → b = false) ∧
       (∀ G', same_graph G G' → has_cycle G' = Ok b).
Proof.
  intros HG. destruct (has_cycle_spec G HG) as (b & Hrun & Hb).
  exists b. split_and!; [done..| |].
  - intros Htree. destruct b; [|done]. exfalso.
    apply (tree_acyclic G HG Htree). by apply Hb.
  - intros G' Hsame.
    destruct (has_cycle_spec G' (same_graph_simple _ _ Hsame HG))
      as (b' & Hrun' & Hb').
    rewrite Hrun'. f_equal.
    rewrite <- (same_graph_cycle G G' Hsame) in Hb'.
    destruct b, b'; try done.
    + apply Hb', Hb. done.
    + symmetry. apply Hb, Hb'. done.
Qed.

Lemma has_cycle_correct_witness :
  ∃ b, has_cycle triangle = Ok b ∧
       (b = true ↔ has_simple_cycle triangle) ∧
       (is_tree triangle → b = false) ∧
       (∀ G', same_graph triangle G' → has_cycle G' = Ok b).
Proof.
  apply (has_cycle_correct triangle).
  apply simple_graphb_spec. vm_compute. reflexivity.
Defined.

(** The triangle has a cycle, the path has none. *)
Example has_cycle_triangle : has_cycle triangle = Ok true.
Proof. vm_compute. reflexivity. Qed.

Example has_cycle_path3 : has_cycle path3 = Ok false.
Proof. vm_compute. reflexivity. Qed.

(** ** Maximum clique *)

Lemma max_by_len_fold best cs :
  let r := foldl (λ best x : list nat,
                    if decide (length best < length x) then x else best) best cs in
  r ∈ best :: cs ∧ length best ≤ length r ∧ ∀ T, T ∈ cs → length T ≤ length r.
Proof.
  revert best. induction cs as [|c cs IH]; intros best; simpl.
  - split_and!; [left|done|]. intros T HT. by apply elem_of_nil in HT.
  - case_decide as Hlt.
    + destruct (IH c) as (Hin & Hle & Hall). split_and!.
      * by right.
      * lia.
      * intros T [->|HT]%elem_of_cons; auto.
    + destruct (IH best) as (Hin & Hle & Hall). split_and!.
      * apply elem_of_cons in Hin as [->|Hin]; [left|right; by right].
      * done.
      * intros T [->|HT]%elem_of_cons; [lia|auto].
Qed.

Lemma max_by_len_spec cliques :
  match max_by_len cliques with
  | Ok C => C ∈ cliques ∧ ∀ T, T ∈ cliques → length T ≤ length C
  | Raise e => e = ValueError ∧ cliques = []
  | OutOfFuel => False
  end.
Proof.
  destruct cliques as [|c cs]; simpl; [done|].
  destruct (max_by_len_fold c cs) as (Hin & Hle & Hall).
  split; [done|]. intros T [->|HT]%elem_of_cons; auto.
Qed.

Lemma is_maximal_clique_perm G S S' :
  S ≡ₚ S' → is_maximal_clique G S → is_maximal_clique G S'.
Proof.
  intros Hp [(Hnd & Hin & Hadj) Hmax]. split; [split_and!|].
  - by rewrite <- Hp.
  - intros u. rewrite <- Hp. auto.
  - intros u v. rewrite <- !Hp. auto.
  - intros w Hw. rewrite <- Hp. intros HwS Hall. apply (Hmax w Hw HwS).
    intros u Hu. apply Hall. by rewrite <- Hp.
Qed.

Lemma maximal_cliqueb_spec G S :
  maximal_cliqueb G S = true ↔ S ≠ [] ∧ is_maximal_clique G S.
Proof.
  unfold maximal_cliqueb, is_maximal_clique, is_clique.
  rewrite !andb_true_iff, !bool_decide_eq_true, !forallb_forall.
  split.
  - intros [[[Hne Hnd] Hcl] Hmax]. split_and!; [done..| | |].
    + intros u Hu%list_elem_of_In. apply Hcl in Hu.
      apply andb_true_iff in Hu as [Hu _]. by apply bool_decide_eq_true in Hu.
    + intros u v Hu%list_elem_of_In Hv%list_elem_of_In Huv. apply Hcl in Hu.
      apply andb_true_iff in Hu as [_ Hu]. rewrite forallb_forall in Hu.
      apply Hu in Hv. apply orb_true_iff in Hv as [Hv|Hv].
      * by apply bool_decide_eq_true in Hv.
      * by apply adjb_spec.
    + intros w Hw%list_elem_of_In HwS Hall. apply Hmax in Hw.
      apply orb_true_iff in Hw as [Hw|Hw].
      * by apply bool_decide_eq_true in Hw.
      * apply negb_true_iff in Hw.
        assert (forallb (λ u, adjb G w u) S = true); [|congruence].
        apply forallb_forall. intros u Hu%list_elem_of_In.
        by apply adjb_spec, Hall.
  - intros (Hne & (Hnd & Hin & Hadj) & Hmax). split_and!; [done..| |].
    + intros u Hu%list_elem_of_In. apply andb_true_iff. split.
      * apply bool_decide_eq_true. auto.
      * apply forallb_forall. intros v Hv%list_elem_of_In.
        apply orb_true_iff. destruct (decide (u = v)) as [->|Hne'].
        -- left. by apply bool_decide_eq_true.
        -- right. apply adjb_spec. auto.
    + intros w Hw%list_elem_of_In. apply orb_true_iff.
      destruct (decide (w ∈ S)) as [HwS|HwS].
      * left. by apply bool_decide_eq_true.
      * right. apply negb_true_iff.
        destruct (forallb (λ u, adjb G w u) S) eqn:Hall; [|done].
        destruct (Hmax w Hw HwS). intros u Hu%list_elem_of_In.
        rewrite forallb_forall in Hall. by apply adjb_spec, Hall.
Qed.

Lemma filter_sublists (P : nat → Prop) `{!∀ x, Decision (P x)} l :
  filter P l ∈ sublists l.
Proof.
  induction l as [|a l IH]; simpl; [left|].
  rewrite filter_cons. apply elem_of_app. destruct (decide (P a)).
  - left. apply list_elem_of_fmap. eauto.
  - by right.
Qed.

(** The reference enumeration meets the contract. *)
Lemma find_cliques_ref_contract G :
  simple_graph G → find_cliques_contract find_cliques_ref G.
Proof.
  intros HG. split.
  - intros S [HS _]%list_elem_of_filter. by apply maximal_cliqueb_spec.
  - intros S Hne Hmax. exists (filter (λ x, x ∈ S) (nodes G)).
    assert (Hp : filter (λ x, x ∈ S) (nodes G) ≡ₚ S).
    { apply NoDup_Permutation.
      - apply NoDup_filter, HG.
      - apply Hmax.
      - intros x. rewrite list_elem_of_filter. split; [tauto|].
        intros Hx. split; [done|]. by apply Hmax. }
    split; [|done]. apply list_elem_of_filter. split; [|apply filter_sublists].
    apply maximal_cliqueb_spec. split.
    + intros Hnil. rewrite Hnil in Hp. by apply Permutation_nil in Hp.
    + by apply (is_maximal_clique_perm G S).
Qed.

(** The enumeration by neighbourhoods meets the contract as well. *)
Lemma find_cliques_local_contract G :
  simple_graph G → find_cliques_contract find_cliques_local G.
Proof.
  intros HG. unfold find_cliques_local. split.
  - intros S HS. apply elem_of_remove_dups, list_elem_of_join in HS
      as (l & HS & Hl).
    apply list_elem_of_fmap in Hl as (v & -> & _).
    apply list_elem_of_filter in HS as [HS _]. by apply maximal_cliqueb_spec.
  - intros S Hne Hmax. destruct S as [|v S0]; [done|].
    set (S := v :: S0) in *.
    destruct Hmax as [(Hnd & Hnodes & Hadj) Hmaxl].
    assert (Hv : v ∈ S) by left.
    set (N := closed_neighborhood G v).
    assert (HN : ∀ x, x ∈ S → x ∈ N).
    { intros x Hx. apply list_elem_of_filter. split; [|by apply Hnodes].
      destruct (decide (x = v)) as [|Hxv]; [by left|right].
      apply Hadj; [done|done|congruence]. }
    exists (filter (λ x, x ∈ S) N).
    assert (Hp : filter (λ x, x ∈ S) N ≡ₚ S).
    { apply NoDup_Permutation.
      - apply NoDup_filter, NoDup_filter, HG.
      - done.
      - intros x. rewrite list_elem_of_filter. split; [tauto|auto]. }
    split; [|done]. apply elem_of_remove_dups, list_elem_of_join.
    exists (filter (λ S, maximal_cliqueb G S = true) (sublists N)). split.
    + apply list_elem_of_filter. split; [|apply filter_sublists].
      apply maximal_cliqueb_spec. split.
      * intros Hnil. rewrite Hnil in Hp. by apply Permutation_nil in Hp.
      * apply (is_maximal_clique_perm G S); [done|]. by split.
    + apply list_elem_of_fmap. exists v. split; [done|]. by apply Hnodes.
Qed.

(** Every clique extends to a maximal one. *)
Lemma extend_clique_spec G C l :
  simple_graph G → is_clique G C → (∀ w, w ∈ l → w ∈ nodes G) →
  is_clique G (extend_clique G C l) ∧
  (∀ u, u ∈ C → u ∈ extend_clique G C l) ∧
  (∀ w, w ∈ l → w ∉ extend_clique G C l →
     ¬ ∀ u, u ∈ extend_clique G C l → adj G w u).
Proof.
  intros HG. revert C. unfold extend_clique.
  induction l as [|a l IH]; intros C HC Hl; simpl.
  - split_and!; [done..|]. intros w Hw. by apply elem_of_nil in Hw.
  - assert (Hl' : ∀ w, w ∈ l → w ∈ nodes G) by (intros; apply Hl; by right).
    case_decide as Ha.
    + destruct Ha as [HaC Hadj]. rewrite Forall_forall in Hadj.
      destruct (IH (a :: C)) as (Hcl & Hsub & Hmax); [|done|].
      { destruct HC as (Hnd & Hin & Hpair). split_and!.
        - by apply NoDup_cons.
        - intros u [->|Hu]%elem_of_cons; [apply Hl; left|auto].
        - intros u v [->|Hu]%elem_of_cons [->|Hv]%elem_of_cons Hne.
          + done.
          + auto.
          + apply sg_sym; auto.
          + auto. }
      split_and!; [done| |].
      * intros u Hu. apply Hsub. by right.
      * intros w [->|Hw]%elem_of_cons Hnot; [|auto].
        destruct Hnot. apply Hsub. left.
    + destruct (IH C HC Hl') as (Hcl & Hsub & Hmax).
      split_and!; [done..|].
      intros w [->|Hw]%elem_of_cons Hnot; [|auto].
      intros Hall. apply Ha. split.
      * intros HaC. apply Hnot. auto.
      * apply Forall_forall. intros u Hu. apply Hall. auto.
Qed.

Lemma maximal_clique_exists G a :
  simple_graph G → a ∈ nodes G → ∃ S, S ≠ [] ∧ is_maximal_clique G S.
Proof.
  intros HG Ha.
  destruct (extend_clique_spec G [a] (nodes G) HG) as (Hcl & Hsub & Hmax).
  { split_and!.
    - apply NoDup_singleton.
    - by intros u ->%list_elem_of_singleton.
    - intros u v ->%list_elem_of_singleton ->%list_elem_of_singleton. done. }
  { done. }
  exists (extend_clique G [a] (nodes G)). split.
  - intros Hnil. specialize (Hsub a). rewrite Hnil in Hsub.
    eapply elem_of_nil, Hsub. left.
  - split; [done|]. exact Hmax.
Qed.

Section find_max_clique.
Variable find_cliques : Graph → list (list nat).

End find_max_clique.


(** On two triangles joined by a bridge the maximum clique has three
    nodes. *)
Example find_max_clique_two_triangles :
  find_max_clique find_cliques_ref two_triangles = Ok [0; 1; 2].
Proof. vm_compute. reflexivity. Qed.

(** ** The render-state controller *)

Lemma setitem_Ok {A} i (x : A) l l' :
  setitem i x l = Ok l' ↔ i < length l ∧ l' = <[i:=x]> l.
Proof.
  unfold setitem. case_decide; split.
  - by intros [= <-].
  - by intros [_ ->].
  - done.
  - intros [? _]. lia.
Qed.

Lemma getitem_Ok {A} (l : list A) i x : getitem l i = Ok x ↔ l !! i = Some x.
Proof.
  unfold getitem. destruct (l !! i); split; try done.
  - by intros [= ->].
  - by intros [= ->].
Qed.

(** Writing one colour at the indices of [l]. *)
Lemma for_each_setitem_Ok (c : string) l cols cols' :
  for_each (λ n, setitem n c) l cols = Ok cols' →
  length cols' = length cols ∧
  (∀ n, n ∈ l → n < length cols ∧ cols' !! n = Some c) ∧
  (∀ n, n ∉ l → cols' !! n = cols !! n).
Proof.
  revert cols. induction l as [|a l IH]; intros cols; simpl.
  - intros [= <-]. split_and!; [done| |done].
    intros n Hn. by apply elem_of_nil in Hn.
  - intros (cols1 & [Ha ->]%setitem_Ok & Hrest)%bind_Ok.
    destruct (IH _ Hrest) as (Hlen & Hin & Hout).
    rewrite length_insert in Hlen, Hin. split_and!; [done| |].
    + intros n Hn. destruct (decide (n ∈ l)) as [Hnl|Hnl]; [auto|].
      apply elem_of_cons in Hn as [->|Hn]; [|done].
      split; [done|]. rewrite Hout by done. by apply list_lookup_insert_eq.
    + intros n [Hna Hnl]%not_elem_of_cons. rewrite Hout by done.
      by apply list_lookup_insert_ne.
Qed.

Lemma for_each_setitem_total (c : string) l cols :
  (∀ n, n ∈ l → n < length cols) →
  ∃ cols', for_each (λ n, setitem n c) l cols = Ok cols'.
Proof.
  revert cols. induction l as [|a l IH]; intros cols Hl; [by eexists|].
  rewrite for_each_cons.
  rewrite (proj2 (setitem_Ok a c cols _) (conj (Hl a ltac:(left)) eq_refl)).
  rewrite bind_Ok_l.
  apply IH. intros n Hn. rewrite length_insert. apply Hl. by right.
Qed.

(** Writing the colours of a colouring, given as its list of entries. *)
Lemma for_each_coloring_Ok (cm : list string) (kvs : list (nat * nat)) cols cols' :
  NoDup kvs.*1 →
  for_each (λ '(node, color_idx) colors,
              c ← getitem cm color_idx ; setitem node c colors) kvs cols
    = Ok cols' →
  length cols' = length cols ∧
  (∀ n idx, (n, idx) ∈ kvs →
     n < length cols ∧ is_Some (cm !! idx) ∧ cols' !! n = cm !! idx) ∧
  (∀ n, n ∉ kvs.*1 → cols' !! n = cols !! n).
Proof.
  revert cols. induction kvs as [|[a i] kvs IH]; intros cols Hnd; simpl.
  - intros [= <-]. split_and!; [done| |done].
    intros n idx Hn. by apply elem_of_nil in Hn.
  - apply NoDup_cons in Hnd as [Ha Hnd].
    intros (cols1 & (c & Hc%getitem_Ok & [Hlt ->]%setitem_Ok)%bind_Ok & Hrest)%bind_Ok.
    destruct (IH _ Hnd Hrest) as (Hlen & Hin & Hout).
    rewrite length_insert in Hlen, Hin. split_and!; [done| |].
    + intros n idx [[= -> ->]|Hn]%elem_of_cons; [|auto].
      split_and!; [done|by eauto|].
      rewrite Hout by done. rewrite Hc. by apply list_lookup_insert_eq.
    + intros n [Hna Hnl]%not_elem_of_cons. rewrite Hout by done.
      by apply list_lookup_insert_ne.
Qed.

Lemma for_each_coloring_total (cm : list string) (kvs : list (nat * nat)) cols :
  (∀ n idx, (n, idx) ∈ kvs → n < length cols ∧ idx < length cm) →
  ∃ cols', for_each (λ '(node, color_idx) colors,
                       c ← getitem cm color_idx ; setitem node c colors) kvs cols
           = Ok cols'.
Proof.
  revert cols. induction kvs as [|[a i] kvs IH]; intros cols Hl; [by eexists|].
  rewrite for_each_cons.
  destruct (Hl a i) as [Ha Hi]; [left|].
  apply lookup_lt_is_Some in Hi as [c Hc].
  rewrite (proj2 (getitem_Ok cm i c) Hc), bind_Ok_l.
  rewrite (proj2 (setitem_Ok a c cols _) (conj Ha eq_refl)), bind_Ok_l.
  apply IH. intros n idx Hn. rewrite length_insert. apply Hl. by right.
Qed.

Lemma mapM_Ok_length {A B} (f : A → result B) l r :
  mapM f l = Ok r → length r = length l.
Proof.
  revert r. induction l as [|a l IH]; intros r; simpl.
  - by intros [= <-].
  - intros (y & Hy & (k & Hk & [= <-])%bind_Ok)%bind_Ok. simpl. f_equal. auto.
Qed.

Lemma mapM_total {A B} (f : A → result B) l :
  (∀ x, x ∈ l → ∃ y, f x = Ok y) → ∃ r, mapM f l = Ok r.
Proof.
  induction l as [|a l IH]; intros Hf; simpl; [by eexists|].
  destruct (Hf a) as [y Hy]; [left|]. rewrite Hy. simpl.
  destruct IH as [r Hr]; [intros; apply Hf; by right|]. rewrite Hr. simpl.
  by eexists.
Qed.

Lemma get_color_map_length pal k cm : get_color_map pal k = Ok cm → length cm = k.
Proof.
  unfold get_color_map. case_decide as Hk.
  - intros [= <-]. rewrite length_take. lia.
  - intros Hm%mapM_Ok_length. by rewrite length_seq in Hm.
Qed.

Lemma get_color_map_total pal k :
  TABLEAU_COLORS pal ++ CSS4_COLORS pal ≠ [] →
  ∃ cm, get_color_map pal k = Ok cm.
Proof.
  intros Hne. unfold get_color_map. case_decide as Hk; [eauto|].
  apply mapM_total. intros i _.
  set (extended := TABLEAU_COLORS pal ++ CSS4_COLORS pal) in *.
  assert (length extended ≠ 0) by (by destruct extended).
  rewrite decide_False by done.
  assert (Hlt : i mod length extended < length extended)
    by (by apply Nat.mod_upper_bound).
  apply lookup_lt_is_Some in Hlt as [c Hc]. exists c. by apply getitem_Ok.
Qed.

Lemma elem_of_map_to_list_fst (m : gmap nat nat) n :
  n ∈ (map_to_list m).*1 ↔ is_Some (m !! n).
Proof.
  rewrite list_elem_of_fmap. split.
  - intros ([n' c] & -> & Hin%elem_of_map_to_list). eauto.
  - intros [c Hc]. exists (n, c). split; [done|]. by apply elem_of_map_to_list.
Qed.

Section draw.
Context (pal : Palette).

(** What a successful draw request hands to the canvas. *)
Lemma draw_graph_Ok hl title app app' :
  draw_graph pal hl title app = Ok app' →
  ∃ colors, app' = set_canvas (canvas app ++ [(colors, title)]) app ∧
            length colors = length (node_colors app) ∧
            ∀ n, n < length (node_colors app) →
                 colors !! n = composed pal app hl n.
Proof.
  unfold draw_graph.
  intros (c1 & H1 & (c2 & H2 & (c3 & H3 & (u & _ & [= <-])%bind_Ok)%bind_Ok)
            %bind_Ok)%bind_Ok.
  exists c3. split; [done|].
  (* the colouring layer *)
  assert (Hc1 : length c1 = length (node_colors app) ∧
                ∀ n, c1 !! n = coloring_layer pal app n (base_layer app n)).
  { unfold coloring_layer, color_map_of, base_layer.
    destruct (current_coloring app) as [m|]; [|by injection H1 as <-].
    destruct (decide (m = ∅)) as [->|Hne].
    { injection H1 as <-. split; [done|]. intros n. by rewrite lookup_empty. }
    apply bind_Ok in H1 as (cm & Hcm & H1). rewrite Hcm.
    apply for_each_coloring_Ok in H1 as (Hlen & Hin & Hout);
      [|apply NoDup_fst_map_to_list].
    split; [done|]. intros n. destruct (m !! n) as [idx|] eqn:Hn.
    - apply elem_of_map_to_list in Hn. by apply Hin in Hn as (_ & _ & ->).
    - apply Hout. rewrite elem_of_map_to_list_fst, Hn. by intros [? ?]. }
  destruct Hc1 as [Hl1 Hc1].
  (* the clique layer *)
  assert (Hc2 : length c2 = length (node_colors app) ∧
                ∀ n, n < length (node_colors app) →
                     c2 !! n = clique_layer app n (c1 !! n)).
  { unfold clique_layer.
    destruct (clique_nodes app) as [cl|]; [|by injection H2 as <-].
    apply for_each_setitem_Ok in H2 as (Hlen & Hin & Hout).
    split; [congruence|]. intros n Hn. case_decide as Hcl.
    - by apply Hin in Hcl as [_ ->].
    - by apply Hout. }
  destruct Hc2 as [Hl2 Hc2].
  (* the step highlights *)
  assert (Hc3 : length c3 = length (node_colors app) ∧
                ∀ n, n < length (node_colors app) →
                     c3 !! n = step_layer hl n (c2 !! n)).
  { unfold step_layer. destruct hl as [d|]; [|by injection H3 as <-].
    destruct (decide (d = ∅)) as [->|Hne].
    { injection H3 as <-. split; [done|]. intros n _.
      rewrite !lookup_empty.
      change (default [] (@None (list nat))) with (@nil nat).
      rewrite !decide_False by apply not_elem_of_nil. done. }
    apply bind_Ok in H3 as (cg & Hg & H3).
    apply for_each_setitem_Ok in Hg as (Hleng & Hing & Houtg).
    apply for_each_setitem_Ok in H3 as (Hlen & Hin & Hout).
    split; [congruence|]. intros n Hn. case_decide as Hlg.
    - by apply Hin in Hlg as [_ ->].
    - rewrite Hout by done. case_decide as Hgo.
      + by apply Hing in Hgo as [_ ->].
      + by apply Houtg. }
  destruct Hc3 as [Hl3 Hc3].
  split; [done|]. intros n Hn. unfold composed.
  rewrite Hc3, Hc2, Hc1 by done. done.
Qed.

(** A draw request returns only when the library accepts the list of
    colours. *)
Lemma draw_graph_Ok_size hl title app app' :
  draw_graph pal hl title app = Ok app' →
  G app = [] ∨ length (G app) = length (node_colors app).
Proof.
  intros Hrun. destruct (draw_graph_Ok _ _ _ _ Hrun) as (colors & Happ' & Hlen & _).
  unfold draw_graph in Hrun.
  apply bind_Ok in Hrun as (c1 & _ & (c2 & _ & (c3 & _ & (u & Hd & [= Hc])
                              %bind_Ok)%bind_Ok)%bind_Ok).
  assert (c3 = colors) as ->.
  { rewrite Happ' in Hc. unfold set_canvas in Hc.
    injection Hc as Hc%app_inj_tail. by destruct Hc as [_ [= ->]]. }
  unfold draw_networkx_nodes in Hd. rewrite <- Hlen.
  repeat case_decide; auto. done.
Qed.

Lemma max_list_values_ge (m : gmap nat nat) n idx :
  m !! n = Some idx → idx ≤ max_list (map_to_list m).*2.
Proof.
  intros Hn. apply max_list_elem_of_le, list_elem_of_fmap.
  exists (n, idx). split; [done|]. by apply elem_of_map_to_list.
Qed.

Lemma draw_graph_total hl title app :
  drawable pal hl app → ∃ app', draw_graph pal hl title app = Ok app'.
Proof.
  intros (Hsize & Hcol & Hcl & Hhl). unfold draw_graph.
  (* the colouring layer *)
  assert (∃ c1, match current_coloring app with
                | Some coloring =>
                    if decide (coloring = ∅) then Ok (node_colors app)
                    else
                      color_map ← get_color_map pal
                                    (max_list (map_to_list coloring).*2 + 1) ;
                      for_each (λ '(node, color_idx) colors,
                                  c ← getitem color_map color_idx ;
                                  setitem node c colors)
                               (map_to_list coloring) (node_colors app)
                | None => Ok (node_colors app)
                end = Ok c1 ∧ length c1 = length (node_colors app))
    as (c1 & -> & Hl1).
  { destruct (current_coloring app) as [m|] eqn:Em; [|by eauto].
    case_decide as Hne; [by eauto|].
    destruct (map_choose m Hne) as (n0 & i0 & Hn0).
    destruct (Hcol m n0 eq_refl) as [_ Hpal]; [by eauto|].
    destruct (get_color_map_total pal
                (max_list (map_to_list m).*2 + 1) Hpal) as [cm Hcm].
    rewrite Hcm. simpl.
    destruct (for_each_coloring_total cm (map_to_list m) (node_colors app))
      as [c1 Hc1].
    - intros n idx Hin%elem_of_map_to_list. split.
      + apply (Hcol m n eq_refl). eauto.
      + apply get_color_map_length in Hcm. rewrite Hcm.
        apply max_list_values_ge in Hin. lia.
    - exists c1. split; [done|].
      apply for_each_coloring_Ok in Hc1 as [? _]; [done|].
      apply NoDup_fst_map_to_list. }
  simpl.
  (* the clique layer *)
  assert (∃ c2, match clique_nodes app with
                | Some clique => for_each (λ n, setitem n "red") clique c1
                | None => Ok c1
                end = Ok c2 ∧ length c2 = length (node_colors app))
    as (c2 & -> & Hl2).
  { destruct (clique_nodes app) as [cl|] eqn:Ecl; [|by eauto].
    destruct (for_each_setitem_total "red" cl c1) as [c2 Hc2].
    - intros n Hn. rewrite Hl1. by eapply Hcl.
    - exists c2. split; [done|].
      apply for_each_setitem_Ok in Hc2 as [? _]. congruence. }
  simpl.
  (* the drawing of the nodes *)
  assert (Hnodes : ∀ c, length c = length (node_colors app) →
            ∃ app', (draw_networkx_nodes (G app) c ≫= λ _,
                       Ok (set_canvas (canvas app ++ [(c, title)]) app))
                    = Ok app').
  { intros c Hc. unfold draw_networkx_nodes.
    case_decide; [by eexists|]. rewrite decide_True by congruence.
    by eexists. }
  (* the step highlights *)
  destruct hl as [d|]; [|by apply Hnodes].
  case_decide; [by apply Hnodes|].
  destruct (for_each_setitem_total "gold" (default [] (d !! "gold")) c2)
    as [c3 Hc3].
  { intros n Hn. rewrite Hl2. destruct (d !! "gold") as [l|] eqn:Ed.
    - by eapply Hhl.
    - by apply elem_of_nil in Hn. }
  rewrite Hc3. simpl.
  apply for_each_setitem_Ok in Hc3 as [Hl3 _].
  destruct (for_each_setitem_total "lightgreen"
              (default [] (d !! "lightgreen")) c3) as [c4 Hc4].
  { intros n Hn. rewrite Hl3, Hl2. destruct (d !! "lightgreen") as [l|] eqn:Ed.
    - by eapply Hhl.
    - by apply elem_of_nil in Hn. }
  rewrite Hc4. simpl. apply Hnodes.
  apply for_each_setitem_Ok in Hc4 as [Hl4 _]. congruence.
Qed.
End draw.

(** ** The animation *)

Lemma alter_gold f g l : alter f "gold" (highlight g l) = highlight (f g) l.
Proof. unfold highlight. by rewrite alter_insert_eq. Qed.

Lemma alter_lightgreen f g l :
  alter f "lightgreen" (highlight g l) = highlight g (f l).
Proof.
  unfold highlight. rewrite alter_insert_ne by done.
  by rewrite alter_singleton_eq.
Qed.

Lemma highlight_gold g l : highlight g l !! "gold" = Some g.
Proof. unfold highlight. by rewrite lookup_insert_eq. Qed.

Lemma highlight_lightgreen g l : highlight g l !! "lightgreen" = Some l.
Proof.
  unfold highlight. rewrite lookup_insert_ne by done.
  by rewrite lookup_singleton_eq.
Qed.

Section animation.
Context (pal : Palette) (order : list (nat * nat)) (mode : string).

(** One frame: the draw request of the frame and, at the last frame, the
    request of the completed picture. *)
Lemma update_frame i app :
  i ≤ length order →
  update pal order mode i (app, step_at order (i - 1)) =
  app1 ← draw_graph pal (Some (step_at order i)) (frame_title mode order i) app ;
  if decide (i = length order) then
    app2 ← draw_graph pal (Some (step_done order)) (mode +:+ " Completed") app1 ;
    Ok (app2, step_done order)
  else Ok (app1, step_at order i).
Proof.
  intros Hi. unfold update. destruct i as [|j].
  - rewrite decide_False by lia. rewrite bind_Ok_l. simpl.
    destruct (draw_graph _ _ _ _) as [app1| |]; simpl; [|done..].
    repeat case_decide. all: try (exfalso; lia). all: try done.
    all: assert (order = []) as -> by (by destruct order).
    all: unfold step_at, step_done; simpl; rewrite alter_lightgreen; done.
  - rewrite decide_True by lia.
    destruct (lookup_lt_is_Some_2 order j) as [[node depth] Hj]; [lia|].
    replace (S j - 1) with j by lia.
    rewrite (proj2 (getitem_Ok order j (node, depth)) Hj), bind_Ok_l.
    assert (Hnode : order.*1 !! j = Some node).
    { by rewrite list_lookup_fmap, Hj. }
    assert (Hstep :
      (if decide (1 < S j) then
         '(prev_node, _) ← getitem order (S j - 2) ;
         Ok (alter (λ l, l ++ [prev_node]) "lightgreen"
               (alter (λ l, l ++ [node]) "gold" (step_at order j)))
       else Ok (alter (λ l, l ++ [node]) "gold" (step_at order j)))
      = Ok (step_at order (S j))).
    { unfold step_at. rewrite alter_gold, <- (take_S_r _ _ _ Hnode).
      replace (S j - 1) with j by lia.
      case_decide as Hj1.
      - destruct (lookup_lt_is_Some_2 order (S j - 2)) as [[prev pd] Hp]; [lia|].
        rewrite (proj2 (getitem_Ok order _ (prev, pd)) Hp), bind_Ok_l.
        rewrite alter_lightgreen. do 2 f_equal.
        assert (Hprev : order.*1 !! (j - 1) = Some prev).
        { rewrite list_lookup_fmap. replace (j - 1) with (S j - 2) by lia.
          by rewrite Hp. }
        rewrite <- (take_S_r _ _ _ Hprev). f_equal. lia.
      - do 2 f_equal. replace j with 0 by lia. done. }
    rewrite Hstep, !bind_Ok_l.
    assert (Htitle : frame_title mode order (S j) =
              mode +:+ " – Step " +:+ str_nat (S j) +:+ ": Node " +:+
              str_nat node +:+ " (Depth " +:+ str_nat depth +:+ ")").
    { unfold frame_title. by rewrite Hj. }
    rewrite <- Htitle.
    destruct (draw_graph _ _ _ _) as [app1| |]; simpl; [|done..].
    assert (Hd : S j = length order →
                 alter (λ l, l ++ order.*1) "lightgreen" (step_at order (S j))
                 = step_done order).
    { intros Hlen. unfold step_at, step_done. rewrite alter_lightgreen.
      rewrite take_ge by (rewrite length_fmap; lia).
      rewrite Hlen. done. }
    repeat case_decide. all: try (exfalso; lia). all: try done.
    all: rewrite Hd by done; done.
Qed.

Lemma play_prefix k app :
  k ≤ length order →
  for_each (update pal order mode) (seq 0 k) (app, step_at order 0) =
  app' ← draws pal ((λ i, (step_at order i, frame_title mode order i))
                      <$> seq 0 k) app ;
  Ok (app', step_at order (k - 1)).
Proof.
  induction k as [|k IH]; intros Hk; [done|].
  rewrite seq_S, fmap_app. unfold draws in *.
  rewrite !for_each_app, IH by lia.
  rewrite bind_assoc.
  destruct (for_each _ _ app) as [app1| |]; [|done..].
  cbn [fmap list_fmap]. rewrite !bind_Ok_l, !for_each_singleton.
  rewrite Nat.add_0_l, update_frame by lia.
  replace (S k - 1) with k by lia. cbv beta iota.
  destruct (draw_graph _ _ _ _) as [app2| |]; [|done..].
  rewrite !bind_Ok_l. by rewrite decide_False by lia.
Qed.

(** The frames of an animation are the draw requests [requests]. *)
Lemma play_requests app :
  play pal order mode (app, step0) =
  app' ← draws pal (requests mode order) app ; Ok (app', step_done order).
Proof.
  unfold play, requests.
  replace (length order + 1) with (S (length order)) by lia.
  rewrite seq_S, fmap_app. unfold draws.
  rewrite !for_each_app.
  change step0 with (step_at order 0).
  rewrite play_prefix by lia. unfold draws.
  rewrite !bind_assoc.
  destruct (for_each _ _ app) as [app1| |]; [|done..].
  cbn [fmap list_fmap]. rewrite !bind_Ok_l, !for_each_singleton.
  rewrite Nat.add_0_l, update_frame by lia. cbv beta iota.
  destruct (draw_graph _ _ _ _) as [app2| |]; [|done..].
  rewrite !bind_Ok_l. rewrite decide_True by done.
  rewrite for_each_singleton. cbv beta iota. by destruct (draw_graph _ _ _ _) as [app3| |].
Qed.
End animation.

(** ** The layers of a picture *)

Lemma step_layer_lightgreen hl n below :
  in_highlight hl "lightgreen" n → step_layer hl n below = Some "lightgreen".
Proof. intros (d & -> & Hn). unfold step_layer. by rewrite decide_True. Qed.

Lemma step_layer_gold hl n below :
  in_highlight hl "gold" n → ¬ in_highlight hl "lightgreen" n →
  step_layer hl n below = Some "gold".
Proof.
  intros (d & -> & Hn) Hlg. unfold step_layer.
  rewrite decide_False; [by rewrite decide_True|].
  intros Hn'. apply Hlg. by exists d.
Qed.

Lemma step_layer_none hl n below :
  ¬ in_highlight hl "gold" n → ¬ in_highlight hl "lightgreen" n →
  step_layer hl n below = below.
Proof.
  intros Hg Hlg. unfold step_layer. destruct hl as [d|]; [|done].
  rewrite !decide_False; [done| |].
  - intros Hn. apply Hg. by exists d.
  - intros Hn. apply Hlg. by exists d.
Qed.

Lemma highlight_lookup g l k x :
  highlight g l !! k = Some x → x = g ∨ x = l.
Proof.
  unfold highlight. intros [[_ <-]|[_ H]]%lookup_insert_Some; [by left|].
  apply lookup_singleton_Some in H as [_ <-]. by right.
Qed.

(** C4. A draw request that succeeds hands to the canvas, for every node,
    the colour composed from the layers in the fixed order base palette,
    colouring, clique highlight, transient step highlights, a later layer
    overriding the earlier ones: a highlighted node is light green or gold
    whatever its colouring and clique state, a clique node that is not
    highlighted is red also when it has a colour in the colouring, a coloured
    node outside of the clique and the highlights has the colour of its
    colour index, and every other node has its base colour.  The request
    succeeds when the graph has as many nodes as the base palette has
    entries and all the nodes that the request names have an entry in the
    base palette; it succeeds only when the graph has that many nodes, or
    none. *)
Theorem draw_graph_layers (pal : Palette)
    (hl : option (gmap string (list nat))) (title : string) (app : GraphApp) :
  (drawable pal hl app → ∃ app', draw_graph pal hl title app = Ok app') ∧
  ∀ app', draw_graph pal hl title app = Ok app' →
    (G app = [] ∨ length (G app) = length (node_colors app)) ∧
    ∃ colors,
      app' = set_canvas (canvas app ++ [(colors, title)]) app ∧
      length colors = length (node_colors app) ∧
      ∀ n, n < length (node_colors app) →
        colors !! n = composed pal app hl n ∧
        (in_highlight hl "lightgreen" n → colors !! n = Some "lightgreen") ∧
        (in_highlight hl "gold" n → ¬ in_highlight hl "lightgreen" n →
           colors !! n = Some "gold") ∧
        (∀ clique, clique_nodes app = Some clique → n ∈ clique →
           ¬ in_highlight hl "gold" n → ¬ in_highlight hl "lightgreen" n →
           colors !! n = Some "red") ∧
        (∀ coloring color_idx,
           current_coloring app = Some coloring →
           coloring !! n = Some color_idx →
           (∀ clique, clique_nodes app = Some clique → n ∉ clique) →
           ¬ in_highlight hl "gold" n → ¬ in_highlight hl "lightgreen" n →
           colors !! n = color_map_of pal app !! color_idx).
Proof.
  split; [apply draw_graph_total|].
  intros app' Hrun. split; [by eapply draw_graph_Ok_size|].
  apply draw_graph_Ok in Hrun as (colors & -> & Hlen & Hcol).
  exists colors. split; [done|]. split; [done|].
  intros n Hn. rewrite (Hcol n Hn).
  unfold composed. split_and!.
  - done.
  - apply step_layer_lightgreen.
  - apply step_layer_gold.
  - intros clique Hcl Hin Hg Hlg. rewrite step_layer_none by done.
    unfold clique_layer. rewrite Hcl. by rewrite decide_True.
  - intros coloring idx Hc Hidx Hcl Hg Hlg. rewrite step_layer_none by done.
    assert (clique_layer app n (coloring_layer pal app n (base_layer app n))
            = coloring_layer pal app n (base_layer app n)) as ->.
    { unfold clique_layer. destruct (clique_nodes app) as [cl|]; [|done].
      rewrite decide_False; [done|]. by apply Hcl. }
    unfold coloring_layer. by rewrite Hc, Hidx.
Qed.

Lemma busy_app_drawable : drawable pal3 (Some (highlight [0] [3])) busy_app.
Proof.
  split_and!.
  - reflexivity.
  - intros coloring n [=].
  - intros clique n [= <-] Hn. unfold busy_app, default_colors. simpl.
    apply (proj1 (list_elem_of_In _ _)) in Hn. simpl in Hn. lia.
  - intros d k l n [= <-] [-> | ->]%highlight_lookup Hn;
      apply (proj1 (list_elem_of_In _ _)) in Hn; simpl in *; lia.
Qed.

Lemma draw_graph_layers_witness :
  ∃ app', draw_graph pal3 (Some (highlight [0] [3])) "BFS" busy_app = Ok app'.
Proof.
  apply (proj1 (draw_graph_layers pal3 (Some (highlight [0] [3])) "BFS" busy_app)).
  apply busy_app_drawable.
Defined.

(** Node 0 is in the clique and is the current node of the step: it is
    drawn in gold; node 1 is in the clique only: it is drawn in red.  On
    the graph of four nodes the same request raises [ValueError]. *)
Example draw_graph_precedence :
  match draw_graph pal3 (Some (highlight [0] [3])) "BFS" busy_app with
  | Ok app' =>
      ∃ colors, last (canvas app') = Some (colors, "BFS") ∧
                colors !! 0 = Some "gold" ∧ colors !! 1 = Some "red" ∧
                colors !! 3 = Some "lightgreen" ∧ colors !! 4 = Some "lightblue"
  | _ => False
  end.
Proof. vm_compute. eexists. split; [reflexivity|]. done. Qed.

Example draw_graph_four_nodes :
  draw_graph pal3 (Some (highlight [0] [3])) "BFS"
    {| G := k3tail; anim_alive := true; anim := None;
       current_coloring := None; clique_nodes := Some [0; 1; 2];
       node_colors := default_colors; log := []; canvas := [] |}
  = Raise ValueError.
Proof. vm_compute. reflexivity. Qed.

(** ** The frames of an animation *)

Section frames.
Context (pal : Palette).

(** The pictures of a sequence of draw requests. *)
Lemma draws_Ok reqs app app' :
  draws pal reqs app = Ok app' →
  ∃ pics, app' = set_canvas (canvas app ++ pics) app ∧
          length pics = length reqs ∧
          ∀ i hl title, reqs !! i = Some (hl, title) →
            ∃ colors, pics !! i = Some (colors, title) ∧
                      ∀ n, n < length (node_colors app) →
                           colors !! n = composed pal app (Some hl) n.
Proof.
  unfold draws. revert app.
  induction reqs as [|[hl0 title0] reqs IH]; intros app.
  - intros [= <-]. exists []. split_and!; [|done|done].
    rewrite app_nil_r. by destruct app.
  - rewrite for_each_cons.
    intros (app1 & (colors & -> & Hlen & Hcol)%draw_graph_Ok & Hrest)%bind_Ok.
    destruct (IH _ Hrest) as (pics & -> & Hlen' & Hpics).
    exists ((colors, title0) :: pics). split_and!.
    + unfold set_canvas. simpl. by rewrite <- app_assoc.
    + simpl. by rewrite Hlen'.
    + intros [|i] hl title; simpl.
      * intros [= <- <-]. eauto.
      * intros Hi. apply (Hpics i hl title Hi).
Qed.

Lemma draws_total reqs app :
  (∀ hl title, (hl, title) ∈ reqs → drawable pal (Some hl) app) →
  ∃ app', draws pal reqs app = Ok app'.
Proof.
  unfold draws. revert app.
  induction reqs as [|[hl0 title0] reqs IH]; intros app Hd; [by eexists|].
  rewrite for_each_cons.
  destruct (draw_graph_total pal (Some hl0) title0 app) as [app1 Happ1].
  { apply (Hd hl0 title0). left. }
  rewrite Happ1, bind_Ok_l.
  apply draw_graph_Ok in Happ1 as (colors & -> & _).
  apply IH. intros hl title Hin. apply (Hd hl title). by right.
Qed.

Lemma drawable_sub g l g' l' app :
  drawable pal (Some (highlight g l)) app →
  (∀ n, n ∈ g' → n ∈ g ∨ n ∈ l) → (∀ n, n ∈ l' → n ∈ g ∨ n ∈ l) →
  drawable pal (Some (highlight g' l')) app.
Proof.
  intros (Hsize & Hcol & Hcl & Hhl) Hg Hl. split_and!; [done..|].
  intros d k x n [= <-] Hk Hn.
  assert (Hlt : ∀ m, m ∈ g ∨ m ∈ l → m < length (node_colors app)).
  { intros m [Hm|Hm].
    - eapply (Hhl _ "gold"); [done|apply highlight_gold|done].
    - eapply (Hhl _ "lightgreen"); [done|apply highlight_lightgreen|done]. }
  apply highlight_lookup in Hk as [-> | ->]; auto.
Qed.

Lemma requests_drawable mode order app hl title :
  drawable pal (Some (highlight order.*1 order.*1)) app →
  (hl, title) ∈ requests mode order → drawable pal (Some hl) app.
Proof.
  intros Hd. unfold requests. rewrite elem_of_app, list_elem_of_fmap.
  intros [(i & [= -> ->] & _)|[= -> ->]%list_elem_of_singleton].
  - unfold step_at. eapply drawable_sub; [done| |];
      intros n (j & Hj & _)%elem_of_take; left; by eapply list_elem_of_lookup_2.
  - unfold step_done. eapply drawable_sub; [done|by left|].
    intros n [(j & Hj & _)%elem_of_take|Hn]%elem_of_app; left;
      [by eapply list_elem_of_lookup_2|done].
Qed.

(** The first frame, drawn by [worker]: no node is highlighted. *)
Lemma composed_step0 order app n :
  composed pal app (Some (step_at order 0)) n = composed pal app None n.
Proof.
  unfold composed.
  apply step_layer_none; intros (d & [= <-] & Hn); unfold step_at in Hn.
  - rewrite highlight_gold in Hn. by apply elem_of_nil in Hn.
  - rewrite highlight_lightgreen in Hn. by apply elem_of_nil in Hn.
Qed.

Lemma worker_frame order mode app :
  worker pal order mode app =
  app1 ← draw_graph pal (Some (step_at order 0)) mode
            (set_anim (Some (order, mode)) app) ;
  if decide (0 = length order) then
    app2 ← draw_graph pal (Some (step_done order)) (mode +:+ " Completed") app1 ;
    Ok (set_anim_alive false app2, step_done order)
  else Ok (set_anim_alive false app1, step_at order 0).
Proof.
  unfold worker. change step0 with (step_at order (0 - 1)).
  rewrite update_frame by lia.
  change (frame_title mode order 0) with mode.
  destruct (draw_graph _ _ _ _) as [app1| |]; [|done..].
  rewrite !bind_Ok_l. case_decide; [|done].
  by destruct (draw_graph _ _ _ _) as [app2| |].
Qed.

(** [worker] draws the picture of frame 0 (and, for an empty traversal,
    the completed picture), clears the running flag and leaves the
    dictionary [step] as it was created. *)
Lemma worker_Ok order mode app app' step :
  worker pal order mode app = Ok (app', step) →
  step = step0 ∧
  ∃ pics colors,
    app' = set_anim_alive false
             (set_canvas (canvas app ++ pics)
                (set_anim (Some (order, mode)) app)) ∧
    length pics = (if decide (order = []) then 2 else 1) ∧
    pics !! 0 = Some (colors, mode) ∧
    ∀ n, n < length (node_colors app) → colors !! n = composed pal app None n.
Proof.
  rewrite worker_frame.
  intros (app1 & (colors & -> & Hlen & Hcol)%draw_graph_Ok & Hrest)%bind_Ok.
  assert (Hcolors : ∀ n, n < length (node_colors app) →
            colors !! n = composed pal app None n).
  { intros n Hn. rewrite (Hcol n Hn), composed_step0. done. }
  case_decide as Hlen0.
  - apply bind_Ok in Hrest as (app2 & (c2 & -> & _)%draw_graph_Ok & [= <- <-]).
    assert (order = []) as -> by (by destruct order).
    split; [done|]. exists [(colors, mode); (c2, mode +:+ " Completed")], colors.
    split_and!; try done. simpl. by rewrite <- app_assoc.
  - injection Hrest as <- <-. split; [done|].
    exists [(colors, mode)], colors.
    split_and!; try done. by destruct order.
Qed.

Lemma worker_total order mode app :
  drawable pal None app → ∃ app', worker pal order mode app = Ok (app', step0).
Proof.
  intros (Hsize & Hcol & Hcl & _).
  assert (Hd : ∀ app1 : GraphApp,
            G app1 = G app → node_colors app1 = node_colors app →
            current_coloring app1 = current_coloring app →
            clique_nodes app1 = clique_nodes app →
            ∀ g l, (∀ n : nat, n ∉ g) → (∀ n : nat, n ∉ l) →
            drawable pal (Some (highlight g l)) app1).
  { intros app1 EG En Ec Ek g l Hg Hl. unfold drawable.
    rewrite EG, En, Ec, Ek. split_and!; [done..|].
    intros d k x n [= <-] [-> | ->]%highlight_lookup Hn;
      [by apply Hg in Hn|by apply Hl in Hn]. }
  rewrite worker_frame.
  destruct (draw_graph_total pal (Some (step_at order 0)) mode
              (set_anim (Some (order, mode)) app)) as [app1 Happ1].
  { apply Hd; try done; intros n Hn; by apply elem_of_nil in Hn. }
  rewrite Happ1, bind_Ok_l.
  apply draw_graph_Ok in Happ1 as (colors & -> & _).
  case_decide as Hlen0; [|by eexists].
  assert (order = []) as -> by (by destruct order).
  match goal with
  | |- context [draw_graph pal ?h ?t ?a] =>
      destruct (draw_graph_total pal h t a) as [app2 Happ2]
  end.
  { apply Hd; try done; intros n Hn; by apply elem_of_nil in Hn. }
  rewrite Happ2, bind_Ok_l. by eexists.
Qed.
End frames.

(** C9. For an animation over a traversal result [order], the frames
    [0 .. len] that the timer delivers issue the draw requests [requests]:
    frame 0 has no highlight and the mode as its title; frame [i], for
    [1 ≤ i ≤ len], has the [i]-th node among the gold ones and shows it in
    gold when the nodes of [order] are distinct, shows the [(i-1)]-th node in
    light green when [i > 1], and has the title that states the step, the
    node and the depth; after frame [len] one more picture shows every
    traversed node in light green under the completion title.  The frames
    change the canvas only, the running flag stays as it is.  For an
    animation started by [animate_traversal] the flag is cleared when
    [worker] returns, after it has drawn the first picture and before the
    timer has delivered a frame: from then on [animate_traversal] accepts
    another animation, and the flag is clear both before and after the last
    frame. *)
Theorem animation_frames (pal : Palette) (order : list (nat * nat))
    (mode : string) (app : GraphApp) :
  play pal order mode (app, step0) =
    (app' ← draws pal (requests mode order) app ; Ok (app', step_done order)) ∧
  (drawable pal (Some (highlight order.*1 order.*1)) app →
     ∃ app' step, play pal order mode (app, step0) = Ok (app', step)) ∧
  (∀ app' step, play pal order mode (app, step0) = Ok (app', step) →
     anim_alive app' = anim_alive app ∧
     ∃ pics,
       app' = set_canvas (canvas app ++ pics) app ∧
       length pics = length order + 2 ∧
       (∀ i, i ≤ length order →
          ∃ colors, pics !! i = Some (colors, frame_title mode order i) ∧
                    ∀ n, n < length (node_colors app) →
                         colors !! n = composed pal app (Some (step_at order i)) n) ∧
       (∃ colors, pics !! (length order + 1) = Some (colors, mode +:+ " Completed") ∧
                  ∀ n, n < length (node_colors app) →
                       colors !! n = composed pal app (Some (step_done order)) n)) ∧
  (frame_title mode order 0 = mode ∧
   ∀ n, composed pal app (Some (step_at order 0)) n = composed pal app None n) ∧
  (∀ i node depth, order !! i = Some (node, depth) →
     frame_title mode order (S i) =
       mode +:+ " – Step " +:+ str_nat (S i) +:+ ": Node " +:+ str_nat node +:+
       " (Depth " +:+ str_nat depth +:+ ")" ∧
     in_highlight (Some (step_at order (S i))) "gold" node ∧
     (NoDup order.*1 →
        composed pal app (Some (step_at order (S i))) node = Some "gold") ∧
     (∀ prev depth', 0 < i → order !! (i - 1) = Some (prev, depth') →
        composed pal app (Some (step_at order (S i))) prev = Some "lightgreen")) ∧
  (∀ n, n ∈ order.*1 →
     composed pal app (Some (step_done order)) n = Some "lightgreen") ∧
  (anim_alive app = false →
   let started := animate_traversal order mode app in
   anim_alive started = true ∧
   (drawable pal (Some (highlight order.*1 order.*1)) started →
      ∃ returned final step,
        worker pal order mode started = Ok (returned, step0) ∧
        play pal order mode (returned, step0) = Ok (final, step)) ∧
   ∀ returned step0', worker pal order mode started = Ok (returned, step0') →
     step0' = step0 ∧
     anim_alive returned = false ∧
     length (canvas returned) =
       length (canvas app) + (if decide (order = []) then 2 else 1) ∧
     (∀ order' mode',
        anim_alive (animate_traversal order' mode' returned) = true ∧
        log (animate_traversal order' mode' returned) = log app) ∧
     ∀ final step, play pal order mode (returned, step0) = Ok (final, step) →
       anim_alive final = false ∧
       length (canvas final) = length (canvas returned) + length order + 2).
Proof.
  assert (Hplay : ∀ app0 app' step,
            play pal order mode (app0, step0) = Ok (app', step) →
            ∃ pics, app' = set_canvas (canvas app0 ++ pics) app0 ∧
                    length pics = length order + 2).
  { intros app0 app' step. rewrite play_requests.
    intros (app1 & Hdraws & [= <- <-])%bind_Ok.
    apply draws_Ok in Hdraws as (pics & -> & Hlen & _). exists pics.
    split; [done|]. rewrite Hlen. unfold requests.
    rewrite length_app, length_fmap, length_seq. simpl. lia. }
  assert (Htotal : ∀ app0, drawable pal (Some (highlight order.*1 order.*1)) app0 →
            ∃ app' step, play pal order mode (app0, step0) = Ok (app', step)).
  { intros app0 Hd. rewrite play_requests.
    destruct (draws_total pal (requests mode order) app0) as [app' Happ'].
    { intros hl title. by apply requests_drawable. }
    rewrite Happ'. by eexists _, _. }
  split_and!.
  - apply play_requests.
  - apply Htotal.
  - intros app' step. rewrite play_requests.
    intros (app1 & Hdraws & [= <- <-])%bind_Ok.
    apply draws_Ok in Hdraws as (pics & -> & Hlen & Hpics).
    split; [done|]. exists pics.
    assert (Hreqlen : length (requests mode order) = length order + 2).
    { unfold requests. rewrite length_app, length_fmap, length_seq. simpl. lia. }
    split_and!; [done|lia| |].
    + intros i Hi. apply Hpics. unfold requests.
      rewrite lookup_app_l by (rewrite length_fmap, length_seq; lia).
      rewrite list_lookup_fmap, lookup_seq_lt by lia. done.
    + apply Hpics. unfold requests.
      rewrite lookup_app_r by (rewrite length_fmap, length_seq; lia).
      rewrite length_fmap, length_seq.
      replace (length order + 1 - (length order + 1)) with 0 by lia. done.
  - done.
  - apply composed_step0.
  - intros i node depth Hi.
    assert (Hnode : order.*1 !! i = Some node) by (by rewrite list_lookup_fmap, Hi).
    assert (Hgold : in_highlight (Some (step_at order (S i))) "gold" node).
    { eexists. split; [done|]. unfold step_at. rewrite highlight_gold. simpl.
      apply elem_of_take. exists i. split; [done|lia]. }
    split_and!.
    + unfold frame_title. by rewrite Hi.
    + done.
    + intros Hnd. unfold composed. apply step_layer_gold; [done|].
      intros (d & [= <-] & Hn). unfold step_at in Hn.
      rewrite highlight_lightgreen in Hn. simpl in Hn.
      apply elem_of_take in Hn as (j & Hj & Hlt).
      assert (j = i) by (by eapply NoDup_lookup). lia.
    + intros prev depth' Hpos Hprev. unfold composed.
      apply step_layer_lightgreen. eexists. split; [done|].
      unfold step_at. rewrite highlight_lightgreen. simpl.
      apply elem_of_take. exists (i - 1). split; [|lia].
      by rewrite list_lookup_fmap, Hprev.
  - intros n Hn. unfold composed. apply step_layer_lightgreen.
    eexists. split; [done|]. unfold step_done.
    rewrite highlight_lightgreen. simpl. apply elem_of_app. by right.
  - intros Hidle. unfold animate_traversal. rewrite Hidle. cbv zeta.
    set (started := set_anim_alive true
                      (set_clique_nodes None (set_node_colors default_colors app))).
    split; [done|]. split.
    + intros Hd.
      destruct (worker_total pal order mode started) as [returned Hret].
      { destruct Hd as (Hsize & Hcol & Hcl & _). split_and!; [done..|].
        intros hl k l n [=]. }
      destruct (worker_Ok pal _ _ _ _ _ Hret) as (_ & pics & colors & Eret & _).
      destruct (Htotal returned) as (final & step & Hfinal).
      { rewrite Eret. destruct Hd as (Hsize & Hcol & Hcl & Hhl).
        split_and!; done. }
      by exists returned, final, step.
    + intros returned step0' Hret.
      destruct (worker_Ok pal _ _ _ _ _ Hret)
        as (-> & pics & colors & -> & Hlen & _).
      split_and!; [done|done| |done|].
      * simpl. rewrite length_app, Hlen. done.
      * intros final step (pics' & -> & Hlen')%Hplay. simpl.
        split; [done|]. rewrite !length_app. lia.
Qed.

Lemma idle_app_drawable :
  drawable pal3 (Some (highlight [0; 1; 2; 3] [0; 1; 2; 3]))
    (animate_traversal [(0, 0); (1, 1); (2, 1); (3, 2)] "BFS" idle_app).
Proof.
  split_and!.
  - reflexivity.
  - intros coloring n [=].
  - intros clique n [=].
  - intros d k l n [= <-] [-> | ->]%highlight_lookup Hn;
      apply (proj1 (list_elem_of_In _ _)) in Hn; simpl in *; lia.
Qed.

Lemma animation_frames_witness :
  ∃ returned final step,
    worker pal3 [(0, 0); (1, 1); (2, 1); (3, 2)] "BFS"
      (animate_traversal [(0, 0); (1, 1); (2, 1); (3, 2)] "BFS" idle_app)
    = Ok (returned, step0) ∧
    play pal3 [(0, 0); (1, 1); (2, 1); (3, 2)] "BFS" (returned, step0)
    = Ok (final, step).
Proof.
  destruct (animation_frames pal3 [(0, 0); (1, 1); (2, 1); (3, 2)] "BFS" idle_app)
    as (_ & _ & _ & _ & _ & _ & Hflag).
  destruct (Hflag eq_refl) as (_ & Htotal & _).
  apply Htotal, idle_app_drawable.
Defined.

(** Run BFS, and Run DFS as soon as [worker] has returned: one picture of
    the first animation has been drawn and its frames are still to come,
    yet the running flag is clear and the second request starts an
    animation of its own; the frames of the first animation, played from
    there, leave the flag clear. *)
Example second_animation_accepted :
  match run_bfs idle_app with
  | Ok started =>
      match worker pal3 [(0, 0); (1, 1); (2, 1); (3, 2)] "BFS" started with
      | Ok (returned, step) =>
          match run_dfs returned,
                play pal3 [(0, 0); (1, 1); (2, 1); (3, 2)] "BFS" (returned, step)
          with
          | Ok second, Ok (final, _) =>
              bfs_with_depth k3tail34 0 = Ok [(0, 0); (1, 1); (2, 1); (3, 2)] ∧
              anim_alive started = true ∧
              anim_alive returned = false ∧
              length (canvas returned) = 1 ∧
              anim_alive second = true ∧
              last (log second) = Some "DFS order: [0, 1, 2, 3] (4 nodes)" ∧
              anim_alive final = false ∧
              length (canvas final) = 7
          | _, _ => False
          end
      | _ => False
      end
  | _ => False
  end.
Proof. vm_compute. done. Qed.

(** ** Requests made while an animation is running *)

(** [animate_traversal] itself rejects the request and changes nothing but
    the log. *)
Lemma animate_traversal_rejects order mode app :
  anim_alive app = true →
  animate_traversal order mode app =
  log_msg app "Animation is already running. Wait until it finishes.".
Proof. intros Halive. unfold animate_traversal. by rewrite Halive. Qed.

(** [run_coloring] tests the running flag before it changes anything. *)
Lemma run_coloring_rejects pal app :
  anim_alive app = true →
  run_coloring pal app =
  Ok (log_msg app "Wait for any running animation to finish before coloring.").
Proof. intros Halive. unfold run_coloring. by rewrite Halive. Qed.

(** [run_bfs] and [run_dfs] clear the colouring and the clique highlight
    before [animate_traversal] tests the running flag. *)
Lemma run_bfs_busy app app' :
  anim_alive app = true → run_bfs app = Ok app' →
  current_coloring app' = None ∧ clique_nodes app' = None ∧
  node_colors app' = node_colors app ∧ anim_alive app' = true.
Proof.
  intros Halive. unfold run_bfs.
  intros (order & _ & [= <-])%bind_Ok.
  rewrite animate_traversal_rejects by done. done.
Qed.

Lemma run_dfs_busy app app' :
  anim_alive app = true → run_dfs app = Ok app' →
  current_coloring app' = None ∧ clique_nodes app' = None ∧
  node_colors app' = node_colors app ∧ anim_alive app' = true.
Proof.
  intros Halive. unfold run_dfs.
  intros (order & _ & [= <-])%bind_Ok.
  rewrite animate_traversal_rejects by done. done.
Qed.

(** C3. Run BFS, then Check Clique while
    the animation is running, then Run BFS again: the second request is
    rejected with the notice, the running flag stays set, but the clique
    highlight that was there is gone, and the next frame of the first
    animation is drawn without it. *)
Theorem run_bfs_while_animating_clears_clique :
  match run_bfs idle_app with
  | Ok started =>
      match check_clique pal3 find_cliques_local started with
      | Ok highlighted =>
          match run_bfs highlighted with
          | Ok again =>
              anim_alive highlighted = true ∧
              clique_nodes highlighted = Some [0; 1; 2] ∧
              last (log again) =
                Some "Animation is already running. Wait until it finishes." ∧
              anim_alive again = true ∧
              clique_nodes again = None ∧
              bfs_with_depth k3tail34 0 = Ok [(0, 0); (1, 1); (2, 1); (3, 2)] ∧
              composed pal3 highlighted
                (Some (step_at [(0, 0); (1, 1); (2, 1); (3, 2)] 1)) 1
                = Some "red" ∧
              composed pal3 again
                (Some (step_at [(0, 0); (1, 1); (2, 1); (3, 2)] 1)) 1
                = Some "lightblue"
          | _ => False
          end
      | _ => False
      end
  | _ => False
  end.
Proof. vm_compute. done. Qed.

(** ** The empty graph *)

(** On the graph without nodes the traversals raise [NetworkXError] and
    [find_max_clique] raises [ValueError]. *)
Lemma empty_graph_raises :
  bfs_with_depth [] 0 = Raise NetworkXError ∧
  dfs_with_depth [] 0 = Raise NetworkXError ∧
  find_max_clique find_cliques_ref [] = Raise ValueError.
Proof. vm_compute. done. Qed.

(** C8. On the graph without nodes [has_cycle] returns false and
    [greedy_coloring] returns the empty colouring; a traversal has no start
    node to begin at, and raises [NetworkXError] for every start. *)
Theorem empty_graph_outcomes :
  has_cycle [] = Ok false ∧
  greedy_coloring [] = Ok ∅ ∧
  ∀ start, bfs_with_depth [] start = Raise NetworkXError ∧
           dfs_with_depth [] start = Raise NetworkXError.
Proof. split_and!; done. Qed.

(** * Further properties of the algorithms *)

(** ** Walks *)

Lemma walk_sym G s v k : simple_graph G → walk G s v k → walk G v s k.
Proof.
  intros HG. induction 1 as [Hs|v w k Hw IH Hvw].
  - by constructor.
  - apply walk_prepend with v; [by apply sg_sym|done].
Qed.

Lemma walk_trans G s u v k j : walk G s u k → walk G u v j → walk G s v (k + j).
Proof.
  intros Hsu. induction 1 as [Hu|v w j Hw IH Hvw].
  - by rewrite Nat.add_0_r.
  - rewrite Nat.add_succ_r. by apply walk_step with v.
Qed.

Lemma reachable_sym G s v : simple_graph G → reachable G s v → reachable G v s.
Proof. intros HG [k Hk]. exists k. by apply walk_sym. Qed.

Lemma reachable_trans G s u v :
  reachable G s u → reachable G u v → reachable G s v.
Proof. intros [k Hk] [j Hj]. exists (k + j). by eapply walk_trans. Qed.

(** ** The traversals *)

(** The result of [dfs_with_depth] as the pre-order of a discovery tree. *)
Lemma dfs_with_depth_tree G s :
  simple_graph G → s ∈ nodes G →
  ∃ t, dfs_with_depth G s = Ok (preorder 0 t) ∧ root t = s ∧ dfs_tree G t ∧
       NoDup (preorder 0 t).*1 ∧
       ∀ v, v ∈ (preorder 0 t).*1 ↔ reachable G s v.
Proof.
  intros HG Hs.
  destruct (dfs_rec_spec G HG (S (length G)) s 0 ∅ [])
    as (V' & t & Hrun & Hroot & Htree & HV' & Hnd & Hreach & Hclosed);
    try done.
  { intros v. simpl. set_solver. }
  { constructor. }
  { apply Nat.lt_succ_r. etrans; [apply length_filter|].
    unfold nodes. by rewrite length_fmap. }
  simpl in HV', Hnd. exists t. unfold dfs_with_depth. rewrite Hrun.
  split_and!; try done.
  intros v. split; [auto|]. intros [k Hk].
  induction Hk as [_|v w k Hw IH Hvw].
  - destruct t as [r cs]. simpl in *. subst r. left.
  - specialize (Hclosed _ _ IH Hvw). apply HV' in Hclosed. set_solver.
Qed.

Lemma tree_ind' (P : tree → Prop) :
  (∀ v ts, Forall P ts → P (Node v ts)) → ∀ t, P t.
Proof.
  intros H. fix IH 1. intros [v ts]. apply H.
  induction ts as [|t ts IHts]; constructor; [apply IH|apply IHts].
Qed.

(** The depth recorded for a node is the length of the walk that leads to
    it in the tree. *)
Lemma preorder_walk G t :
  simple_graph G → ∀ depth v d,
  dfs_tree G t → root t ∈ nodes G → (v, d) ∈ preorder depth t →
  ∃ k, d = depth + k ∧ walk G (root t) v k.
Proof.
  intros HG. induction t as [r ts IH] using tree_ind'.
  intros depth v d Ht Hr Hin. inversion Ht as [r' ts' Hts Hsorted]; subst.
  simpl in Hin. apply elem_of_cons in Hin as [[= -> ->]|Hin].
  - exists 0. split; [lia|]. by constructor.
  - apply list_elem_of_join in Hin as (l & Hin & Hl).
    apply list_elem_of_fmap in Hl as (c & -> & Hc).
    rewrite Forall_forall in IH, Hts.
    destruct (Hts c Hc) as [Hadj Hct].
    destruct (IH c Hc (S depth) v d Hct) as (k & -> & Hk); [|done|].
    { by eapply sg_closed. }
    exists (S k). split; [lia|]. simpl. by apply walk_prepend with (root c).
Qed.

(** A graph is connected when a breadth-first traversal returns all its
    nodes. *)
Lemma connected_by_bfs G s R :
  simple_graph G → s ∈ nodes G → bfs_with_depth G s = Ok R →
  (∀ v, v ∈ nodes G → v ∈ R.*1) → connected G.
Proof.
  intros HG Hs HR Hall.
  destruct (bfs_with_depth_inv G s HG Hs) as (Vb & R' & Hbfs & Hinv & _).
  rewrite HR in Hbfs. injection Hbfs as <-.
  intros u v Hu%Hall Hv%Hall.
  apply (bfs_final_reachable G s Vb R _ Hinv) in Hu, Hv.
  eapply reachable_trans; [|done]. by apply reachable_sym.
Qed.

(** X1. A traversal from a start that is not a node of the graph raises
    [NetworkXError], whatever the graph. *)
Theorem traversal_start_missing (G : Graph) (start : nat) :
  start ∉ nodes G →
  bfs_with_depth G start = Raise NetworkXError ∧
  dfs_with_depth G start = Raise NetworkXError.
Proof.
  intros Hs. unfold bfs_with_depth, dfs_with_depth. simpl.
  rewrite neighbors_not_node by done. done.
Qed.

Lemma traversal_start_missing_witness :
  bfs_with_depth path3 7 = Raise NetworkXError ∧
  dfs_with_depth path3 7 = Raise NetworkXError.
Proof.
  apply (traversal_start_missing path3 7).
  intros H. repeat (apply elem_of_cons in H as [H|H]; [discriminate|]).
  by apply elem_of_nil in H.
Defined.

(** X2. The two traversals of an undirected simple graph from a node of
    the graph visit the same nodes, and the depth that [dfs_with_depth]
    records for a node is at least the depth that [bfs_with_depth] records
    for it. *)
Theorem dfs_depth_ge_bfs_depth (G : Graph) (s : nat) :
  simple_graph G → s ∈ nodes G →
  ∃ Rd Rb, dfs_with_depth G s = Ok Rd ∧ bfs_with_depth G s = Ok Rb ∧
           Rd.*1 ≡ₚ Rb.*1 ∧
           ∀ v d d', (v, d) ∈ Rd → (v, d') ∈ Rb → d' ≤ d.
Proof.
  intros HG Hs.
  destruct (dfs_with_depth_tree G s HG Hs) as (t & Hdfs & Hroot & Ht & Hnd & Hr).
  destruct (bfs_with_depth_inv G s HG Hs) as (Vb & Rb & Hbfs & Hinv & _).
  exists (preorder 0 t), Rb. split_and!; [done..| |].
  - apply NoDup_Permutation; [done| |].
    + pose proof (bi_nodup _ _ _ _ _ Hinv) as H. by rewrite app_nil_r in H.
    + intros v. by rewrite Hr, (bfs_final_reachable G s Vb Rb v Hinv).
  - intros v d d' Hd Hd'.
    destruct (preorder_walk G t HG 0 v d Ht) as (k & -> & Hk); [by subst|done|].
    rewrite Hroot in Hk.
    destruct (bfs_final_distance G s Vb Rb v d' Hinv Hd') as [_ Hmin].
    apply Hmin in Hk. lia.
Qed.

Lemma dfs_depth_ge_bfs_depth_witness :
  ∃ Rd Rb, dfs_with_depth k3tail 0 = Ok Rd ∧ bfs_with_depth k3tail 0 = Ok Rb ∧
           Rd.*1 ≡ₚ Rb.*1 ∧
           ∀ v d d', (v, d) ∈ Rd → (v, d') ∈ Rb → d' ≤ d.
Proof.
  apply (dfs_depth_ge_bfs_depth k3tail 0).
  - by apply simple_graphb_spec.
  - vm_compute. left.
Defined.

(** X3. A traversal of an undirected simple graph from one of its nodes
    returns every node of the graph exactly when the graph is connected. *)
Theorem traversal_covers_iff_connected (G : Graph) (s : nat) :
  simple_graph G → s ∈ nodes G →
  ∃ Rb Rd, bfs_with_depth G s = Ok Rb ∧ dfs_with_depth G s = Ok Rd ∧
           (Rb.*1 ≡ₚ nodes G ↔ connected G) ∧
           (Rd.*1 ≡ₚ nodes G ↔ connected G).
Proof.
  intros HG Hs.
  destruct (dfs_with_depth_tree G s HG Hs) as (t & Hdfs & _ & _ & Hnd & Hr).
  destruct (bfs_with_depth_inv G s HG Hs) as (Vb & Rb & Hbfs & Hinv & _).
  pose proof (bi_nodup _ _ _ _ _ Hinv) as Hndb. rewrite app_nil_r in Hndb.
  pose proof (λ v, bfs_final_reachable G s Vb Rb v Hinv) as Hrb.
  assert (Hcover : ∀ L : list nat, NoDup L → (∀ v, v ∈ L ↔ reachable G s v) →
            L ≡ₚ nodes G ↔ connected G).
  { intros L HL Hreach. split.
    - intros Hp u v Hu Hv. rewrite <- Hp in Hu, Hv.
      apply Hreach in Hu, Hv.
      eapply reachable_trans; [|done]. by apply reachable_sym.
    - intros Hc. apply NoDup_Permutation; [done|apply HG|].
      intros v. rewrite Hreach. split.
      + intros [k Hk]. by eapply walk_node_r.
      + intros Hv. by apply Hc. }
  exists Rb, (preorder 0 t). split_and!; [done|done|by apply Hcover..].
Qed.

Lemma traversal_covers_iff_connected_witness :
  ∃ Rb Rd, bfs_with_depth two_triangles 0 = Ok Rb ∧
           dfs_with_depth two_triangles 0 = Ok Rd ∧
           (Rb.*1 ≡ₚ nodes two_triangles ↔ connected two_triangles) ∧
           (Rd.*1 ≡ₚ nodes two_triangles ↔ connected two_triangles).
Proof.
  apply (traversal_covers_iff_connected two_triangles 0).
  - by apply simple_graphb_spec.
  - vm_compute. left.
Defined.

(** ** Greedy colouring *)

Lemma below_image_le {A} (f : A → option nat) (l : list A) (c : nat) :
  (∀ c', c' < c → ∃ u, u ∈ l ∧ f u = Some c') → c ≤ length l.
Proof.
  intros H. trans (size (list_to_set (f <$> l) : gset (option nat))).
  - apply size_below. intros c' Hc'. destruct (H c' Hc') as (u & Hu & Hf).
    apply elem_of_list_to_set, list_elem_of_fmap. by exists u.
  - etrans; [apply size_list_to_set_le|]. by rewrite length_fmap.
Qed.

(** X4. [greedy_coloring] gives a colour to every node of the graph; the
    colour of a node is at most the number of the neighbours of the node
    that have a smaller identity, and a node all of whose neighbours have a
    greater identity has colour 0. *)
Theorem greedy_coloring_earlier_neighbors (G : Graph) :
  simple_graph G →
  ∃ m, greedy_coloring G = Ok m ∧
       (∀ v, is_Some (m !! v) ↔ v ∈ nodes G) ∧
       (∀ v ns, neighbors G v = Ok ns →
          ∃ c, m !! v = Some c ∧ c ≤ length (filter (λ u, u < v) ns)) ∧
       (∀ v, v ∈ nodes G → (∀ u, adj G v u → v < u) → m !! v = Some 0).
Proof.
  intros HG. destruct (greedy_loop_spec G HG) as (m & Hrun & Hdom & Hff).
  exists m. split; [done|]. split; [done|].
  assert (Hbound : ∀ v c ns, m !! v = Some c → neighbors G v = Ok ns →
            c ≤ length (filter (λ u, u < v) ns)).
  { intros v c ns Hc Hns. destruct (Hff v c Hc) as [[_ Hlow] _].
    apply (below_image_le (λ u, m !! u)). intros c' Hc'.
    destruct (Hlow c' Hc') as (u & (ns' & Hns' & Hu) & Hlt & Hcu).
    rewrite Hns in Hns'. injection Hns' as <-.
    exists u. split; [|done]. by apply list_elem_of_filter. }
  split.
  - intros v ns Hns.
    destruct (proj2 (Hdom v)) as [c Hc]; [by eapply neighbors_node|].
    exists c. split; [done|]. by eapply Hbound.
  - intros v [c Hc]%Hdom Hgt. rewrite Hc. f_equal.
    destruct (Hff v c Hc) as [[_ Hlow] _].
    destruct c as [|c]; [done|].
    destruct (Hlow 0) as (u & Hadj & Hlt & _); [lia|].
    apply Hgt in Hadj. lia.
Qed.

Lemma greedy_coloring_earlier_neighbors_witness :
  ∃ m, greedy_coloring k3tail = Ok m ∧
       (∀ v, is_Some (m !! v) ↔ v ∈ nodes k3tail) ∧
       (∀ v ns, neighbors k3tail v = Ok ns →
          ∃ c, m !! v = Some c ∧ c ≤ length (filter (λ u, u < v) ns)) ∧
       (∀ v, v ∈ nodes k3tail → (∀ u, adj k3tail v u → v < u) →
          m !! v = Some 0).
Proof.
  apply (greedy_coloring_earlier_neighbors k3tail). by apply simple_graphb_spec.
Defined.

(** The nodes of a clique have different colours. *)
Lemma clique_colors G (m : gmap nat nat) (S : list nat) :
  simple_graph G → greedy_coloring G = Ok m → is_clique G S →
  length S ≤ size (colors_used m).
Proof.
  intros HG Hm (Hnd & Hnodes & Hadj).
  destruct (greedy_loop_spec G HG) as (m' & Hrun & Hdom & Hff).
  rewrite Hm in Hrun. injection Hrun as <-.
  assert (Hproper : ∀ u v, adj G u v → m !! u ≠ m !! v).
  { intros u v. apply (first_fit_proper G HG m); [done|].
    intros v0 c Hc. by apply Hff. }
  set (cols := (λ u, default 0 (m !! u)) <$> S).
  assert (Hcols : NoDup cols).
  { apply NoDup_fmap_2_strong; [|done]. intros u v Hu Hv Heq.
    destruct (decide (u = v)) as [|Hne]; [done|]. exfalso.
    apply (Hproper u v); [by apply Hadj|].
    destruct (proj2 (Hdom u) (Hnodes u Hu)) as [cu Hcu].
    destruct (proj2 (Hdom v) (Hnodes v Hv)) as [cv Hcv].
    rewrite Hcu, Hcv in *. simpl in Heq. by subst. }
  replace (length S) with (length cols) by apply length_fmap.
  rewrite <- (size_list_to_set (C := gset nat) cols) by done.
  apply subseteq_size. intros c Hc.
  apply elem_of_list_to_set, list_elem_of_fmap in Hc as (u & -> & Hu).
  apply elem_of_colors_used. exists u.
  destruct (proj2 (Hdom u) (Hnodes u Hu)) as [cu Hcu]. by rewrite Hcu.
Qed.

(** X5. The clique that [find_max_clique] returns has at most as many
    nodes as [greedy_coloring] uses colours. *)
Theorem clique_size_le_colors (find_cliques : Graph → list (list nat))
    (G : Graph) (S : list nat) (m : gmap nat nat) :
  simple_graph G → find_cliques_contract find_cliques G →
  find_max_clique find_cliques G = Ok S → greedy_coloring G = Ok m →
  length S ≤ size (colors_used m).
Proof.
  intros HG [Hfc _] HS Hm. apply (clique_colors G); [done..|].
  unfold find_max_clique in HS.
  pose proof (max_by_len_spec (find_cliques G)) as Hmax.
  rewrite HS in Hmax. destruct Hmax as [Hin _].
  by destruct (Hfc S Hin) as [_ [Hcl _]].
Qed.

Lemma clique_size_le_colors_witness :
  length [0; 1; 2] ≤
  size (colors_used (list_to_map [(0, 0); (1, 1); (2, 2); (3, 0); (4, 1); (5, 2)])).
Proof.
  apply (clique_size_le_colors find_cliques_ref two_triangles).
  - by apply simple_graphb_spec.
  - by apply find_cliques_ref_contract, simple_graphb_spec.
  - vm_compute. reflexivity.
  - vm_compute. reflexivity.
Defined.

(** X6. On an undirected simple graph with at least one node,
    [greedy_coloring] uses one colour exactly when the graph has no
    edge. *)
Theorem greedy_one_color_iff_no_edge (G : Graph) :
  simple_graph G → nodes G ≠ [] →
  ∃ m, greedy_coloring G = Ok m ∧
       (size (colors_used m) = 1 ↔ ∀ u v, ¬ adj G u v).
Proof.
  intros HG Hne. destruct (greedy_loop_spec G HG) as (m & Hrun & Hdom & Hff).
  exists m. split; [done|].
  assert (Hff' : ∀ v c, m !! v = Some c → first_fit G m v c).
  { intros v c Hc. by apply Hff. }
  pose proof (first_fit_range G m Hff') as Hrange.
  split.
  - intros Hone u v Hadj. rewrite Hone in Hrange. simpl in Hrange.
    assert (Hzero : ∀ w, w ∈ nodes G → m !! w = Some 0).
    { intros w [c Hc]%Hdom. rewrite Hc. f_equal.
      assert (Hin : c ∈ colors_used m) by (apply elem_of_colors_used; eauto).
      rewrite Hrange in Hin. set_solver. }
    apply (first_fit_proper G HG m u v Hdom Hff' Hadj).
    rewrite !Hzero; [done|by eapply sg_closed|by eapply adj_node_l].
  - intros Hno.
    assert (Hzero : ∀ v c, m !! v = Some c → c = 0).
    { intros v c Hc. destruct (Hff' v c Hc) as [_ Hlow].
      destruct c as [|c]; [done|].
      destruct (Hlow 0) as (u & Hadj & _); [lia|]. by apply Hno in Hadj. }
    destruct (nodes G) as [|a l] eqn:EN; [done|].
    destruct (proj2 (Hdom a)) as [c Hc]; [left|].
    assert (colors_used m = {[0]}) as ->.
    { apply set_eq. intros c'. rewrite elem_of_colors_used, elem_of_singleton.
      split.
      - intros [v Hv]. by eapply Hzero.
      - intros ->. exists a. rewrite Hc. f_equal. by eapply Hzero. }
    apply size_singleton.
Qed.

Lemma greedy_one_color_iff_no_edge_witness :
  ∃ m, greedy_coloring path3 = Ok m ∧
       (size (colors_used m) = 1 ↔ ∀ u v, ¬ adj path3 u v).
Proof.
  apply (greedy_one_color_iff_no_edge path3).
  - by apply simple_graphb_spec.
  - done.
Defined.

Lemma for_each_ext {A S} (f g : A → S → result S) (l : list A) :
  (∀ a st, f a st = g a st) → ∀ st, for_each f l st = for_each g l st.
Proof.
  intros Hfg. induction l as [|a l IH]; intros st; simpl; [done|].
  rewrite Hfg. destruct (g a st); simpl; auto.
Qed.

Lemma greedy_step_same_graph G G' node coloring :
  same_graph G G' → greedy_step G node coloring = greedy_step G' node coloring.
Proof.
  intros [Hp Hn]. unfold greedy_step.
  destruct (neighbors_cases G node) as [(ns & H & Hin)|[H Hnin]].
  - destruct (Hn _ _ H) as (ns' & H' & Hperm). rewrite H, H', !bind_Ok_l.
    assert (list_to_set ((λ neigh, coloring !! neigh) <$> ns)
            =@{gset (option nat)}
            list_to_set ((λ neigh, coloring !! neigh) <$> ns')) as ->; [|done].
    by apply list_to_set_perm_L, fmap_Permutation.
  - rewrite H, neighbors_not_node; [done|]. by rewrite <- Hp.
Qed.

(** X7. The colouring does not depend on the order in which the nodes
    and the neighbours were inserted into the graph. *)
Theorem greedy_coloring_same_graph (G G' : Graph) :
  same_graph G G' → greedy_coloring G = greedy_coloring G'.
Proof.
  intros Hsame. unfold greedy_coloring.
  rewrite (sorted_ext (nodes G) (nodes G')) by apply Hsame.
  apply for_each_ext. intros node coloring. by apply greedy_step_same_graph.
Qed.

Lemma greedy_coloring_same_graph_witness :
  greedy_coloring path3 = greedy_coloring path3_rev.
Proof.
  apply (greedy_coloring_same_graph path3 path3_rev). split.
  - simpl. etrans; [apply perm_skip, perm_swap|].
    etrans; [apply perm_swap|]. apply perm_skip, perm_swap.
  - intros n ns Hn. unfold neighbors in *. simpl in *.
    repeat case_decide; simplify_eq; eexists; (split; [done|]);
      try done; apply perm_swap.
Defined.

(** ** Maximum clique *)

Lemma max_by_len_fold_first (cs : list (list nat)) :
  ∀ best pre mid,
  (∀ T, T ∈ pre → length T < length best) →
  (∀ T, T ∈ mid → length T ≤ length best) →
  let r := foldl (λ best x, if decide (length best < length x) then x else best)
                 best cs in
  ∃ l1 l2, pre ++ best :: mid ++ cs = l1 ++ r :: l2 ∧
           (∀ T, T ∈ l1 → length T < length r) ∧
           (∀ T, T ∈ l2 → length T ≤ length r).
Proof.
  induction cs as [|x cs IH]; intros best pre mid Hpre Hmid; simpl.
  - exists pre, mid. by rewrite app_nil_r.
  - case_decide as Hlt.
    + destruct (IH x (pre ++ best :: mid) []) as (l1 & l2 & E & H1 & H2).
      * intros T [HT|[->|HT]%elem_of_cons]%elem_of_app.
        -- apply Hpre in HT. lia.
        -- done.
        -- apply Hmid in HT. lia.
      * intros T HT. by apply elem_of_nil in HT.
      * exists l1, l2. split; [|done]. rewrite <- E, <- app_assoc. done.
    + destruct (IH best pre (mid ++ [x])) as (l1 & l2 & E & H1 & H2).
      * done.
      * intros T [HT| ->%list_elem_of_singleton]%elem_of_app; [auto|lia].
      * exists l1, l2. split; [|done]. rewrite <- E, <- app_assoc. done.
Qed.

(** X8. Among the cliques that the enumeration yields, [find_max_clique]
    returns the first one of greatest length: the cliques before it are
    strictly shorter, the ones after it are not longer. *)
Theorem find_max_clique_first (find_cliques : Graph → list (list nat))
    (G : Graph) (C : list nat) :
  find_max_clique find_cliques G = Ok C →
  ∃ l1 l2, find_cliques G = l1 ++ C :: l2 ∧
           (∀ T, T ∈ l1 → length T < length C) ∧
           (∀ T, T ∈ l2 → length T ≤ length C).
Proof.
  unfold find_max_clique, max_by_len.
  destruct (find_cliques G) as [|c cs]; [done|]. intros [= <-].
  destruct (max_by_len_fold_first cs c [] []) as (l1 & l2 & E & H1 & H2).
  - intros T HT. by apply elem_of_nil in HT.
  - intros T HT. by apply elem_of_nil in HT.
  - exists l1, l2. done.
Qed.

Lemma find_max_clique_first_witness :
  ∃ l1 l2, find_cliques_ref two_triangles = l1 ++ [0; 1; 2] :: l2 ∧
           (∀ T, T ∈ l1 → length T < length [0; 1; 2]) ∧
           (∀ T, T ∈ l2 → length T ≤ length [0; 1; 2]).
Proof.
  apply (find_max_clique_first find_cliques_ref two_triangles).
  vm_compute. reflexivity.
Defined.

(** An enumeration that yields the maximal cliques yields none exactly
    when the graph has no node. *)
Lemma find_cliques_nil_iff (find_cliques : Graph → list (list nat)) G :
  simple_graph G → find_cliques_contract find_cliques G →
  find_cliques G = [] ↔ nodes G = [].
Proof.
  intros HG [Hfc Hall]. split.
  - intros Hnil. destruct (nodes G) as [|a l] eqn:EN; [done|]. exfalso.
    destruct (maximal_clique_exists G a HG) as (S & HS & Hmaxl).
    { rewrite EN. left. }
    destruct (Hall S HS Hmaxl) as (S' & Hin & _).
    rewrite Hnil in Hin. by apply elem_of_nil in Hin.
  - intros Hnil. destruct (find_cliques G) as [|c cs] eqn:Efc; [done|]. exfalso.
    destruct (Hfc c) as [Hne [(_ & Hnodes & _) _]]; [left|].
    destruct c as [|u c]; [done|].
    specialize (Hnodes u (list_elem_of_here _ _)). rewrite Hnil in Hnodes.
    by apply elem_of_nil in Hnodes.
Qed.

(** X9. For an enumeration that yields the maximal cliques,
    [find_max_clique] raises [ValueError] exactly when the graph has no
    node. *)
Theorem find_max_clique_raises_iff_empty
    (find_cliques : Graph → list (list nat)) (G : Graph) :
  simple_graph G → find_cliques_contract find_cliques G →
  find_max_clique find_cliques G = Raise ValueError ↔ nodes G = [].
Proof.
  intros HG Hfc. rewrite <- (find_cliques_nil_iff find_cliques G HG Hfc).
  unfold find_max_clique.
  pose proof (max_by_len_spec (find_cliques G)) as Hmax. split.
  - intros Hraise. rewrite Hraise in Hmax. by destruct Hmax as [_ Hnil].
  - by intros ->.
Qed.

Lemma find_max_clique_raises_iff_empty_witness :
  find_max_clique find_cliques_ref [] = Raise ValueError ↔ nodes [] = [].
Proof.
  apply (find_max_clique_raises_iff_empty find_cliques_ref []).
  - by apply simple_graphb_spec.
  - by apply find_cliques_ref_contract, simple_graphb_spec.
Defined.

(** ** The colour palette *)

Lemma mapM_Ok_lookup {A B} (f : A → result B) (l : list A) (r : list B) :
  mapM f l = Ok r →
  ∀ i x, l !! i = Some x → ∃ y, r !! i = Some y ∧ f x = Ok y.
Proof.
  revert r. induction l as [|a l IH]; intros r; simpl.
  - intros _ i x Hi. done.
  - intros (y & Hy & (k & Hk & [= <-])%bind_Ok)%bind_Ok [|i] x Hi; simpl in *.
    + injection Hi as <-. eauto.
    + eauto.
Qed.

(** X10. [get_color_map] returns [num_colors] colours, the one of index [i]
    being the colour of index [i] modulo the length of the Tableau colours
    followed by the CSS4 colours, so that an index has the same colour
    whatever the number of colours asked for; when both tables are empty
    and a colour is asked for, it raises [ZeroDivisionError]. *)
Theorem get_color_map_cyclic (pal : Palette) (num_colors : nat) :
  let extended := TABLEAU_COLORS pal ++ CSS4_COLORS pal in
  (extended ≠ [] →
   ∃ cm, get_color_map pal num_colors = Ok cm ∧ length cm = num_colors ∧
         ∀ i, i < num_colors → cm !! i = extended !! (i mod length extended)) ∧
  (extended = [] → 0 < num_colors →
   get_color_map pal num_colors = Raise ZeroDivisionError) ∧
  (num_colors ≤ length (TABLEAU_COLORS pal) →
   get_color_map pal num_colors = Ok (take num_colors (TABLEAU_COLORS pal))).
Proof.
  intros extended. split_and!.
  - intros Hne. destruct (get_color_map_total pal num_colors Hne) as [cm Hcm].
    exists cm. split; [done|]. split; [by eapply get_color_map_length|].
    intros i Hi. assert (Hlen : length extended ≠ 0) by (by destruct extended).
    unfold get_color_map in Hcm. case_decide as Hk.
    + injection Hcm as <-. rewrite lookup_take_lt by done.
      rewrite Nat.mod_small.
      * unfold extended. rewrite lookup_app_l; [done|lia].
      * unfold extended. rewrite length_app. lia.
    + destruct (mapM_Ok_lookup _ _ _ Hcm i i) as (y & Hy & Hf).
      { by apply lookup_seq. }
      fold extended in Hf. rewrite decide_False in Hf by done.
      apply getitem_Ok in Hf. by rewrite Hy, Hf.
  - intros Hnil Hpos. unfold get_color_map. fold extended.
    apply app_eq_nil in Hnil as Hnil'. destruct Hnil' as [Ht _]. rewrite Ht.
    simpl. rewrite decide_False by lia.
    destruct num_colors as [|k]; [lia|]. simpl.
    rewrite Hnil. simpl. done.
  - intros Hle. unfold get_color_map. by rewrite decide_True.
Qed.

Lemma get_color_map_cyclic_witness :
  ∃ cm, get_color_map pal3 5 = Ok cm ∧ length cm = 5 ∧
        ∀ i, i < 5 →
          cm !! i = (TABLEAU_COLORS pal3 ++ CSS4_COLORS pal3) !!
                    (i mod length (TABLEAU_COLORS pal3 ++ CSS4_COLORS pal3)).
Proof. apply (proj1 (get_color_map_cyclic pal3 5)). done. Defined.

(** ** Cycle detection and the number of edges *)

Lemma filter_split {A} (P : A → Prop) `{!∀ x, Decision (P x)} (L : list A) :
  ∀ l1' u l2', filter P L = l1' ++ u :: l2' →
  ∃ l1 l2, L = l1 ++ u :: l2 ∧ l1' = filter P l1 ∧ l2' = filter P l2.
Proof.
  induction L as [|a L IH]; intros l1' u l2' E.
  - by destruct l1'.
  - rewrite filter_cons in E. destruct (decide (P a)) as [Ha|Ha].
    + destruct l1' as [|b l1']; simpl in E; injection E as <- E.
      * exists [], L. by rewrite E.
      * destruct (IH _ _ _ E) as (l1 & l2 & -> & -> & ->).
        exists (a :: l1), l2. by rewrite filter_cons_True.
    + destruct (IH _ _ _ E) as (l1 & l2 & -> & -> & ->).
      exists (a :: l1), l2. by rewrite filter_cons_False.
Qed.

Lemma length_le_1_NoDup {A} (l : list A) :
  NoDup l → (∀ x y, x ∈ l → y ∈ l → x = y) → length l ≤ 1.
Proof.
  destruct l as [|a [|b l]]; simpl; [lia|lia|]. intros Hnd Heq. exfalso.
  apply NoDup_cons in Hnd as [Ha _]. apply Ha.
  rewrite (Heq a b); [left|left|right; left].
Qed.

Lemma fwd_upper G K :
  (∀ k1 v k2, K = k1 ++ v :: k2 → length (filter (adj G v) k2) ≤ 1) →
  K ≠ [] → sum_list (fwd G K) + 1 ≤ length K.
Proof.
  induction K as [|v K IH]; intros Hone Hne; [done|]. simpl.
  destruct K as [|w K].
  - simpl. lia.
  - pose proof (Hone [] v (w :: K) eq_refl).
    assert (sum_list (fwd G (w :: K)) + 1 ≤ length (w :: K)); [|simpl in *; lia].
    apply IH; [|done]. intros k1 x k2 E. apply (Hone (v :: k1)). by rewrite E.
Qed.

(** An order of the nodes in which every node has at most one earlier
    neighbour leaves room for fewer edges than nodes. *)
Lemma aoe_edge_count G order :
  simple_graph G → NoDup order → aoe G ∅ order →
  (∀ v, v ∈ nodes G → v ∈ order) → G ≠ [] →
  sum_list_with (λ e : nat * list nat, length e.2) G + 2 ≤ 2 * length G.
Proof.
  intros HG Hnd Hao Hall Hne.
  set (L := filter (λ v, v ∈ nodes G) order).
  set (K := reverse L).
  assert (HL : NoDup L) by (by apply NoDup_filter).
  assert (HK : NoDup K) by (unfold K; by rewrite reverse_Permutation).
  assert (HallK : ∀ v, v ∈ K ↔ v ∈ nodes G).
  { intros v. unfold K, L. rewrite elem_of_reverse, list_elem_of_filter.
    split; [tauto|auto]. }
  assert (Hlen : length K = length G).
  { replace (length G) with (length (nodes G)) by apply length_fmap.
    apply Permutation_length, NoDup_Permutation; [done|apply HG|done]. }
  assert (Hone : ∀ k1 v k2, K = k1 ++ v :: k2 →
                   length (filter (adj G v) k2) ≤ 1).
  { intros k1 v k2 E.
    assert (EL : L = reverse k2 ++ v :: reverse k1).
    { rewrite <- (reverse_involutive L). fold K. rewrite E.
      rewrite reverse_app, reverse_cons, <- app_assoc. done. }
    apply filter_split in EL as (l1 & l2 & Eo & E1 & _).
    apply length_le_1_NoDup.
    - apply NoDup_filter. rewrite E in HK.
      apply NoDup_app in HK as (_ & _ & HK). by apply NoDup_cons in HK as [_ HK].
    - assert (Hin : ∀ x, x ∈ filter (adj G v) k2 → x ∈ l1 ∧ adj G v x).
      { intros x [Hadj Hx]%list_elem_of_filter. split; [|done].
        apply elem_of_reverse_2 in Hx. rewrite E1 in Hx.
        by apply list_elem_of_filter in Hx as [_ Hx]. }
      intros x y [Hx Hvx]%Hin [Hy Hvy]%Hin.
      by apply (Hao l1 v l2 Eo ltac:(set_solver) x y). }
  assert (HKne : K ≠ []).
  { intros HKnil. destruct G as [|[a ns] G0]; [done|].
    assert (Ha : a ∈ K) by (apply HallK; left).
    rewrite HKnil in Ha. by apply elem_of_nil in Ha. }
  pose proof (fwd_upper G K Hone HKne) as Hsum.
  pose proof (pairs_fwd G HG K) as Hp.
  rewrite (degree_sum G HG K HK HallK) in Hp. lia.
Qed.

(** X11. A graph with at least one node and at least as many edges as
    nodes is reported to have a cycle (the lengths of the neighbour lists
    add up to twice the number of edges). *)
Theorem has_cycle_edge_count (G : Graph) :
  simple_graph G → G ≠ [] →
  2 * length G ≤ sum_list_with (λ e : nat * list nat, length e.2) G →
  has_cycle G = Ok true.
Proof.
  intros HG Hne Hcount.
  destruct (has_cycle_order G HG) as (b & Hrun & Hpost).
  destruct b; [done|]. exfalso.
  destruct Hpost as (order & Hnd & Hao & Hall).
  pose proof (aoe_edge_count G order HG Hnd Hao Hall Hne). lia.
Qed.

Lemma has_cycle_edge_count_witness : has_cycle cycle4 = Ok true.
Proof.
  apply (has_cycle_edge_count cycle4).
  - by apply simple_graphb_spec.
  - done.
  - simpl. lia.
Defined.

(** A connected graph has at least as many edges as nodes but one. *)
Lemma connected_edge_count G :
  simple_graph G → connected G → G ≠ [] →
  2 * length G ≤ sum_list_with (λ e : nat * list nat, length e.2) G + 2.
Proof.
  intros HG Hconn Hne.
  destruct G as [|[s ns0] G0] eqn:EG; [done|].
  rewrite <- EG in *.
  assert (Hs : s ∈ nodes G) by (rewrite EG; left).
  destruct (bfs_with_depth_inv G s HG Hs) as (Vb & R & _ & Hinv & _).
  pose proof (bi_head _ _ _ _ _ Hinv) as Hhead.
  pose proof (bi_nodup _ _ _ _ _ Hinv) as Hnd.
  pose proof (StronglySorted_Sorted (bi_sorted _ _ _ _ _ Hinv)) as Hsort.
  rewrite app_nil_r in Hhead, Hnd, Hsort.
  pose proof (λ v, bfs_final_reachable G s Vb R v Hinv) as Hreach.
  pose proof (λ v d, bfs_final_distance G s Vb R v d Hinv) as Hdist.
  set (L := R.*1) in *.
  assert (Hall : ∀ v, v ∈ L ↔ v ∈ nodes G).
  { intros v. rewrite Hreach. split.
    - intros [k Hk]. by eapply walk_node_r.
    - intros Hv. by apply Hconn. }
  set (K := reverse L).
  assert (HK : NoDup K) by (unfold K; by rewrite reverse_Permutation).
  assert (HallK : ∀ v, v ∈ K ↔ v ∈ nodes G).
  { intros v. unfold K. by rewrite elem_of_reverse. }
  assert (Hlen : length K = length G).
  { replace (length G) with (length (nodes G)) by apply length_fmap.
    apply Permutation_length, NoDup_Permutation; [done|apply HG|done]. }
  assert (Hone : ∀ k1 v k2, K = k1 ++ v :: k2 → k2 ≠ [] →
                   1 ≤ length (filter (adj G v) k2)).
  { intros k1 v k2 E Hk2.
    assert (EL : L = reverse k2 ++ v :: reverse k1).
    { rewrite <- (reverse_involutive L). fold K. rewrite E.
      rewrite reverse_app, reverse_cons, <- app_assoc. done. }
    destruct (bfs_order_earlier G s R (reverse k2) v (reverse k1))
      as (u & Hu & Hvu); try done.
    { intros Hnil. apply Hk2. rewrite <- (reverse_involutive k2), Hnil. done. }
    apply (proj1 (elem_of_reverse _ _)) in Hu.
    assert (Hin : u ∈ filter (adj G v) k2) by (by apply list_elem_of_filter).
    destruct (filter (adj G v) k2); [by apply elem_of_nil in Hin|simpl; lia]. }
  pose proof (fwd_lower G K Hone) as Hsum.
  pose proof (pairs_fwd G HG K) as Hp.
  rewrite (degree_sum G HG K HK HallK) in Hp. lia.
Qed.

(** X12. A connected graph with at least one node is reported free of
    cycles exactly when it is a tree: when it has one edge less than
    nodes. *)
Theorem has_cycle_connected_iff_tree (G : Graph) :
  simple_graph G → connected G → G ≠ [] →
  has_cycle G = Ok false ↔ is_tree G.
Proof.
  intros HG Hconn Hne.
  destruct (has_cycle_order G HG) as (b & Hrun & Hpost). split.
  - intros Hfalse. rewrite Hfalse in Hrun. injection Hrun as <-.
    destruct Hpost as (order & Hnd & Hao & Hall).
    pose proof (aoe_edge_count G order HG Hnd Hao Hall Hne).
    pose proof (connected_edge_count G HG Hconn Hne).
    split; [done|lia].
  - intros Htree. rewrite Hrun. f_equal. destruct b; [|done]. exfalso.
    by apply (tree_acyclic G HG Htree).
Qed.

Lemma has_cycle_connected_iff_tree_witness :
  has_cycle path3 = Ok false ↔ is_tree path3.
Proof.
  apply (has_cycle_connected_iff_tree path3).
  - by apply simple_graphb_spec.
  - apply (connected_by_bfs path3 0 [(0, 0); (1, 1); (2, 2)]).
    + by apply simple_graphb_spec.
    + left.
    + vm_compute. reflexivity.
    + intros v Hv. exact Hv.
  - done.
Defined.

(** * Further properties of the controller *)

(** ** Draw requests *)

Lemma for_each_setitem_cases (c : string) (l : list nat) :
  ∀ cols : list string,
  (Forall (λ n, n < length cols) l ∧
   ∃ cols', for_each (λ n, setitem n c) l cols = Ok cols' ∧
            length cols' = length cols) ∨
  (¬ Forall (λ n, n < length cols) l ∧
   for_each (λ n, setitem n c) l cols = Raise IndexError).
Proof.
  induction l as [|a l IH]; intros cols.
  - left. split; [constructor|]. by exists cols.
  - rewrite for_each_cons.
    destruct (decide (a < length cols)) as [Ha|Ha].
    + rewrite (proj2 (setitem_Ok a c cols _) (conj Ha eq_refl)), bind_Ok_l.
      destruct (IH (<[a := c]> cols)) as [[Hall (cols' & Hrun & Hlen)]|[Hall Hrun]];
        rewrite length_insert in *.
      * left. split; [by constructor|]. by exists cols'.
      * right. split; [|done]. intros Hc. apply Hall.
        by apply Forall_cons in Hc as [_ Hc].
    + right. split; [intros Hc; by apply Forall_cons in Hc as [Hc _]|].
      unfold setitem. by rewrite decide_False.
Qed.

Lemma highlight_layer_cases (highlight_nodes : option (gmap string (list nat)))
    (colors : list string) :
  let hls := match highlight_nodes with
             | Some hl => default [] (hl !! "gold") ++
                          default [] (hl !! "lightgreen")
             | None => []
             end in
  let run :=
    match highlight_nodes with
    | Some hl =>
        if decide (hl = ∅) then Ok colors
        else
          colors ← for_each (λ n, setitem n "gold")
                            (default [] (hl !! "gold")) colors ;
          for_each (λ n, setitem n "lightgreen")
                   (default [] (hl !! "lightgreen")) colors
    | None => Ok colors
    end in
  (Forall (λ n, n < length colors) hls ∧
   ∃ colors', run = Ok colors' ∧ length colors' = length colors) ∨
  (¬ Forall (λ n, n < length colors) hls ∧ run = Raise IndexError).
Proof.
  destruct highlight_nodes as [hl|]; simpl.
  - destruct (decide (hl = ∅)) as [->|Hne].
    { left. rewrite !lookup_empty. simpl. split; [constructor|]. by eexists. }
    destruct (for_each_setitem_cases "gold" (default [] (hl !! "gold")) colors)
      as [[Hg (cg & -> & Hlg)]|[Hg ->]].
    + rewrite bind_Ok_l.
      destruct (for_each_setitem_cases "lightgreen"
                  (default [] (hl !! "lightgreen")) cg)
        as [[Hl (cl & -> & Hll)]|[Hl ->]]; rewrite Hlg in Hl.
      * left. split; [by apply Forall_app|]. exists cl. split; [done|congruence].
      * right. split; [|done]. rewrite Forall_app. tauto.
    + right. split; [|done]. rewrite Forall_app. tauto.
  - left. split; [constructor|]. by eexists.
Qed.

(** X13. With no colouring set: a draw request raises [IndexError] when a
    node of the clique or of the transient highlights is not an index of
    the list of node colours; otherwise it returns when the graph has as
    many nodes as the list has entries, and raises [ValueError] when the
    graph has another number of nodes, not zero. *)
Theorem draw_graph_index_error (pal : Palette)
    (highlight_nodes : option (gmap string (list nat))) (title : string)
    (app : GraphApp) :
  current_coloring app = None →
  (¬ Forall (λ n, n < length (node_colors app)) (painted highlight_nodes app) →
   draw_graph pal highlight_nodes title app = Raise IndexError) ∧
  (Forall (λ n, n < length (node_colors app)) (painted highlight_nodes app) →
   length (G app) = length (node_colors app) →
   ∃ app', draw_graph pal highlight_nodes title app = Ok app') ∧
  (Forall (λ n, n < length (node_colors app)) (painted highlight_nodes app) →
   G app ≠ [] → length (G app) ≠ length (node_colors app) →
   draw_graph pal highlight_nodes title app = Raise ValueError).
Proof.
  intros Hcol. unfold draw_graph, painted. rewrite Hcol, bind_Ok_l.
  rewrite Forall_app.
  assert (Hclique :
    (Forall (λ n, n < length (node_colors app)) (default [] (clique_nodes app)) ∧
     ∃ cols, length cols = length (node_colors app) ∧
       match clique_nodes app with
       | Some clique => for_each (λ n, setitem n "red") clique (node_colors app)
       | None => Ok (node_colors app)
       end = Ok cols) ∨
    (¬ Forall (λ n, n < length (node_colors app))
         (default [] (clique_nodes app)) ∧
     match clique_nodes app with
     | Some clique => for_each (λ n, setitem n "red") clique (node_colors app)
     | None => Ok (node_colors app)
     end = Raise IndexError)).
  { destruct (clique_nodes app) as [clique|]; simpl.
    - destruct (for_each_setitem_cases "red" clique (node_colors app))
        as [[Hall (cols & -> & Hlen)]|[Hall ->]]; [left|right; done].
      split; [done|]. by exists cols.
    - left. split; [constructor|]. by exists (node_colors app). }
  destruct Hclique as [[Hc (cols & Hlen & ->)]|[Hc ->]].
  - rewrite bind_Ok_l.
    destruct (highlight_layer_cases highlight_nodes cols)
      as [[Hh (cols' & -> & Hlen')]|[Hh ->]]; rewrite Hlen in Hh.
    + rewrite bind_Ok_l. unfold draw_networkx_nodes. rewrite Hlen', Hlen.
      split_and!.
      * tauto.
      * intros _ Hsize. case_decide; [by eexists|].
        rewrite decide_True by done. by eexists.
      * intros _ Hne Hsize. rewrite decide_False by done.
        rewrite decide_False by done. done.
    + split_and!; [done|tauto..].
  - split_and!; [done|tauto..].
Qed.

Lemma draw_graph_index_error_witness :
  draw_graph pal3 None "" (set_clique_nodes (Some [0; 34]) idle_app)
  = Raise IndexError ∧
  (∃ app', draw_graph pal3 (Some (highlight [0] [3])) "BFS" busy_app = Ok app') ∧
  draw_graph pal3 None ""
    {| G := k3tail; anim_alive := false; anim := None; current_coloring := None;
       clique_nodes := None; node_colors := default_colors; log := [];
       canvas := [] |} = Raise ValueError.
Proof.
  split_and!.
  - apply (draw_graph_index_error pal3 None ""
             (set_clique_nodes (Some [0; 34]) idle_app)); [reflexivity|].
    intros H. apply Forall_cons in H as [_ H].
    apply Forall_cons in H as [H _]. vm_compute in H. lia.
  - apply (draw_graph_index_error pal3 (Some (highlight [0] [3])) "BFS" busy_app);
      [reflexivity| |reflexivity].
    apply Forall_forall. intros n Hn.
    apply (proj1 (list_elem_of_In _ _)) in Hn. vm_compute in Hn. simpl. lia.
  - apply (draw_graph_index_error pal3 None "" _); [reflexivity| |done|].
    + constructor.
    + vm_compute. lia.
Defined.

(** ** The callbacks without an animation *)

(** X14. [check_cycle] writes two lines to the log, the second one saying
    [True] exactly when the graph has a simple cycle; it clears the clique
    highlight without drawing, so that the canvas and all other fields stay
    as they are; it does not look at the running flag. *)
Theorem check_cycle_result (app : GraphApp) :
  simple_graph (G app) →
  ∃ b app', check_cycle app = Ok app' ∧
            (b = true ↔ has_simple_cycle (G app)) ∧
            log app' = log app ++ ["=== Cycle Check ===";
                                   "Graph has cycle: " +:+ str_bool b] ∧
            clique_nodes app' = None ∧
            canvas app' = canvas app ∧
            current_coloring app' = current_coloring app ∧
            node_colors app' = node_colors app ∧
            anim_alive app' = anim_alive app.
Proof.
  intros HG. destruct (has_cycle_spec (G app) HG) as (b & Hrun & Hb).
  exists b. unfold check_cycle. simpl. rewrite Hrun, bind_Ok_l.
  eexists. split; [done|]. split; [done|]. simpl.
  rewrite <- app_assoc. done.
Qed.

Lemma check_cycle_result_witness :
  ∃ b app', check_cycle busy_app = Ok app' ∧
            (b = true ↔ has_simple_cycle (G busy_app)) ∧
            log app' = log busy_app ++ ["=== Cycle Check ===";
                                        "Graph has cycle: " +:+ str_bool b] ∧
            clique_nodes app' = None ∧
            canvas app' = canvas busy_app ∧
            current_coloring app' = current_coloring busy_app ∧
            node_colors app' = node_colors busy_app ∧
            anim_alive app' = anim_alive busy_app.
Proof. apply (check_cycle_result busy_app). by apply simple_graphb_spec. Defined.

(** X16. On the graph without nodes the traversal buttons raise
    [NetworkXError], the colouring button raises [ValueError] when no
    animation is running, the clique button raises [ValueError] for an
    enumeration that yields the maximal cliques, and the cycle button
    reports that there is no cycle. *)
Theorem empty_graph_buttons (pal : Palette)
    (find_cliques : Graph → list (list nat)) (app : GraphApp) :
  G app = [] → find_cliques_contract find_cliques [] →
  run_bfs app = Raise NetworkXError ∧
  run_dfs app = Raise NetworkXError ∧
  (anim_alive app = false → run_coloring pal app = Raise ValueError) ∧
  check_clique pal find_cliques app = Raise ValueError ∧
  ∃ app', check_cycle app = Ok app' ∧
          log app' = log app ++ ["=== Cycle Check ==="; "Graph has cycle: False"].
Proof.
  intros HG Hfc. split_and!.
  - unfold run_bfs. simpl. by rewrite HG.
  - unfold run_dfs. simpl. by rewrite HG.
  - intros Hidle. unfold run_coloring. rewrite Hidle, HG. done.
  - unfold check_clique, find_max_clique. simpl. rewrite HG.
    rewrite (proj2 (find_cliques_nil_iff find_cliques []
                      ltac:(by apply simple_graphb_spec) Hfc)); done.
  - unfold check_cycle. simpl. rewrite HG. simpl. eexists. split; [done|].
    simpl. by rewrite <- app_assoc.
Qed.

Lemma empty_graph_buttons_witness :
  run_bfs empty_app = Raise NetworkXError ∧
  run_dfs empty_app = Raise NetworkXError ∧
  (anim_alive empty_app = false → run_coloring pal3 empty_app = Raise ValueError) ∧
  check_clique pal3 find_cliques_ref empty_app = Raise ValueError ∧
  ∃ app', check_cycle empty_app = Ok app' ∧
          log app' = log empty_app ++
                     ["=== Cycle Check ==="; "Graph has cycle: False"].
Proof.
  apply (empty_graph_buttons pal3 find_cliques_ref empty_app).
  - reflexivity.
  - by apply find_cliques_ref_contract, simple_graphb_spec.
Defined.

(** ** The colouring button *)

Lemma foldl_log_msg {A} (f : A → string) (l : list A) (app : GraphApp) :
  foldl (λ app x, log_msg app (f x)) app l = set_log (log app ++ (f <$> l)) app.
Proof.
  revert app. induction l as [|a l IH]; intros app; simpl.
  - rewrite app_nil_r. by destruct app.
  - rewrite IH. unfold log_msg, set_log. simpl. by rewrite <- app_assoc.
Qed.

Lemma max_list_in (l : list nat) : l ≠ [] → max_list l ∈ l.
Proof.
  induction l as [|a l IH]; [done|]. intros _. simpl.
  destruct l as [|b l].
  - simpl. rewrite Nat.max_0_r. left.
  - destruct (Nat.max_spec a (max_list (b :: l))) as [[_ ->]|[_ ->]].
    + right. by apply IH.
    + left.
Qed.

(** The greatest colour of a first-fit colouring is the number of colours
    less one. *)
Lemma max_color_size (G0 : Graph) (m : gmap nat nat) :
  (∀ v c, m !! v = Some c → first_fit G0 m v c) → m ≠ ∅ →
  max_list (map_to_list m).*2 + 1 = size (colors_used m).
Proof.
  intros Hff Hne. pose proof (first_fit_range G0 m Hff) as Hrange.
  set (k := size (colors_used m)) in *.
  set (vals := (map_to_list m).*2).
  assert (Hvals : vals ≠ []).
  { unfold vals. intros Hnil. apply fmap_nil_inv in Hnil.
    by apply map_to_list_empty_iff in Hnil. }
  assert (Hin : ∀ c, c ∈ vals ↔ c < k).
  { intros c. unfold vals.
    rewrite <- (elem_of_list_to_set (C := gset nat)).
    fold (colors_used m). rewrite Hrange, elem_of_list_to_set, elem_of_seq. lia. }
  pose proof (max_list_in vals Hvals) as Hmax. apply Hin in Hmax.
  assert (k - 1 ∈ vals) as Hk by (apply Hin; lia).
  apply max_list_elem_of_le in Hk. lia.
Qed.

Lemma default_colors_lookup n : n < 34 → default_colors !! n = Some "lightblue".
Proof. intros Hn. unfold default_colors. by rewrite lookup_replicate_2. Qed.

(** What the colouring button does when no animation is running. *)
Lemma run_coloring_Ok pal app :
  anim_alive app = false → simple_graph (G app) → length (G app) = 34 →
  (∀ n, n ∈ nodes (G app) → n < 34) →
  TABLEAU_COLORS pal ++ CSS4_COLORS pal ≠ [] →
  ∃ m cm colors app',
    greedy_coloring (G app) = Ok m ∧
    (∀ v, is_Some (m !! v) ↔ v ∈ nodes (G app)) ∧
    (∀ v c, m !! v = Some c → first_fit (G app) m v c) ∧
    m ≠ ∅ ∧
    get_color_map pal (max_list (map_to_list m).*2 + 1) = Ok cm ∧
    run_coloring pal app = Ok app' ∧
    G app' = G app ∧ anim_alive app' = false ∧
    current_coloring app' = Some m ∧ clique_nodes app' = None ∧
    node_colors app' = default_colors ∧
    log app' = log app ++
               ["=== Greedy Coloring ===";
                "Colors used: " +:+ str_nat (max_list (map_to_list m).*2 + 1)] ++
               (node_line m <$> sorted (map_to_list m).*1) ∧
    canvas app' = canvas app ++ [(colors, "Greedy Coloring Result")] ∧
    length colors = 34 ∧
    (∀ n c, m !! n = Some c → colors !! n = cm !! c).
Proof.
  intros Hidle HG Hsize Hlt Hpal.
  destruct (greedy_loop_spec (G app) HG) as (m & Hrun & Hdom & Hff).
  assert (Hm : m ≠ ∅).
  { intros ->. destruct (G app) as [|[a ns] G1] eqn:EG; [done|].
    destruct (proj2 (Hdom a)) as [c Hc]; [left|]. by rewrite lookup_empty in Hc. }
  destruct (get_color_map_total pal (max_list (map_to_list m).*2 + 1) Hpal)
    as [cm Hcm].
  unfold run_coloring. rewrite Hidle. simpl. rewrite Hrun, bind_Ok_l.
  unfold max_values. rewrite decide_False by done. rewrite bind_Ok_l.
  pose proof (foldl_log_msg (node_line m) (sorted (map_to_list m).*1)) as Efold.
  unfold node_line in Efold. rewrite Efold. clear Efold.
  match goal with
  | |- context [draw_graph pal None ?title ?a] => set (app1 := a)
  end.
  assert (Hdraw : drawable pal None app1).
  { split_and!.
    - done.
    - intros coloring n [= <-] Hn. split; [|done]. simpl. apply Hlt, Hdom, Hn.
    - intros clique n [=].
    - intros hl k l n [=]. }
  destruct (draw_graph_total pal None "Greedy Coloring Result" app1 Hdraw)
    as [app' Happ'].
  destruct (draw_graph_Ok pal None _ app1 app' Happ')
    as (colors & -> & Hlen & Hcolors).
  exists m, cm, colors. eexists. split_and!; try done.
  - intros v c Hc. by apply Hff.
  - simpl. by rewrite <- !app_assoc.
  - intros n c Hn.
    assert (Hn34 : n < 34) by (apply Hlt, Hdom; eauto).
    rewrite (Hcolors n Hn34).
    unfold composed, step_layer, clique_layer, coloring_layer, color_map_of.
    simpl. by rewrite Hn, Hcm.
Qed.

(** X17. When no animation is running, on a graph of 34 nodes, all below
    34, the colouring button returns: it sets the colouring of
    [greedy_coloring], clears the clique highlight, draws one picture and
    writes to the log the heading, the number of colours used and one line
    for each node, in ascending order of the nodes. *)
Theorem run_coloring_log (pal : Palette) (app : GraphApp) :
  anim_alive app = false → simple_graph (G app) → length (G app) = 34 →
  (∀ n, n ∈ nodes (G app) → n < 34) →
  TABLEAU_COLORS pal ++ CSS4_COLORS pal ≠ [] →
  ∃ m app',
    greedy_coloring (G app) = Ok m ∧ run_coloring pal app = Ok app' ∧
    current_coloring app' = Some m ∧ clique_nodes app' = None ∧
    log app' = log app ++
               ["=== Greedy Coloring ===";
                "Colors used: " +:+ str_nat (size (colors_used m))] ++
               (node_line m <$> sorted (nodes (G app))) ∧
    length (canvas app') = length (canvas app) + 1.
Proof.
  intros Hidle HG Hsize Hlt Hpal.
  destruct (run_coloring_Ok pal app Hidle HG Hsize Hlt Hpal)
    as (m & cm & colors & app' & Hm & Hdom & Hff & Hne & _ & Hrun & _ & _ &
        Hcol & Hcl & _ & Hlog & Hcanvas & _).
  exists m, app'. split_and!; try done.
  - assert (Hk : max_list (map_to_list m).*2 + 1 = size (colors_used m)).
    { by apply (max_color_size (G app)). }
    assert (Hs : sorted (map_to_list m).*1 = sorted (nodes (G app))).
    { apply sorted_ext. apply NoDup_Permutation.
      - apply NoDup_fst_map_to_list.
      - apply HG.
      - intros v. by rewrite elem_of_map_to_list_fst, Hdom. }
    by rewrite Hlog, Hk, Hs.
  - rewrite Hcanvas, length_app. simpl. lia.
Qed.

Lemma run_coloring_log_witness :
  ∃ m app',
    greedy_coloring (G idle_app) = Ok m ∧ run_coloring pal3 idle_app = Ok app' ∧
    current_coloring app' = Some m ∧ clique_nodes app' = None ∧
    log app' = log idle_app ++
               ["=== Greedy Coloring ===";
                "Colors used: " +:+ str_nat (size (colors_used m))] ++
               (node_line m <$> sorted (nodes (G idle_app))) ∧
    length (canvas app') = length (canvas idle_app) + 1.
Proof.
  apply (run_coloring_log pal3 idle_app).
  - reflexivity.
  - by apply simple_graphb_spec.
  - reflexivity.
  - intros n Hn. apply (proj1 (list_elem_of_In _ _)) in Hn. simpl in Hn. lia.
  - done.
Defined.

(** X18. When the colouring uses at most as many colours as there are
    Tableau colours and these are distinct, the picture that the colouring
    button draws, on a graph of 34 nodes, gives different Tableau colours
    to adjacent nodes. *)
Theorem run_coloring_picture_proper (pal : Palette) (app : GraphApp)
    (m : gmap nat nat) :
  anim_alive app = false → simple_graph (G app) → length (G app) = 34 →
  (∀ n, n ∈ nodes (G app) → n < 34) →
  greedy_coloring (G app) = Ok m →
  NoDup (TABLEAU_COLORS pal) →
  size (colors_used m) ≤ length (TABLEAU_COLORS pal) →
  ∃ app' colors,
    run_coloring pal app = Ok app' ∧
    canvas app' = canvas app ++ [(colors, "Greedy Coloring Result")] ∧
    length colors = 34 ∧
    (∀ u v, adj (G app) u v → colors !! u ≠ colors !! v) ∧
    (∀ n c, m !! n = Some c → colors !! n = TABLEAU_COLORS pal !! c) ∧
    (∀ n, n ∈ nodes (G app) → ∃ c, colors !! n = Some c ∧ c ∈ TABLEAU_COLORS pal).
Proof.
  intros Hidle HG Hsize Hlt Hgreedy Hnd Hk.
  assert (Hpal : TABLEAU_COLORS pal ++ CSS4_COLORS pal ≠ []).
  { destruct (TABLEAU_COLORS pal) as [|t ts]; [|done]. exfalso.
    destruct (greedy_loop_spec (G app) HG) as (m' & Hm' & Hdom & _).
    rewrite Hgreedy in Hm'. injection Hm' as <-.
    destruct (G app) as [|[a ns] G1] eqn:EG; [done|].
    destruct (proj2 (Hdom a)) as [c Hc]; [left|].
    assert (Hin : c ∈ colors_used m) by (apply elem_of_colors_used; eauto).
    simpl in Hk. assert (Hz : size (colors_used m) = 0) by lia.
    apply size_empty_iff in Hz. set_solver. }
  destruct (run_coloring_Ok pal app Hidle HG Hsize Hlt Hpal)
    as (m' & cm & colors & app' & Hm & Hdom & Hff & Hne & Hcm & Hrun & _ & _ &
        _ & _ & _ & _ & Hcanvas & Hlen & Hin).
  rewrite Hgreedy in Hm. injection Hm as <-.
  assert (Hmax : max_list (map_to_list m).*2 + 1 = size (colors_used m)).
  { by apply (max_color_size (G app)). }
  unfold get_color_map in Hcm. rewrite decide_True in Hcm by lia.
  injection Hcm as <-.
  assert (Hcolor : ∀ v c, m !! v = Some c →
            colors !! v = TABLEAU_COLORS pal !! c ∧
            is_Some (TABLEAU_COLORS pal !! c)).
  { intros v c Hc. rewrite (Hin v c Hc).
    assert (c ≤ max_list (map_to_list m).*2) by (by eapply max_list_values_ge).
    rewrite lookup_take_lt by lia. split; [done|].
    apply lookup_lt_is_Some. lia. }
  exists app', colors. split_and!; try done.
  - intros u v Hadj.
    destruct (proj2 (Hdom u)) as [cu Hcu]; [by eapply adj_node_l|].
    destruct (proj2 (Hdom v)) as [cv Hcv]; [by eapply sg_closed|].
    destruct (Hcolor u cu Hcu) as [-> [x Hx]].
    destruct (Hcolor v cv Hcv) as [-> [y Hy]].
    rewrite Hx, Hy. intros [= ->].
    assert (cu = cv) by (by eapply NoDup_lookup).
    apply (first_fit_proper (G app) HG m u v Hdom Hff Hadj). congruence.
  - intros n c Hc. by apply Hcolor.
  - intros n [c Hc]%Hdom. destruct (Hcolor n c Hc) as [-> [x Hx]].
    exists x. split; [done|]. by eapply list_elem_of_lookup_2.
Qed.

Lemma run_coloring_picture_proper_witness :
  ∃ app' colors,
    run_coloring pal3 idle_app = Ok app' ∧
    canvas app' = canvas idle_app ++ [(colors, "Greedy Coloring Result")] ∧
    length colors = 34 ∧
    (∀ u v, adj (G idle_app) u v → colors !! u ≠ colors !! v) ∧
    (∀ n c, (list_to_map ((0, 0) :: (1, 1) :: (2, 2) :: (3, 0) ::
                          ((λ n, (n, 0)) <$> seq 4 30)) : gmap nat nat) !! n
            = Some c →
            colors !! n = TABLEAU_COLORS pal3 !! c) ∧
    (∀ n, n ∈ nodes (G idle_app) →
       ∃ c, colors !! n = Some c ∧ c ∈ TABLEAU_COLORS pal3).
Proof.
  apply (run_coloring_picture_proper pal3 idle_app).
  - reflexivity.
  - by apply simple_graphb_spec.
  - reflexivity.
  - intros n Hn. apply (proj1 (list_elem_of_In _ _)) in Hn. simpl in Hn. lia.
  - vm_compute. reflexivity.
  - apply (bool_decide_eq_true_1 (NoDup (TABLEAU_COLORS pal3))). reflexivity.
  - vm_compute. lia.
Defined.

(** ** The clique button *)

(** The clique button returns when the graph has as many nodes as the list
    of node colours has entries, at least one, and its nodes are indices of
    the list. *)
Lemma check_clique_Ok pal (find_cliques : Graph → list (list nat)) app :
  simple_graph (G app) → find_cliques_contract find_cliques (G app) →
  nodes (G app) ≠ [] →
  length (G app) = length (node_colors app) →
  (∀ n, n ∈ nodes (G app) → n < length (node_colors app)) →
  ∃ S app',
    find_max_clique find_cliques (G app) = Ok S ∧
    (∀ n, n ∈ S → n ∈ nodes (G app)) ∧
    check_clique pal find_cliques app = Ok app' ∧
    draw_graph pal None "Maximum Clique Highlighted"
      (log_msg (log_msg (log_msg
         (set_clique_nodes (Some S) (set_current_coloring None app))
         "=== Clique Check ===")
         ("Maximum clique size: " +:+ str_nat (length S)))
         ("Clique nodes: " +:+ str_list S)) = Ok app'.
Proof.
  intros HG Hfc Hne Hsize Hlt.
  pose proof (max_by_len_spec (find_cliques (G app))) as Hmax.
  unfold check_clique. simpl. unfold find_max_clique in *.
  destruct (max_by_len (find_cliques (G app))) as [S|e|] eqn:ES; [| |done].
  - destruct Hmax as [Hin _]. destruct Hfc as [Hfc _].
    destruct (Hfc S Hin) as [_ [(_ & Hnodes & _) _]].
    rewrite bind_Ok_l.
    match goal with
    | |- context [draw_graph pal None ?title ?a] =>
        destruct (draw_graph_total pal None title a) as [app' Happ']
    end.
    { split_and!.
      - done.
      - intros coloring n [=].
      - intros clique n [= <-] Hn. simpl. auto.
      - intros hl k l n [=]. }
    exists S, app'. done.
  - destruct Hmax as [_ Hnil]. exfalso.
    by apply Hne, (find_cliques_nil_iff find_cliques (G app)).
Qed.

(** X19. On a graph with as many nodes as the list of node colours has
    entries, at least one, all of them indices of the list, the clique
    button returns, whether an animation is running or not: it clears the
    colouring, writes three lines to the log, and draws a picture in which
    the nodes of the clique that [find_max_clique] returns are red and all
    other nodes keep their base colour. *)
Theorem check_clique_result (pal : Palette)
    (find_cliques : Graph → list (list nat)) (app : GraphApp) :
  simple_graph (G app) → find_cliques_contract find_cliques (G app) →
  nodes (G app) ≠ [] →
  length (G app) = length (node_colors app) →
  (∀ n, n ∈ nodes (G app) → n < length (node_colors app)) →
  ∃ S colors app',
    find_max_clique find_cliques (G app) = Ok S ∧
    check_clique pal find_cliques app = Ok app' ∧
    clique_nodes app' = Some S ∧ current_coloring app' = None ∧
    anim_alive app' = anim_alive app ∧
    log app' = log app ++
               ["=== Clique Check ===";
                "Maximum clique size: " +:+ str_nat (length S);
                "Clique nodes: " +:+ str_list S] ∧
    canvas app' = canvas app ++ [(colors, "Maximum Clique Highlighted")] ∧
    length colors = length (node_colors app) ∧
    ∀ n, n < length (node_colors app) →
         colors !! n = if decide (n ∈ S) then Some "red"
                       else node_colors app !! n.
Proof.
  intros HG Hfc Hne Hsize Hlt.
  destruct (check_clique_Ok pal find_cliques app HG Hfc Hne Hsize Hlt)
    as (S & app' & HS & Hnodes & Hrun & Hdraw).
  apply draw_graph_Ok in Hdraw as (colors & -> & Hlen & Hcolors).
  exists S, colors. eexists. split_and!; try done.
  simpl. by rewrite <- !app_assoc.
Qed.

Lemma check_clique_result_witness :
  ∃ S colors app',
    find_max_clique find_cliques_local (G busy_app) = Ok S ∧
    check_clique pal3 find_cliques_local busy_app = Ok app' ∧
    clique_nodes app' = Some S ∧ current_coloring app' = None ∧
    anim_alive app' = anim_alive busy_app ∧
    log app' = log busy_app ++
               ["=== Clique Check ===";
                "Maximum clique size: " +:+ str_nat (length S);
                "Clique nodes: " +:+ str_list S] ∧
    canvas app' = canvas busy_app ++ [(colors, "Maximum Clique Highlighted")] ∧
    length colors = length (node_colors busy_app) ∧
    ∀ n, n < length (node_colors busy_app) →
         colors !! n = if decide (n ∈ S) then Some "red"
                       else node_colors busy_app !! n.
Proof.
  apply (check_clique_result pal3 find_cliques_local busy_app).
  - by apply simple_graphb_spec.
  - by apply find_cliques_local_contract, simple_graphb_spec.
  - done.
  - reflexivity.
  - intros n Hn. apply (proj1 (list_elem_of_In _ _)) in Hn.
    simpl in Hn. simpl. lia.
Defined.

(** ** A whole animation *)

(** An animation started on a state without colouring and clique
    highlight: the picture that [worker] draws and the last picture of the
    frames. *)
Lemma animation_run pal (order : list (nat * nat)) (mode : string)
    (started : GraphApp) :
  current_coloring started = None → clique_nodes started = None →
  node_colors started = default_colors → length (G started) = 34 →
  order ≠ [] → (∀ n, n ∈ order.*1 → n < 34) →
  ∃ returned final first pics colors,
    worker pal order mode started = Ok (returned, step0) ∧
    anim_alive returned = false ∧
    canvas returned = canvas started ++ [(first, mode)] ∧
    (∀ n, n < 34 → first !! n = Some "lightblue") ∧
    play pal order mode (returned, step0) = Ok (final, step_done order) ∧
    canvas final = canvas returned ++ pics ∧
    length pics = length order + 2 ∧
    pics !! (length order + 1) = Some (colors, mode +:+ " Completed") ∧
    ∀ n, n < 34 →
         colors !! n = Some (if decide (n ∈ order.*1) then "lightgreen"
                             else "lightblue").
Proof.
  intros Hcol Hcl Hbase Hsize Hne Hlt.
  assert (Hd : ∀ app1 : GraphApp,
            G app1 = G started → node_colors app1 = node_colors started →
            current_coloring app1 = None → clique_nodes app1 = None →
            ∀ hl, (∀ k l n, hl = Some k → k !! l = Some n →
                     ∀ x, x ∈ n → x < 34) →
            drawable pal hl app1).
  { intros app1 EG En Ec Ek hl Hhl. unfold drawable.
    rewrite EG, En, Ec, Ek, Hbase. split_and!; [done|done|done|].
    intros d k l n Hd' Hk Hn. by eapply Hhl. }
  destruct (worker_total pal order mode started) as [returned Hret].
  { by apply Hd. }
  destruct (worker_Ok pal _ _ _ _ _ Hret)
    as (_ & wpics & first & Eret & Hwlen & Hw0 & Hfirst).
  rewrite decide_False in Hwlen by done.
  destruct wpics as [|p [|q wpics]]; simpl in Hwlen; try lia.
  injection Hw0 as ->.
  destruct (draws_total pal (requests mode order) returned) as [final Hfinal].
  { intros hl title Hin. eapply requests_drawable; [|done].
    apply Hd; try (by rewrite Eret).
    intros k l n [= <-] [-> | ->]%highlight_lookup x Hx; by apply Hlt. }
  destruct (draws_Ok pal _ _ _ Hfinal) as (pics & -> & Hlen & Hpics).
  destruct (Hpics (length order + 1) (step_done order) (mode +:+ " Completed"))
    as (colors & Hlast & Hcolors).
  { unfold requests. rewrite lookup_app_r; rewrite length_fmap, length_seq; [|lia].
    by rewrite Nat.sub_diag. }
  exists returned, (set_canvas (canvas returned ++ pics) returned), first,
         pics, colors.
  split_and!.
  - done.
  - by rewrite Eret.
  - by rewrite Eret.
  - intros n Hn. rewrite Hfirst by (rewrite Hbase; exact Hn).
    unfold composed, step_layer, clique_layer, coloring_layer, base_layer.
    rewrite Hcl, Hcol, Hbase. by apply default_colors_lookup.
  - rewrite play_requests, Hfinal. done.
  - done.
  - rewrite Hlen. unfold requests. rewrite length_app, length_fmap, length_seq.
    simpl. lia.
  - done.
  - intros n Hn. rewrite Hcolors by (rewrite Eret; simpl; rewrite Hbase; exact Hn).
    unfold composed. case_decide as Hin.
    + apply step_layer_lightgreen. eexists. split; [done|].
      unfold step_done. rewrite highlight_lightgreen. simpl.
      apply elem_of_app. by right.
    + rewrite step_layer_none.
      * unfold clique_layer, coloring_layer, base_layer.
        rewrite Eret. simpl. rewrite Hcl, Hcol, Hbase.
        by apply default_colors_lookup.
      * intros (hl & [= <-] & Hg). unfold step_done in Hg.
        rewrite highlight_gold in Hg. done.
      * intros (hl & [= <-] & Hg). unfold step_done in Hg.
        rewrite highlight_lightgreen in Hg. simpl in Hg.
        apply elem_of_app in Hg as [(j & Hj & _)%elem_of_take|Hg]; [|done].
        apply Hin. by eapply list_elem_of_lookup_2.
Qed.

(** X20. On a graph of 34 nodes, all below 34, that has node 0, the
    BFS button pressed while no animation is running returns: it clears
    colouring and clique highlight, writes two lines to the log and starts
    an animation without drawing.  The worker thread then draws one picture
    without highlight, entitled [BFS], and returns with the running flag
    cleared; the frames of the timer draw one picture for each visited node
    and two more, and in the last picture, entitled [BFS Completed], the
    nodes reachable from node 0 are light green and all other nodes light
    blue. *)
Theorem run_bfs_animation (pal : Palette) (app : GraphApp) :
  anim_alive app = false → simple_graph (G app) → length (G app) = 34 →
  0 ∈ nodes (G app) → (∀ n, n ∈ nodes (G app) → n < 34) →
  ∃ order started returned final first pics colors,
    bfs_with_depth (G app) 0 = Ok order ∧
    run_bfs app = Ok started ∧
    anim_alive started = true ∧ current_coloring started = None ∧
    clique_nodes started = None ∧ canvas started = canvas app ∧
    log started = log app ++
                  ["=== BFS ===";
                   "BFS order: " +:+ str_list order.*1 +:+ " (" +:+
                   str_nat (length order.*1) +:+ " nodes)"] ∧
    worker pal order "BFS" started = Ok (returned, step0) ∧
    anim_alive returned = false ∧
    canvas returned = canvas app ++ [(first, "BFS")] ∧
    (∀ n, n < 34 → first !! n = Some "lightblue") ∧
    play pal order "BFS" (returned, step0) = Ok (final, step_done order) ∧
    canvas final = canvas returned ++ pics ∧
    length pics = length order + 2 ∧
    pics !! (length order + 1) = Some (colors, "BFS Completed") ∧
    (∀ n, n < 34 → reachable (G app) 0 n → colors !! n = Some "lightgreen") ∧
    (∀ n, n < 34 → ¬ reachable (G app) 0 n → colors !! n = Some "lightblue").
Proof.
  intros Hidle HG Hsize H0 Hlt.
  destruct (bfs_with_depth_inv (G app) 0 HG H0)
    as (Vb & order & Htrav & Hinv & _).
  pose proof (λ v, bfs_final_reachable (G app) 0 Vb order v Hinv) as Hreach.
  pose proof (bi_head _ _ _ _ _ Hinv) as Hhead. rewrite app_nil_r in Hhead.
  set (started := animate_traversal order "BFS"
         (log_msg (log_msg (set_clique_nodes None (set_current_coloring None app))
                           "=== BFS ===")
                  ("BFS order: " +:+ str_list order.*1 +:+ " (" +:+
                   str_nat (length order.*1) +:+ " nodes)"))).
  assert (Hrun : run_bfs app = Ok started).
  { unfold run_bfs. simpl. rewrite Htrav. done. }
  assert (Hstarted : started =
            set_anim_alive true (set_clique_nodes None
              (set_node_colors default_colors
                 (log_msg (log_msg (set_clique_nodes None
                                      (set_current_coloring None app))
                                   "=== BFS ===")
                          ("BFS order: " +:+ str_list order.*1 +:+ " (" +:+
                           str_nat (length order.*1) +:+ " nodes)"))))).
  { unfold started, animate_traversal. simpl. by rewrite Hidle. }
  destruct (animation_run pal order "BFS" started)
    as (returned & final & first & pics & colors & Hworker & Halive & Hret &
        Hfirst & Hplay & Hfinal & Hlen & Hlast & Hcolors).
  { by rewrite Hstarted. }
  { by rewrite Hstarted. }
  { by rewrite Hstarted. }
  { by rewrite Hstarted. }
  { intros ->. done. }
  { intros n Hn. apply Hlt. apply Hreach in Hn as [k Hk].
    by eapply walk_node_r. }
  exists order, started, returned, final, first, pics, colors.
  split_and!; try done.
  - by rewrite Hstarted.
  - by rewrite Hstarted.
  - by rewrite Hstarted.
  - by rewrite Hstarted.
  - rewrite Hstarted. simpl. by rewrite <- app_assoc.
  - rewrite Hret. by rewrite Hstarted.
  - intros n Hn Hr. rewrite (Hcolors n Hn), decide_True; [done|].
    by apply Hreach.
  - intros n Hn Hr. rewrite (Hcolors n Hn), decide_False; [done|].
    by rewrite Hreach.
Qed.

Lemma run_bfs_animation_witness :
  ∃ order started returned final first pics colors,
    bfs_with_depth (G idle_app) 0 = Ok order ∧
    run_bfs idle_app = Ok started ∧
    anim_alive started = true ∧ current_coloring started = None ∧
    clique_nodes started = None ∧ canvas started = canvas idle_app ∧
    log started = log idle_app ++
                  ["=== BFS ===";
                   "BFS order: " +:+ str_list order.*1 +:+ " (" +:+
                   str_nat (length order.*1) +:+ " nodes)"] ∧
    worker pal3 order "BFS" started = Ok (returned, step0) ∧
    anim_alive returned = false ∧
    canvas returned = canvas idle_app ++ [(first, "BFS")] ∧
    (∀ n, n < 34 → first !! n = Some "lightblue") ∧
    play pal3 order "BFS" (returned, step0) = Ok (final, step_done order) ∧
    canvas final = canvas returned ++ pics ∧
    length pics = length order + 2 ∧
    pics !! (length order + 1) = Some (colors, "BFS Completed") ∧
    (∀ n, n < 34 → reachable (G idle_app) 0 n → colors !! n = Some "lightgreen") ∧
    (∀ n, n < 34 → ¬ reachable (G idle_app) 0 n → colors !! n = Some "lightblue").
Proof.
  apply (run_bfs_animation pal3 idle_app).
  - reflexivity.
  - by apply simple_graphb_spec.
  - reflexivity.
  - left.
  - intros n Hn. apply (proj1 (list_elem_of_In _ _)) in Hn. simpl in Hn. lia.
Defined.

(** X21. On a graph of 34 nodes, all below 34, that has node 0, the
    DFS button pressed while no animation is running returns: it clears
    colouring and clique highlight, writes two lines to the log and starts
    an animation without drawing.  The worker thread then draws one picture
    without highlight, entitled [DFS], and returns with the running flag
    cleared; the frames of the timer draw one picture for each visited node
    and two more, and in the last picture, entitled [DFS Completed], the
    nodes reachable from node 0 are light green and all other nodes light
    blue. *)
Theorem run_dfs_animation (pal : Palette) (app : GraphApp) :
  anim_alive app = false → simple_graph (G app) → length (G app) = 34 →
  0 ∈ nodes (G app) → (∀ n, n ∈ nodes (G app) → n < 34) →
  ∃ order started returned final first pics colors,
    dfs_with_depth (G app) 0 = Ok order ∧
    run_dfs app = Ok started ∧
    anim_alive started = true ∧ current_coloring started = None ∧
    clique_nodes started = None ∧ canvas started = canvas app ∧
    log started = log app ++
                  ["=== DFS ===";
                   "DFS order: " +:+ str_list order.*1 +:+ " (" +:+
                   str_nat (length order.*1) +:+ " nodes)"] ∧
    worker pal order "DFS" started = Ok (returned, step0) ∧
    anim_alive returned = false ∧
    canvas returned = canvas app ++ [(first, "DFS")] ∧
    (∀ n, n < 34 → first !! n = Some "lightblue") ∧
    play pal order "DFS" (returned, step0) = Ok (final, step_done order) ∧
    canvas final = canvas returned ++ pics ∧
    length pics = length order + 2 ∧
    pics !! (length order + 1) = Some (colors, "DFS Completed") ∧
    (∀ n, n < 34 → reachable (G app) 0 n → colors !! n = Some "lightgreen") ∧
    (∀ n, n < 34 → ¬ reachable (G app) 0 n → colors !! n = Some "lightblue").
Proof.
  intros Hidle HG Hsize H0 Hlt.
  destruct (dfs_with_depth_tree (G app) 0 HG H0)
    as (t & Htrav & _ & _ & _ & Hreach).
  set (order := preorder 0 t) in *.
  set (started := animate_traversal order "DFS"
         (log_msg (log_msg (set_clique_nodes None (set_current_coloring None app))
                           "=== DFS ===")
                  ("DFS order: " +:+ str_list order.*1 +:+ " (" +:+
                   str_nat (length order.*1) +:+ " nodes)"))).
  assert (Hrun : run_dfs app = Ok started).
  { unfold run_dfs. simpl. rewrite Htrav. done. }
  assert (Hstarted : started =
            set_anim_alive true (set_clique_nodes None
              (set_node_colors default_colors
                 (log_msg (log_msg (set_clique_nodes None
                                      (set_current_coloring None app))
                                   "=== DFS ===")
                          ("DFS order: " +:+ str_list order.*1 +:+ " (" +:+
                           str_nat (length order.*1) +:+ " nodes)"))))).
  { unfold started, animate_traversal. simpl. by rewrite Hidle. }
  destruct (animation_run pal order "DFS" started)
    as (returned & final & first & pics & colors & Hworker & Halive & Hret &
        Hfirst & Hplay & Hfinal & Hlen & Hlast & Hcolors).
  { by rewrite Hstarted. }
  { by rewrite Hstarted. }
  { by rewrite Hstarted. }
  { by rewrite Hstarted. }
  { unfold order. by destruct t. }
  { intros n Hn. apply Hlt. apply Hreach in Hn as [k Hk].
    by eapply walk_node_r. }
  exists order, started, returned, final, first, pics, colors.
  split_and!; try done.
  - by rewrite Hstarted.
  - by rewrite Hstarted.
  - by rewrite Hstarted.
  - by rewrite Hstarted.
  - rewrite Hstarted. simpl. by rewrite <- app_assoc.
  - rewrite Hret. by rewrite Hstarted.
  - intros n Hn Hr. rewrite (Hcolors n Hn), decide_True; [done|].
    by apply Hreach.
  - intros n Hn Hr. rewrite (Hcolors n Hn), decide_False; [done|].
    by rewrite Hreach.
Qed.

Lemma run_dfs_animation_witness :
  ∃ order started returned final first pics colors,
    dfs_with_depth (G idle_app) 0 = Ok order ∧
    run_dfs idle_app = Ok started ∧
    anim_alive started = true ∧ current_coloring started = None ∧
    clique_nodes started = None ∧ canvas started = canvas idle_app ∧
    log started = log idle_app ++
                  ["=== DFS ===";
                   "DFS order: " +:+ str_list order.*1 +:+ " (" +:+
                   str_nat (length order.*1) +:+ " nodes)"] ∧
    worker pal3 order "DFS" started = Ok (returned, step0) ∧
    anim_alive returned = false ∧
    canvas returned = canvas idle_app ++ [(first, "DFS")] ∧
    (∀ n, n < 34 → first !! n = Some "lightblue") ∧
    play pal3 order "DFS" (returned, step0) = Ok (final, step_done order) ∧
    canvas final = canvas returned ++ pics ∧
    length pics = length order + 2 ∧
    pics !! (length order + 1) = Some (colors, "DFS Completed") ∧
    (∀ n, n < 34 → reachable (G idle_app) 0 n → colors !! n = Some "lightgreen") ∧
    (∀ n, n < 34 → ¬ reachable (G idle_app) 0 n → colors !! n = Some "lightblue").
Proof.
  apply (run_dfs_animation pal3 idle_app).
  - reflexivity.
  - by apply simple_graphb_spec.
  - reflexivity.
  - left.
  - intros n Hn. apply (proj1 (list_elem_of_In _ _)) in Hn. simpl in Hn. lia.
Defined.

(** ** The state of the application between events *)

Lemma update_canvas pal order mode frame app st app' st' :
  update pal order mode frame (app, st) = Ok (app', st') →
  ∃ pics, app' = set_canvas (canvas app ++ pics) app.
Proof.
  unfold update.
  intros ([st1 title] & _ & (app1 & Hd1 & Hrest)%bind_Ok)%bind_Ok.
  apply draw_graph_Ok in Hd1 as (c1 & -> & _).
  case_decide.
  - apply bind_Ok in Hrest as (app2 & Hd2 & [= <- _]).
    apply draw_graph_Ok in Hd2 as (c2 & -> & _). simpl.
    exists [(c1, title); (c2, mode +:+ " Completed")].
    by rewrite <- app_assoc.
  - injection Hrest as <- _. by eexists.
Qed.

(** A draw request without colouring, clique and highlights. *)
Lemma draw_graph_plain pal title app :
  current_coloring app = None → clique_nodes app = None →
  length (G app) = length (node_colors app) →
  ∃ app', draw_graph pal None title app = Ok app'.
Proof.
  intros Hcol Hcl Hsize. apply draw_graph_total. split_and!.
  - done.
  - intros coloring n Hc. by rewrite Hcol in Hc.
  - intros clique n Hc. by rewrite Hcl in Hc.
  - intros hl k l n [=].
Qed.

Lemma app_inv_init pal G0 :
  length G0 = 34 →
  ∃ app0, __init__ pal G0 = Ok app0 ∧ app_inv G0 app0 ∧
          anim_alive app0 = false ∧
          log app0 = ["Nodes: 34, Edges: 78" +:+ newline] ∧
          length (canvas app0) = 1.
Proof.
  intros Hsize. unfold __init__.
  match goal with
  | |- context [draw_graph pal None ?title ?a] =>
      destruct (draw_graph_plain pal title a) as [app0 Happ0]; [done..|]
  end.
  exists app0. split; [done|].
  apply draw_graph_Ok in Happ0 as (colors & -> & _).
  split; [|done]. unfold app_inv. simpl.
  split_and!; [done|done|by left|by intros ? ? [=]..].
Qed.

Section invariant.
Context (pal : Palette) (find_cliques : Graph → list (list nat)).
Context (G0 : Graph) (HG : simple_graph G0).
Context (Hfc : find_cliques_contract find_cliques G0).

Lemma app_inv_command b app app' :
  app_inv G0 app → command pal find_cliques b app = Ok app' →
  app_inv G0 app'.
Proof.
  intros (HG0 & Hbase & Hexcl & Hcol & Hcl) Hrun.
  destruct b; simpl in Hrun.
  - unfold run_bfs in Hrun. apply bind_Ok in Hrun as (order & _ & [= <-]).
    unfold animate_traversal. simpl.
    destruct (anim_alive app); (split_and!; [done..|by left| |]);
      by intros ? ? [=].
  - unfold run_dfs in Hrun. apply bind_Ok in Hrun as (order & _ & [= <-]).
    unfold animate_traversal. simpl.
    destruct (anim_alive app); (split_and!; [done..|by left| |]);
      by intros ? ? [=].
  - unfold run_coloring in Hrun. destruct (anim_alive app).
    { injection Hrun as <-. by split_and!. }
    apply bind_Ok in Hrun as (m & Hm & (mc & _ & Hdraw)%bind_Ok).
    apply draw_graph_Ok in Hdraw as (colors & -> & _).
    rewrite foldl_log_msg. simpl.
    split_and!; [done|done|by right| |by intros ? ? [=]].
    intros coloring n [= <-] Hn.
    destruct (greedy_loop_spec G0 HG) as (m' & Hm' & Hdom & _).
    rewrite HG0, Hm' in Hm. injection Hm as <-. by apply Hdom.
  - unfold check_cycle in Hrun. apply bind_Ok in Hrun as (b & _ & [= <-]).
    simpl. split_and!; [done|done|by right|done|by intros ? ? [=]].
  - unfold check_clique in Hrun.
    apply bind_Ok in Hrun as (S & HS & Hdraw).
    apply draw_graph_Ok in Hdraw as (colors & -> & _). simpl.
    split_and!; [done|done|by left|by intros ? ? [=]|].
    intros clique n [= <-] Hn. simpl in HS. rewrite HG0 in HS.
    unfold find_max_clique in HS.
    pose proof (max_by_len_spec (find_cliques G0)) as Hmax.
    rewrite HS in Hmax. destruct Hmax as [Hin _].
    destruct Hfc as [Hfc' _].
    destruct (Hfc' S Hin) as [_ [(_ & Hnodes & _) _]]. auto.
  - unfold clear_log in Hrun. apply draw_graph_Ok in Hrun as (colors & -> & _).
    simpl. split_and!; [done|done|by left|by intros ? ? [=]..].
Qed.

Lemma app_inv_step app app' :
  app_inv G0 app → gui_step pal find_cliques app app' → app_inv G0 app'.
Proof.
  intros Hinv Hstep.
  destruct Hstep as [b app app' Hrun|order mode app app' step _ Hw|
                     order mode frame step app app' step' Hu].
  - by eapply app_inv_command.
  - apply worker_Ok in Hw as (_ & pics & colors & -> & _). done.
  - apply update_canvas in Hu as (pics & ->). done.
Qed.

(** The buttons return in a state that satisfies the invariant. *)
Lemma command_total b app :
  length G0 = 34 → 0 ∈ nodes G0 → (∀ n, n ∈ nodes G0 → n < 34) →
  TABLEAU_COLORS pal ++ CSS4_COLORS pal ≠ [] →
  app_inv G0 app → ∃ app', command pal find_cliques b app = Ok app'.
Proof.
  intros Hsize H0 Hlt Hpal (HG0 & Hbase & Hexcl & Hcol & Hcl).
  assert (Hne : nodes G0 ≠ []).
  { intros Hnil. rewrite Hnil in H0. by apply elem_of_nil in H0. }
  destruct b; simpl.
  - unfold run_bfs. simpl. rewrite HG0.
    destruct (bfs_with_depth_inv G0 0 HG H0) as (Vb & order & -> & _).
    by eexists.
  - unfold run_dfs. simpl. rewrite HG0.
    destruct (dfs_with_depth_tree G0 0 HG H0) as (t & -> & _).
    by eexists.
  - destruct (anim_alive app) eqn:Halive.
    + rewrite run_coloring_rejects by done. by eexists.
    + destruct (run_coloring_Ok pal app) as (m & cm & colors & app' & Hrun);
        rewrite ?HG0; try done.
      exists app'. apply Hrun.
  - unfold check_cycle. simpl. rewrite HG0.
    destruct (has_cycle_spec G0 HG) as (b & -> & _). by eexists.
  - destruct (check_clique_Ok pal find_cliques app) as (S & app' & Hrun);
      rewrite ?HG0, ?Hbase; try done.
    exists app'. apply Hrun.
  - unfold clear_log. apply draw_graph_plain; simpl; [done|done|].
    by rewrite HG0.
Qed.
End invariant.

(** X22. On a graph of 34 nodes start-up returns, and in every state that
    the application reaches from it by button presses, returns of the
    worker thread and animation frames that raise no exception, the graph
    is the one loaded, the base colours are the 34 light blue ones, a
    colouring and a clique highlight are never set together, and they name
    nodes of the graph only. *)
Theorem controller_invariant (pal : Palette)
    (find_cliques : Graph → list (list nat)) (G0 : Graph) :
  simple_graph G0 → find_cliques_contract find_cliques G0 →
  length G0 = 34 →
  ∃ app0, __init__ pal G0 = Ok app0 ∧
          ∀ app, rtc (gui_step pal find_cliques) app0 app → app_inv G0 app.
Proof.
  intros HG Hfc Hsize.
  destruct (app_inv_init pal G0 Hsize) as (app0 & Hinit & Hinv & _).
  exists app0. split; [done|]. intros app Hreach. clear Hinit.
  induction Hreach as [app|app app1 app2 Hstep _ IH]; [done|].
  apply IH. by eapply app_inv_step.
Qed.

Lemma controller_invariant_witness :
  ∃ app0 app1 app2,
    __init__ pal3 k3tail34 = Ok app0 ∧
    command pal3 find_cliques_local CheckClique app0 = Ok app1 ∧
    command pal3 find_cliques_local RunGreedyColoring app1 = Ok app2 ∧
    app_inv k3tail34 app2.
Proof.
  destruct (controller_invariant pal3 find_cliques_local k3tail34)
    as (app0 & Hinit & Hinv).
  - by apply simple_graphb_spec.
  - by apply find_cliques_local_contract, simple_graphb_spec.
  - reflexivity.
  - vm_compute in Hinit. injection Hinit as <-.
    eexists _, _, _. split; [reflexivity|].
    split; [vm_compute; reflexivity|]. split; [vm_compute; reflexivity|].
    apply Hinv. eapply rtc_l.
    { apply (step_press _ _ CheckClique). vm_compute. reflexivity. }
    apply rtc_once. apply (step_press _ _ RunGreedyColoring).
    vm_compute. reflexivity.
Defined.

(** X23. On a graph of 34 nodes, all below 34, that has node 0, with a
    colour table that is not empty, start-up returns and no button raises
    an exception, in any state that the application reaches from
    start-up. *)
Theorem buttons_never_raise (pal : Palette)
    (find_cliques : Graph → list (list nat)) (G0 : Graph) :
  simple_graph G0 → find_cliques_contract find_cliques G0 →
  length G0 = 34 → 0 ∈ nodes G0 → (∀ n, n ∈ nodes G0 → n < 34) →
  TABLEAU_COLORS pal ++ CSS4_COLORS pal ≠ [] →
  ∃ app0, __init__ pal G0 = Ok app0 ∧
          ∀ app b, rtc (gui_step pal find_cliques) app0 app →
                   ∃ app', command pal find_cliques b app = Ok app'.
Proof.
  intros HG Hfc Hsize H0 Hlt Hpal.
  destruct (app_inv_init pal G0 Hsize) as (app0 & Hinit & Hinv & _).
  exists app0. split; [done|]. intros app b Hreach.
  apply (command_total pal find_cliques G0 HG Hfc); try done.
  clear Hinit. induction Hreach as [app|app app1 app2 Hstep _ IH]; [done|].
  apply IH. by eapply app_inv_step.
Qed.

Lemma buttons_never_raise_witness :
  ∃ app0 app1,
    __init__ pal3 k3tail34 = Ok app0 ∧
    command pal3 find_cliques_local RunBFS app0 = Ok app1 ∧
    ∀ b, ∃ app', command pal3 find_cliques_local b app1 = Ok app'.
Proof.
  destruct (buttons_never_raise pal3 find_cliques_local k3tail34)
    as (app0 & Hinit & Hall).
  - by apply simple_graphb_spec.
  - by apply find_cliques_local_contract, simple_graphb_spec.
  - reflexivity.
  - left.
  - intros n Hn. apply (proj1 (list_elem_of_In _ _)) in Hn. simpl in Hn. lia.
  - done.
  - vm_compute in Hinit. injection Hinit as <-.
    eexists _, _. split; [reflexivity|].
    split; [vm_compute; reflexivity|]. intros b. apply Hall.
    apply rtc_once. apply (step_press _ _ RunBFS). vm_compute. reflexivity.
Defined.
